(** * Block assembly with Dirichlet conditions, cell classification and the
      deprecated-hook sentinel: a shallow embedding and its properties.

    The development follows three parts of the sources:
    - [dolfin/nls/NonlinearProblem.h], class [NonlinearProblem]
      (module [NonlinearProblem]);
    - [dolfin/main/SubSystemsManager.cpp], its part that implements
      [MultiPointConstraint] (module [MultiPointConstraint]);
    - [cpp/dolfin/fem/Assembler.cpp] (module [Assembler]).

    Scalars ([double], [PetscScalar]) are IEEE binary64 numbers, the
    primitive [float] of the system. *)

From Stdlib Require Import ZArith List Lia Bool.
From Stdlib Require Import PrimFloat.
From stdpp Require Import gmap list fin_maps.

Import ListNotations.
Local Open Scope Z_scope.

(* ===================================================================== *)
(** * NonlinearProblem: the deprecation sentinel                          *)
(* ===================================================================== *)

Module NonlinearProblem.

Section Problem.

(** Data members added by a derived class, and the arguments [A, b, x]
    of a call (the base four-argument body does not use [P]). *)
Context {U Args : Type}.

(** An object of (a subclass of) [NonlinearProblem]: the private flag of
    the base class and the derived part. *)
Record object : Type := mk_object { _called : bool; derived : U }.

(** The constructor: [NonlinearProblem() : _called(false) {}]. *)
Definition constructed (u : U) : object :=
  {| _called := false; derived := u |}.

(** How a subclass provides the virtual three-argument
    [form(A, b, x)].  [_called] is private, so an overriding body acts on
    the derived part only; it can set the flag in one way, by the
    qualified call [NonlinearProblem::form(A, b, x)] of the base-class
    body.  [body args u] gives the derived part after the call and tells
    whether the body made that call; it may make it for some arguments
    and states of the object and not for others.  A body that calls the
    four-argument [form] is not described: that call comes back to the
    body itself. *)
Inductive form3_impl : Type :=
| Inherited
| Overridden (body : Args -> U -> U * bool).

Definition overrides (impl : form3_impl) : bool :=
  match impl with
  | Inherited => false
  | Overridden _ => true
  end.

(** Body of the base [form(A, b, x)]: [_called = true;]. *)
Definition form3_base (o : object) : object :=
  {| _called := true; derived := derived o |}.

(** Virtual dispatch of [form(A, b, x)]. *)
Definition form3 (impl : form3_impl) (args : Args) (o : object) : object :=
  match impl with
  | Inherited => form3_base o
  | Overridden body =>
      let o' := {| _called := _called o;
                   derived := fst (body args (derived o)) |} in
      if snd (body args (derived o)) then form3_base o' else o'
  end.

(** Base [form(A, P, b, x)]: calls [form(A, b, x)], warns when the flag
    is not set, and clears the flag.  The second component tells whether
    [deprecation(...)] was called. *)
Definition form4 (impl : form3_impl) (args : Args) (o : object)
    : object * bool :=
  let o1 := form3 impl args o in
  let warned := negb (_called o1) in
  ({| _called := false; derived := derived o1 |}, warned).

(** Calls that can be made on the object: the virtual three-argument
    [form], the base four-argument [form], and the public base
    three-argument body by its qualified name. *)
Inductive call : Type :=
| CallForm3 (args : Args)
| CallForm4 (args : Args)
| CallBaseForm3 (args : Args).

Definition step (impl : form3_impl) (o : object) (c : call) : object :=
  match c with
  | CallForm3 args => form3 impl args o
  | CallForm4 args => fst (form4 impl args o)
  | CallBaseForm3 _ => form3_base o
  end.

(** The object after a sequence of calls. *)
Definition run (impl : form3_impl) (cs : list call) (o : object) : object :=
  fold_left (step impl) cs o.

(** Does the base three-argument body execute during the call [c] made
    on [o]? *)
Definition runs_base (impl : form3_impl) (c : call) (o : object) : bool :=
  match c with
  | CallBaseForm3 _ => true
  | CallForm3 args | CallForm4 args =>
      match impl with
      | Inherited => true
      | Overridden body => snd (body args (derived o))
      end
  end.

Definition is_form4 (c : call) : bool :=
  match c with CallForm4 _ => true | _ => false end.

(** The base three-argument body has not executed in [cs] since the flag
    was last cleared (by the constructor, or by the last call of the
    base four-argument [form]); the calls are made from the object
    constructed on [u]. *)
Definition not_run_since_cleared (impl : form3_impl) (u : U) (cs : list call)
    : Prop :=
  forall pre c post,
    cs = pre ++ c :: post ->
    Forall (fun c => is_form4 c = false) (c :: post) ->
    runs_base impl c (run impl pre (constructed u)) = false.

End Problem.

Arguments object : clear implicits.
Arguments form3_impl : clear implicits.
Arguments call : clear implicits.

(** Concrete subclasses used in examples: one counts its own calls; one
    counts them and calls the base body every time; one calls the base
    body on every second call. *)
Definition counting : form3_impl nat unit :=
  Overridden (fun _ n => (S n, false)).

Definition delegating : form3_impl nat unit :=
  Overridden (fun _ n => (S n, true)).

Definition alternating : form3_impl nat unit :=
  Overridden (fun _ n => (S n, Nat.even n)).

End NonlinearProblem.

(* ===================================================================== *)
(** * MultiPointConstraint: cell classification                           *)
(* ===================================================================== *)

Module MultiPointConstraint.

(** [unsigned(dofs[i])]: conversion of a dof number to a 32-bit
    [unsigned]; the comparison with the [std::int64_t] slave is then
    made in 64 bits, where the converted value is kept as it is. *)
Definition unsigned (d : Z) : Z := d mod 2 ^ 32.

(** The object.  [cell_dofs] stands for [_function_space]: entry [c] is
    [dofmap.cell_dofs(c)], and the cells of the mesh (of top dimension)
    are [0 .. length cell_dofs - 1], visited in this order by
    [mesh::MeshRange]. *)
Record mpc : Type := mk_mpc {
  cell_dofs : list (list Z);
  _slaves : list Z;
  _masters : list Z;
  _coefficients : list float;
  _offsets : list Z;
  _slave_cells : list Z;
  _normal_cells : list Z;
  _offsets_cell_to_slave : list Z;
  _cell_to_slave : list Z
}.

(** The locals of the loop body that the two inner loops update. *)
Record scan : Type := mk_scan {
  sc_mpc : mpc;
  sc_j : Z;
  sc_slave_cell : bool
}.

Definition push_cell_to_slave (m : mpc) (slave : Z) : mpc :=
  {| cell_dofs := cell_dofs m; _slaves := _slaves m; _masters := _masters m;
     _coefficients := _coefficients m; _offsets := _offsets m;
     _slave_cells := _slave_cells m; _normal_cells := _normal_cells m;
     _offsets_cell_to_slave := _offsets_cell_to_slave m;
     _cell_to_slave := _cell_to_slave m ++ [slave] |}.

Definition push_offset (m : mpc) (j : Z) : mpc :=
  {| cell_dofs := cell_dofs m; _slaves := _slaves m; _masters := _masters m;
     _coefficients := _coefficients m; _offsets := _offsets m;
     _slave_cells := _slave_cells m; _normal_cells := _normal_cells m;
     _offsets_cell_to_slave := _offsets_cell_to_slave m ++ [j];
     _cell_to_slave := _cell_to_slave m |}.

Definition push_slave_cell (m : mpc) (c : Z) : mpc :=
  {| cell_dofs := cell_dofs m; _slaves := _slaves m; _masters := _masters m;
     _coefficients := _coefficients m; _offsets := _offsets m;
     _slave_cells := _slave_cells m ++ [c]; _normal_cells := _normal_cells m;
     _offsets_cell_to_slave := _offsets_cell_to_slave m;
     _cell_to_slave := _cell_to_slave m |}.

Definition push_normal_cell (m : mpc) (c : Z) : mpc :=
  {| cell_dofs := cell_dofs m; _slaves := _slaves m; _masters := _masters m;
     _coefficients := _coefficients m; _offsets := _offsets m;
     _slave_cells := _slave_cells m; _normal_cells := _normal_cells m ++ [c];
     _offsets_cell_to_slave := _offsets_cell_to_slave m;
     _cell_to_slave := _cell_to_slave m |}.

(** Innermost body: [if (unsigned(dofs[i]) == slave) { ... }]. *)
Definition scan_dof (slave : Z) (s : scan) (d : Z) : scan :=
  if unsigned d =? slave
  then {| sc_mpc := push_cell_to_slave (sc_mpc s) slave;
          sc_j := sc_j s + 1;
          sc_slave_cell := true |}
  else s.

(** [for (Eigen::Index i = 0; i < dofs.size(); ++i)]. *)
Definition scan_slave (dofs : list Z) (s : scan) (slave : Z) : scan :=
  fold_left (scan_dof slave) dofs s.

(** [for (auto slave : _slaves)]. *)
Definition scan_slaves (dofs : list Z) (s : scan) : scan :=
  fold_left (scan_slave dofs) (_slaves (sc_mpc s)) s.

(** One iteration of the loop over cells; the state is the object and the
    running counter [j]. *)
Definition classify_cell (st : mpc * Z) (cell : nat * list Z) : mpc * Z :=
  let '(m, j) := st in
  let '(cell_index, dofs) := cell in
  let s := scan_slaves dofs
             {| sc_mpc := m; sc_j := j; sc_slave_cell := false |} in
  if sc_slave_cell s
  then (push_offset (push_slave_cell (sc_mpc s) (Z.of_nat cell_index))
                    (sc_j s), sc_j s)
  else (push_normal_cell (sc_mpc s) (Z.of_nat cell_index), sc_j s).

(** The cells with their indices, in iteration order. *)
Definition mesh_range (m : mpc) : list (nat * list Z) :=
  imap (fun c dofs => (c, dofs)) (cell_dofs m).

(** [MultiPointConstraint::cell_classification()]: the object after the
    call and the returned pair. *)
Definition cell_classification (m : mpc) : mpc * (list Z * list Z) :=
  if (0 <? length (_slave_cells m))%nat
  then (m, (_slave_cells m, _normal_cells m))
  else
    let j := 0 in
    let m0 := push_offset m j in
    let m1 := fst (fold_left classify_cell (mesh_range m0) (m0, j)) in
    (m1, (_slave_cells m1, _normal_cells m1)).

(** [cell_to_slave_mapping()]. *)
Definition cell_to_slave_mapping (m : mpc) : list Z * list Z :=
  (_cell_to_slave m, _offsets_cell_to_slave m).

(** The constructor: the members are initialised, the derived arrays are
    empty, and [cell_classification()] is called once. *)
Definition construct (dofmap : list (list Z)) (slaves masters : list Z)
    (coefficients : list float) (offsets : list Z) : mpc :=
  fst (cell_classification
         {| cell_dofs := dofmap; _slaves := slaves; _masters := masters;
            _coefficients := coefficients; _offsets := offsets;
            _slave_cells := []; _normal_cells := [];
            _offsets_cell_to_slave := []; _cell_to_slave := [] |}).

(** What a caller observes of the classification. *)
Definition observed (m : mpc) : list Z * list Z * list Z :=
  (_slave_cells m, _normal_cells m, _offsets_cell_to_slave m).

(** Does a cell touch a slave dof? *)
Definition touches (slaves dofs : list Z) : Prop :=
  exists d, d ∈ dofs /\ d ∈ slaves.

(** Used in the proofs: what the two inner loops append to
    [_cell_to_slave] for one cell, and the test that they found
    something. *)
Definition hits_of (dofs : list Z) (slave : Z) : list Z :=
  flat_map (fun d => if unsigned d =? slave then [slave] else []) dofs.

Definition hits (slaves dofs : list Z) : list Z :=
  flat_map (hits_of dofs) slaves.

Definition touched (slaves dofs : list Z) : bool :=
  match hits slaves dofs with [] => false | _ :: _ => true end.

Definition append_cell_to_slave (m : mpc) (l : list Z) : mpc :=
  {| cell_dofs := cell_dofs m; _slaves := _slaves m; _masters := _masters m;
     _coefficients := _coefficients m; _offsets := _offsets m;
     _slave_cells := _slave_cells m; _normal_cells := _normal_cells m;
     _offsets_cell_to_slave := _offsets_cell_to_slave m;
     _cell_to_slave := _cell_to_slave m ++ l |}.

(** The invariant of the CSR arrays, with the running counter [j]. *)
Definition csr_ok (m : mpc) (j : Z) : Prop :=
  j = Z.of_nat (length (_cell_to_slave m)) /\
  last (_offsets_cell_to_slave m) = Some j /\
  length (_offsets_cell_to_slave m) = S (length (_slave_cells m)) /\
  (forall i x y, _offsets_cell_to_slave m !! i = Some x ->
                 _offsets_cell_to_slave m !! S i = Some y -> x <= y).

(** Example data: an interval mesh of three cells with linear elements,
    dofs [0..3]. *)
Definition interval3 : list (list Z) := [[0; 1]; [1; 2]; [2; 3]].

End MultiPointConstraint.


(* ===================================================================== *)
(** * Assembler: block assembly of matrices and vectors                   *)
(* ===================================================================== *)

Module Assembler.

Local Open Scope nat_scope.

(** ** Collaborators

    Dof numbers, cell numbers and sizes are natural numbers: the source
    holds them in [std::size_t], [PetscInt] and [la_index_t] and converts
    between these, which leaves a valid (non-negative) dof number as it
    is. *)

(** [DirichletBC::Map]: prescribed value by dof number. *)
Abbreviation Map := (gmap nat float).

(** Dense row-major element matrix ([EigenRowMatrixXd]), as its rows. *)
Abbreviation Dense := (list (list float)).

Inductive Method : Type := topological | geometric | pointwise.

Inductive BlockType : Type := monolithic | nested.

(** The mesh: [MeshRange<Cell>] visits the cells [0 .. num_cells - 1];
    [mpi_comm_size] is [MPI::size(mesh.mpi_comm())]. *)
Record Mesh : Type := mk_Mesh { num_cells : nat; mpi_comm_size : nat }.

(** Modelled from the spec: [common::IndexMap] is not part of the
    sources; [index_map() -> {owned_count, ghost_count, block_size}], and
    the [ALL] size is "the all count, owned+ghost". *)
Record IndexMap : Type := mk_IndexMap {
  size_owned : nat;
  size_ghosts : nat;
  block_size : nat
}.

(** Modelled from the spec: [IndexMap::size(MapSize::ALL)] is not part
    of the sources; it is "the all count, owned+ghost". *)
Definition size_all (m : IndexMap) : nat := size_owned m + size_ghosts m.

Record GenericDofMap : Type := mk_DofMap {
  cell_dofs : nat -> list nat;
  index_map : IndexMap
}.

(** A function space; [fs_id] is the identity of the shared object, which
    [==] on [std::shared_ptr] compares. *)
Record FunctionSpace : Type := mk_FunctionSpace {
  fs_id : nat;
  dofmap : GenericDofMap
}.

Definition same_space (V W : FunctionSpace) : bool :=
  fs_id V =? fs_id W.

(** A boundary condition.  [local_values] are the pairs that
    [get_boundary_values] yields on this rank, in its order;
    [remote_values] are the pairs that [gather] receives from other
    ranks. *)
Record DirichletBC : Type := mk_DirichletBC {
  bc_function_space : FunctionSpace;
  method : Method;
  local_values : list (nat * float);
  remote_values : list (nat * float)
}.

(** A form.  [tabulate_tensor c k] is the value that the generated kernel
    leaves in entry [k] of the zeroed buffer for cell [c]. *)
Record Form : Type := mk_Form {
  mesh : Mesh;
  function_space0 : FunctionSpace;
  function_space1 : FunctionSpace;
  tabulate_tensor : nat -> nat -> float
}.

Definition is_pointwise (m : Method) : bool :=
  match m with pointwise => true | _ => false end.

(** Writing pairs into a map, one after the other: a later pair for a
    key replaces the earlier one. *)
Definition merge_values (vals : list (nat * float)) (bv : Map) : Map :=
  fold_left (fun m kv => <[fst kv := snd kv]> m) vals bv.

(** Modelled from the spec: [DirichletBC::get_boundary_values] is not
    part of the sources; it must "merge the condition's local (dof ->
    value) pairs into the block's map (last-write-wins on duplicate
    keys)". *)
Definition get_boundary_values (bc : DirichletBC) (bv : Map) : Map :=
  merge_values (local_values bc) bv.

(** Modelled from the spec: [DirichletBC::gather] is not part of the
    sources; a rank "merges incoming values for dofs it does not own but
    whose owning rank prescribed them". *)
Definition gather (bc : DirichletBC) (bv : Map) : Map :=
  merge_values (remote_values bc) bv.

(** ** The matrix container, seen through the calls made on it *)

Inductive MatType : Type := MATNEST | MATAIJ.

(** Modelled from the spec: the three constructors of [utils.h] are not
    part of the sources; each must give "the matching global-container":
    nested storage for [init_nest_matrix], merged storage otherwise. *)
Inductive Constructor : Type :=
  init_nest_matrix | init_monolithic_matrix | init_matrix.

(** Modelled from the spec: the storage kind that each of these absent
    constructors gives, "nested" for the first and merged storage for
    the other two. *)
Definition constructed_type (c : Constructor) : MatType :=
  match c with
  | init_nest_matrix => MATNEST
  | init_monolithic_matrix | init_matrix => MATAIJ
  end.

(** [la::PETScMatrix]: [None] is the empty (not yet initialised) one. *)
Abbreviation PETScMatrix := (option MatType).

(** The arguments of [ISCreateBlock]. *)
Record IS : Type := mk_IS { is_bs : nat; is_idx : list Z }.

(** Which [Mat] a call addresses: [A] itself, the sub-matrix
    [MatNestGetSubMat(A, i, j)], or the view
    [MatGetLocalSubMatrix(A, is0, is1)]. *)
Inductive Handle : Type :=
| Whole
| NestSub (i j : nat)
| LocalSub (is0 is1 : IS).

Inductive AssemblyType : Type := FLUSH | FINAL.

Inductive MatOp : Type :=
| OpInit (c : Constructor)
| OpAddLocal (h : Handle) (block : Dense) (rows cols : list nat)
| OpSetLocal (h : Handle) (block : Dense) (rows cols : list nat)
| OpApply (h : Handle) (t : AssemblyType)
| OpRestore (h : Handle).

(** The two messages of [std::runtime_error] in the file: "Null block not
    supported/tested yet." and "Cannot have NULL linear form block." *)
Inductive Error : Type := NullBlock | NullLinearForm.

(** How a call ends: normally, with [std::runtime_error], or in a way the
    source does not define (an assertion does not hold, a null form or
    an empty row is dereferenced, a [std::vector] is written outside its
    bounds). *)
Inductive Outcome : Type := Done | Thrown (e : Error) | Undefined.

(** ** Element tensors *)

(** [Ae.resize(rows, cols); Ae.setZero(); a.tabulate_tensor(Ae.data(), ..)] *)
Definition element_matrix (a : Form) (c rows cols : nat) : Dense :=
  map (fun i => map (fun j => tabulate_tensor a c (i * cols + j))
                    (seq 0 cols))
      (seq 0 rows).

(** [be.resize(n); be.setZero(); L.tabulate_tensor(be.data(), ..)] *)
Definition element_vector (L : Form) (c n : nat) : list float :=
  map (tabulate_tensor L c) (seq 0 n).

(** [Ae.row(i).setZero()] and [Ae.col(j).setZero()]. *)
Definition zero_row (Ae : Dense) (i : nat) : Dense :=
  alter (map (fun _ => 0%float)) i Ae.

Definition zero_col (Ae : Dense) (j : nat) : Dense :=
  map (fun row => <[j := 0%float]> row) Ae.

Definition has_key (bv : Map) (ii : nat) : bool :=
  match bv !! ii with Some _ => true | None => false end.

(** The two loops "Zero rows/columns for Dirichlet bcs". *)
Definition zero_bc_rows (bv : Map) (dmap0 : list nat) (Ae : Dense) : Dense :=
  fold_left (fun M i =>
               match dmap0 !! i with
               | Some ii => if has_key bv ii then zero_row M i else M
               | None => M
               end)
            (seq 0 (length Ae)) Ae.

Definition zero_bc_cols (bv : Map) (dmap1 : list nat) (Ae : Dense) : Dense :=
  fold_left (fun M j =>
               match dmap1 !! j with
               | Some jj => if has_key bv jj then zero_col M j else M
               | None => M
               end)
            (seq 0 (length dmap1)) Ae.

(** Entries of an element matrix, and what it is for a row or a column
    to be zero. *)
Definition entry (M : Dense) (i j : nat) : option float :=
  match M !! i with
  | Some row => row !! j
  | None => None
  end.

Definition row_zero (M : Dense) (i : nat) : Prop :=
  forall j x, entry M i j = Some x -> x = 0%float.

Definition col_zero (M : Dense) (j : nat) : Prop :=
  forall i x, entry M i j = Some x -> x = 0%float.

Definition shaped (M : Dense) (rows cols : nat) : Prop :=
  length M = rows /\ Forall (fun row => length row = cols) M.

Section Env.

(** [FunctionSpace::contains], [MPI::size(MPI_COMM_WORLD)] and the effect
    of [VecGhostUpdateBegin/End(v, ADD_VALUES, SCATTER_REVERSE)] on the
    owned entry [k] of vector number [i] (what the other ranks send is
    not known to this one). *)
Variable contains : FunctionSpace -> FunctionSpace -> bool.
Variable world_size : nat.
Variable scatter_reverse_add : nat -> nat -> float -> float.

(** The body of every loop "collect boundary conditions":
    when [space] contains the function space of [bc], then
    [bc->get_boundary_values(bv)], followed by [bc->gather(bv)] if
    [MPI::size(comm) > 1 and bc->method() != pointwise]. *)
Definition collect (comm_size : nat) (space : FunctionSpace)
    (bv : Map) (bc : DirichletBC) : Map :=
  if contains space (bc_function_space bc)
  then
    let bv1 := get_boundary_values bc bv in
    if (1 <? comm_size) && negb (is_pointwise (method bc))
    then gather bc bv1
    else bv1
  else bv.

Definition boundary_values (comm_size : nat) (space : FunctionSpace)
    (bcs : list DirichletBC) : Map :=
  fold_left (collect comm_size space) bcs ∅.

(** ** [Assembler::assemble(PETScMatrix& A, const Form& a, bcs)] *)

(** The boundary maps by axis, collected in one loop over [bcs]. *)
Definition boundary_values_by_axis (a : Form) (bcs : list DirichletBC)
    : Map * Map :=
  fold_left (fun bv bc =>
               (collect (mpi_comm_size (mesh a)) (function_space0 a) (fst bv) bc,
                collect (mpi_comm_size (mesh a)) (function_space1 a) (snd bv) bc))
            bcs (∅, ∅).

(** One iteration of the loop over cells: the call of [add_local]. *)
Definition assemble_cell (h : Handle) (a : Form) (bv : Map * Map) (c : nat)
    : MatOp :=
  let dmap0 := cell_dofs (dofmap (function_space0 a)) c in
  let dmap1 := cell_dofs (dofmap (function_space1 a)) c in
  let Ae := element_matrix a c (length dmap0) (length dmap1) in
  let Ae := zero_bc_rows (fst bv) dmap0 Ae in
  let Ae := zero_bc_cols (snd bv) dmap1 Ae in
  OpAddLocal h Ae dmap0 dmap1.

Definition assemble_form (h : Handle) (a : Form) (bcs : list DirichletBC)
    : list MatOp :=
  let bv := boundary_values_by_axis a bcs in
  map (assemble_cell h a bv) (seq 0 (num_cells (mesh a))).

(** ** [Assembler::assemble(PETScMatrix& A, BlockType block_type)] *)

Definition unit_block : Dense := [[1%float]].

(** "Place '1' on diagonal", as in the nested and the single branch: the
    map is collected with [MPI_COMM_WORLD], and every entry of it is
    written with [set_local]. *)
Definition diagonal_set (h : Handle) (a : Form) (bcs : list DirichletBC)
    : list MatOp :=
  if same_space (function_space0 a) (function_space1 a)
  then
    let bv := boundary_values world_size (function_space0 a) bcs in
    map (fun bc => OpSetLocal h unit_block [fst bc] [fst bc]) (map_to_list bv)
  else [].

(** "Place '1' on diagonal", as in the monolithic branch:
    [if (row < map0_size_owned) mat.add_local(&one, 1, &row, 1, &row);] *)
Definition diagonal_add (h : Handle) (a : Form) (bcs : list DirichletBC)
    (map0_size_owned : nat) : list MatOp :=
  if same_space (function_space0 a) (function_space1 a)
  then
    let bv := boundary_values world_size (function_space0 a) bcs in
    flat_map (fun bc =>
                if fst bc <? map0_size_owned
                then [OpAddLocal h unit_block [fst bc] [fst bc]]
                else [])
             (map_to_list bv)
  else [].

(** The nested branch, block [(i, j)]. *)
Definition nest_block (bcs : list DirichletBC) (i j : nat) (f : option Form)
    : list MatOp :=
  match f with
  | Some a =>
      let mat := NestSub i j in
      assemble_form mat a bcs ++ [OpApply mat FLUSH] ++ diagonal_set mat a bcs
  | None => []
  end.

Fixpoint nest_row (bcs : list DirichletBC) (i j : nat)
    (row : list (option Form)) : list MatOp :=
  match row with
  | [] => []
  | f :: row' => nest_block bcs i j f ++ nest_row bcs i (S j) row'
  end.

Fixpoint nest_rows (bcs : list DirichletBC) (i : nat)
    (a : list (list (option Form))) : list MatOp :=
  match a with
  | [] => []
  | row :: a' => nest_row bcs i 0 row ++ nest_rows bcs (S i) a'
  end.

(** [std::iota(index.begin(), index.end(), offset)] on [n] entries. *)
Definition iota (n : nat) (offset : Z) : list Z :=
  map (fun k => (offset + Z.of_nat k)%Z) (seq 0 n).

Definition map0 (a : Form) : IndexMap := index_map (dofmap (function_space0 a)).
Definition map1 (a : Form) : IndexMap := index_map (dofmap (function_space1 a)).

(** The monolithic branch, a non-null block at the running offsets. *)
Definition mono_block (bcs : list DirichletBC) (offset_row offset_col : Z)
    (a : Form) : list MatOp :=
  let map0_size_owned := size_owned (map0 a) in
  let map0_size := size_all (map0 a) in
  let map1_size := size_all (map1 a) in
  let index0 := iota map0_size offset_row in
  let index1 := iota map1_size offset_col in
  let is0 := {| is_bs := block_size (map0 a); is_idx := index0 |} in
  let is1 := {| is_bs := block_size (map1 a); is_idx := index1 |} in
  let mat := LocalSub is0 is1 in
  assemble_form mat a bcs ++ [OpApply mat FLUSH]
    ++ diagonal_add mat a bcs map0_size_owned ++ [OpRestore mat].

(** The view that [mono_block] addresses. *)
Definition view (offset_row offset_col : Z) (a : Form) : Handle :=
  LocalSub {| is_bs := block_size (map0 a);
              is_idx := iota (size_all (map0 a)) offset_row |}
           {| is_bs := block_size (map1 a);
              is_idx := iota (size_all (map1 a)) offset_col |}.

(** The loop over the columns of one row; a null block throws. *)
Fixpoint mono_row (bcs : list DirichletBC) (offset_row offset_col : Z)
    (row : list (option Form)) : list MatOp * Outcome :=
  match row with
  | [] => ([], Done)
  | Some a :: row' =>
      let ops := mono_block bcs offset_row offset_col a in
      let rest := mono_row bcs offset_row
                    (offset_col + Z.of_nat (size_all (map1 a)))%Z row' in
      (ops ++ fst rest, snd rest)
  | None :: _ => ([], Thrown NullBlock)
  end.

(** The loop over the rows; after a row, [offset_row] advances by the
    [ALL] size of the row space of [_a[i][0]]. *)
Fixpoint mono_rows (bcs : list DirichletBC) (offset_row : Z)
    (a : list (list (option Form))) : list MatOp * Outcome :=
  match a with
  | [] => ([], Done)
  | row :: a' =>
      match mono_row bcs offset_row 0%Z row with
      | (ops, Done) =>
          match row with
          | Some a0 :: _ =>
              let rest := mono_rows bcs
                            (offset_row + Z.of_nat (size_all (map0 a0)))%Z a' in
              (ops ++ fst rest, snd rest)
          | _ => (ops, Undefined)
          end
      | (ops, out) => (ops, out)
      end
  end.

(** The assembler object. *)
Record Assembler : Type := mk_Assembler {
  _a : list (list (option Form));
  _l : list (option Form);
  _bcs : list DirichletBC
}.

Definition block_matrix (asm : Assembler) : bool :=
  (1 <? length (_a asm)) || (1 <? length (hd [] (_a asm))).

Definition is_nested (b : BlockType) : bool :=
  match b with nested => true | monolithic => false end.

Definition is_monolithic (b : BlockType) : bool :=
  match b with monolithic => true | nested => false end.

(** [if (A.empty()) { ... }]: the constructor that is called. *)
Definition choose_constructor (asm : Assembler) (block_type : BlockType)
    : Constructor :=
  if is_nested block_type then init_nest_matrix
  else if block_matrix asm && is_monolithic block_type
       then init_monolithic_matrix
       else init_matrix.

(** [_a[0][0]]. *)
Definition first_block (asm : Assembler) : option Form :=
  match _a asm with
  | (Some a :: _) :: _ => Some a
  | _ => None
  end.

Definition is_matnest (t : MatType) : bool :=
  match t with MATNEST => true | MATAIJ => false end.

(** [if (A.empty()) { ... }] and [MatGetType]: the call of the
    constructor that initialises [A], and the storage kind of [A]
    afterwards.  What is evaluated before that call is the matter of
    [initialisation_defined] below. *)
Definition init_ops (asm : Assembler) (A : PETScMatrix)
    (block_type : BlockType) : list MatOp :=
  match A with
  | Some _ => []
  | None => [OpInit (choose_constructor asm block_type)]
  end.

Definition storage (asm : Assembler) (A : PETScMatrix)
    (block_type : BlockType) : MatType :=
  match A with
  | Some t => t
  | None => constructed_type (choose_constructor asm block_type)
  end.

(** The single branch: [_a[0][0]] alone. *)
Definition single_ops (bcs : list DirichletBC) (a : Form) : list MatOp :=
  assemble_form Whole a bcs ++ [OpApply Whole FLUSH]
    ++ diagonal_set Whole a bcs.

(** For an empty [A] the array [forms] is built with [_a.size()] rows of
    [_a[0].size()] entries and written at [forms[i][j]] for every
    [j < _a[i].size()]: no row may be longer than the first. *)
Definition forms_in_bounds (asm : Assembler) : bool :=
  forallb (fun row => length row <=? length (hd [] (_a asm))) (_a asm).

(** Is all that is evaluated for an empty [A] defined: the writes into
    [forms], and [*_a[0][0]], the argument of [init_matrix]? *)
Definition initialisation_defined (asm : Assembler) (A : PETScMatrix)
    (block_type : BlockType) : bool :=
  match A with
  | Some _ => true
  | None =>
      forms_in_bounds asm
      && match choose_constructor asm block_type with
         | init_matrix =>
             match first_block asm with Some _ => true | None => false end
         | _ => true
         end
  end.

(** From [MatGetType] on: the calls made on [A], in order, and how the
    call ends. *)
Definition matrix_branches (asm : Assembler) (A : PETScMatrix)
    (block_type : BlockType) : list MatOp * Outcome :=
  let bcs := _bcs asm in
  let init := init_ops asm A block_type in
  if is_matnest (storage asm A block_type)
  then (init ++ nest_rows bcs 0 (_a asm) ++ [OpApply Whole FINAL], Done)
  else if block_matrix asm
  then
    match mono_rows bcs 0%Z (_a asm) with
    | (ops, Done) =>
        (init ++ ops ++ [OpApply Whole FINAL] ++ [OpApply Whole FINAL], Done)
    | (ops, out) => (init ++ ops, out)
    end
  else
    match first_block asm with
    | Some a => (init ++ single_ops bcs a ++ [OpApply Whole FINAL], Done)
    | None => (init, Undefined)
    end.

(** The whole call.  [assert(!_a.empty())] comes first (with the
    assertion compiled out, [_a[0]] is read all the same); then, for an
    empty [A], the array [forms] is filled and the constructor is
    called. *)
Definition assemble_matrix (asm : Assembler) (A : PETScMatrix)
    (block_type : BlockType) : list MatOp * Outcome :=
  match _a asm with
  | [] => ([], Undefined)
  | _ :: _ =>
      if initialisation_defined asm A block_type
      then matrix_branches asm A block_type
      else ([], Undefined)
  end.

(** ** Vectors *)

(** A ghosted [Vec]: [array] is the local form (the owned entries, then
    the ghost entries), [local_size] is [VecGetLocalSize]. *)
Record Vec : Type := mk_Vec { local_size : nat; array : list float }.

Definition with_array (v : Vec) (arr : list float) : Vec :=
  {| local_size := local_size v; array := arr |}.

(** [la::PETScVector]: empty, of type [VECNEST], or one ghosted vector. *)
Inductive PETScVector : Type :=
| VecEmpty
| VecNest (subs : list Vec)
| VecGhost (v : Vec).

(** [b[k] += x]; [values[k] = x].  Outside the array the source is not
    defined; nothing is written there. *)
Definition add_entry (b : list float) (k : nat) (x : float) : list float :=
  alter (fun y => (y + x)%float) k b.

(** ** [Assembler::assemble(Eigen::Ref<EigenVectorXd> b, const Form& L)] *)

Definition assemble_cell_vector (L : Form) (b : list float) (c : nat)
    : list float :=
  let dmap := cell_dofs (dofmap (function_space0 L)) c in
  let be := element_vector L c (length dmap) in
  fold_left (fun b i =>
               match dmap !! i, be !! i with
               | Some k, Some x => add_entry b k x
               | _, _ => b
               end)
            (seq 0 (length dmap)) b.

Definition assemble_linear (b : list float) (L : Form) : list float :=
  fold_left (assemble_cell_vector L) (seq 0 (num_cells (mesh L))) b.

(** ** [Assembler::set_bc]

    [b] is an [Eigen::Map] of [size] entries that starts at [offset] in
    [values]. *)
Definition set_bc (offset size : nat) (values : list float) (L : Form)
    (bcs : list DirichletBC) : list float :=
  let bv := boundary_values (mpi_comm_size (mesh L)) (function_space0 L) bcs in
  fold_left (fun vals bc =>
               if fst bc <? size
               then <[offset + fst bc := snd bc]> vals
               else vals)
            (map_to_list bv) values.

(** [VecGhostUpdateBegin/End(v, ADD_VALUES, SCATTER_REVERSE)] on vector
    number [i]: owned entries receive what the other ranks hold for
    them. *)
Definition ghost_update (i : nat) (v : Vec) : Vec :=
  with_array v
    (imap (fun k x => if k <? local_size v
                      then scatter_reverse_add i k x else x)
          (array v)).

(** ** [Assembler::assemble(PETScVector& b, BlockType block_type)] *)

(** The first loop: every block of [_l] must be non-null. *)
Fixpoint check_forms (l : list (option Form)) : option (list Form) :=
  match l with
  | [] => Some []
  | Some L :: l' =>
      match check_forms l' with
      | Some Ls => Some (L :: Ls)
      | None => None
      end
  | None :: _ => None
  end.

Definition owned (L : Form) : nat := size_owned (map0 L).
Definition ghosts (L : Form) : nat := size_ghosts (map0 L).

Definition sum_sizes (size : Form -> nat) (Ls : list Form) : nat :=
  fold_left (fun s L => s + size L) Ls 0.

(** Modelled from the spec: [init_nest], [init_monolithic] and
    [init_vector] are not part of the sources; they must give a zero
    vector laid out by the index maps of the blocks: "nested: per-block
    sub-container", otherwise one container whose blocks follow each
    other, "ghosts occupy trailing index ranges". *)
Definition zero_vec (n_owned n_ghosts : nat) : Vec :=
  {| local_size := n_owned; array := replicate (n_owned + n_ghosts) 0%float |}.

(** Modelled from the spec: [init_nest], one sub-vector per block. *)
Definition init_nest (Ls : list Form) : PETScVector :=
  VecNest (map (fun L => zero_vec (owned L) (ghosts L)) Ls).

(** Modelled from the spec: [init_monolithic], one vector for all blocks,
    the owned entries of the blocks first and their ghost entries after
    them. *)
Definition init_monolithic (Ls : list Form) : PETScVector :=
  VecGhost (zero_vec (sum_sizes owned Ls) (sum_sizes ghosts Ls)).

(** Modelled from the spec: [init_vector], the vector of a single form. *)
Definition init_vector (L : Form) : PETScVector :=
  VecGhost (zero_vec (owned L) (ghosts L)).

(** The nested branch, block [i]. *)
Definition nest_vector_block (Ls : list Form) (bcs : list DirichletBC)
    (subs : list Vec) (i : nat) : list Vec :=
  match Ls !! i, subs !! i with
  | Some L, Some sub_b =>
      let b1 := with_array sub_b (assemble_linear (array sub_b) L) in
      let b2 := ghost_update i b1 in
      let b3 := with_array b2 (set_bc 0 (local_size b2) (array b2) L bcs) in
      <[i := b3]> subs
  | _, _ => subs
  end.

(** [for (j = 0; j < n; ++j) values[dst + j] = b_vec[src + j];] *)
Definition copy_entries (b_vec : list float) (src dst n : nat)
    (values : list float) : list float :=
  fold_left (fun vals j =>
               match b_vec !! (src + j) with
               | Some x => <[dst + j := x]> vals
               | None => vals
               end)
            (seq 0 n) values.

(** The monolithic branch, first loop, block [i]. *)
Definition mono_vector_block (Ls : list Form) (values : list float) (i : nat)
    : list float :=
  match Ls !! i with
  | Some L =>
      let map_size0 := owned L in
      let map_size1 := ghosts L in
      let offset0 := sum_sizes owned (take i Ls) in
      let offset1 := sum_sizes owned Ls + sum_sizes ghosts (take i Ls) in
      let b_vec := assemble_linear (replicate (map_size0 + map_size1) 0%float) L in
      let values := copy_entries b_vec 0 offset0 map_size0 values in
      copy_entries b_vec map_size0 offset1 map_size1 values
  | None => values
  end.

(** The monolithic branch, second loop: [set_bc] block by block. *)
Definition mono_set_bc (bcs : list DirichletBC)
    (st : nat * list float) (L : Form) : nat * list float :=
  let '(offset, values) := st in
  let map_size0 := owned L in
  (offset + map_size0, set_bc offset map_size0 values L bcs).

Definition block_vector (asm : Assembler) : bool := 1 <? length (_l asm).

(** [if (b.empty()) { ... }]: the vector that the constructor gives. *)
Definition initialise_vector (asm : Assembler) (Ls : list Form)
    (block_type : BlockType) : PETScVector :=
  if is_nested block_type then init_nest Ls
  else if block_vector asm && is_monolithic block_type
       then init_monolithic Ls
       else match Ls with
            | L :: _ => init_vector L
            | [] => VecEmpty
            end.

(** From [VecGetType] on. *)
Definition vector_branches (asm : Assembler) (Ls : list Form)
    (b : PETScVector) : PETScVector * Outcome :=
  match b with
  | VecNest subs =>
      (VecNest (fold_left (nest_vector_block Ls (_bcs asm)) (seq 0 (length Ls)) subs),
       Done)
  | VecGhost v =>
      if block_vector asm
      then
        let values := fold_left (mono_vector_block Ls)
                        (seq 0 (length Ls)) (array v) in
        let v1 := ghost_update 0 (with_array v values) in
        let values := snd (fold_left (mono_set_bc (_bcs asm)) Ls (0, array v1)) in
        (VecGhost (with_array v1 values), Done)
      else
        match Ls with
        | L :: _ =>
            let v1 := with_array v (assemble_linear (array v) L) in
            let v2 := ghost_update 0 v1 in
            let map_size0 := owned L in
            (VecGhost (with_array v2 (set_bc 0 map_size0 (array v2) L (_bcs asm))),
             Done)
        | [] => (b, Undefined)
        end
  | VecEmpty => (b, Undefined)
  end.

(** The whole call.  [assert(!_l.empty())] comes first, then the loop
    that throws for a null block; for an empty [b] the array
    [forms(_a.size())] is written at [forms[i]] for every
    [i < _l.size()], so [_l] may not be longer than [_a]. *)
Definition assemble_vector (asm : Assembler) (b : PETScVector)
    (block_type : BlockType) : PETScVector * Outcome :=
  match _l asm with
  | [] => (b, Undefined)
  | _ :: _ =>
      match check_forms (_l asm) with
      | None => (b, Thrown NullLinearForm)
      | Some Ls =>
          match b with
          | VecEmpty =>
              if length (_l asm) <=? length (_a asm)
              then vector_branches asm Ls (initialise_vector asm Ls block_type)
              else (b, Undefined)
          | _ => vector_branches asm Ls b
          end
      end
  end.

(** ** [Assembler::apply_bc(PETScVector& b, const Form& a, bcs)]

    [b] is seen through the calls made on it. *)
Inductive VecOp : Type :=
| VOpAddLocal (block : list float) (rows : list nat)
| VOpApply.

(** "Check if bc is applied to cell". *)
Definition cell_has_bc (bv : Map) (dmap1 : list nat) : bool :=
  existsb (has_key bv) dmap1.

(** [Ae.col(j)]. *)
Definition col (Ae : Dense) (j : nat) : list float :=
  omap (fun row => row !! j) Ae.

(** [be -= Ae.col(j) * g]. *)
Definition subtract_column (be : list float) (Ae : Dense) (j : nat) (g : float)
    : list float :=
  zip_with (fun b x => (b - x * g)%float) be (col Ae j).

Definition eliminate (bv : Map) (dmap1 : list nat) (Ae : Dense)
    (be : list float) : list float :=
  fold_left (fun be j =>
               match dmap1 !! j with
               | Some jj =>
                   match bv !! jj with
                   | Some g => subtract_column be Ae j g
                   | None => be
                   end
               | None => be
               end)
            (seq 0 (length dmap1)) be.

(** One iteration of the loop over cells.  Both [dmap0] and [dmap1] are
    read from [dofmap1], as in the source. *)
Definition apply_bc_cell (a : Form) (bv : Map) (c : nat) : list VecOp :=
  let dofmap1 := dofmap (function_space1 a) in
  let dmap1 := cell_dofs dofmap1 c in
  if negb (cell_has_bc bv dmap1) then []
  else
    let dmap0 := cell_dofs dofmap1 c in
    let Ae := element_matrix a c (length dmap0) (length dmap1) in
    let be := replicate (length dmap0) 0%float in
    let be := eliminate bv dmap1 Ae be in
    [VOpAddLocal be dmap0].

Definition apply_bc (a : Form) (bcs : list DirichletBC) : list VecOp :=
  let bv := boundary_values (mpi_comm_size (mesh a)) (function_space1 a) bcs in
  flat_map (apply_bc_cell a bv) (seq 0 (num_cells (mesh a))) ++ [VOpApply].

(** ** Reading the results *)

(** The pairs that the loop "collect boundary conditions" merges into
    the map of [space], in the order of the writes. *)
Definition collected_values (comm_size : nat) (space : FunctionSpace)
    (bc : DirichletBC) : list (nat * float) :=
  if contains space (bc_function_space bc)
  then local_values bc
         ++ (if (1 <? comm_size) && negb (is_pointwise (method bc))
             then remote_values bc else [])
  else [].

Definition prescriptions (comm_size : nat) (space : FunctionSpace)
    (bcs : list DirichletBC) : list (nat * float) :=
  flat_map (collected_values comm_size space) bcs.

(** Entry [d] of block [i] of an assembled vector. *)
Definition block_entry (Ls : list Form) (b : PETScVector) (i d : nat)
    : option float :=
  match b with
  | VecEmpty => None
  | VecNest subs =>
      match subs !! i with
      | Some sub_b => array sub_b !! d
      | None => None
      end
  | VecGhost v => array v !! (sum_sizes owned (take i Ls) + d)
  end.

(** A vector that was laid out for the forms [Ls]. *)
Definition well_sized (Ls : list Form) (b : PETScVector) : Prop :=
  match b with
  | VecEmpty => True
  | VecNest subs =>
      Forall2 (fun L sub_b => local_size sub_b = owned L /\
                              local_size sub_b <= length (array sub_b))
              Ls subs
  | VecGhost v => sum_sizes owned Ls <= length (array v)
  end.

(** Offsets of block [(i, j)] as sums over the preceding blocks, for a
    choice [size] of the size of an index map: of row [i] from the row
    spaces of [_a[k][0]], [k < i]; of column [j] from the column spaces
    of [_a[i][l]], [l < j]. *)
Definition row_size (size : IndexMap -> nat) (row : list (option Form)) : nat :=
  match row with
  | Some a0 :: _ => size (map0 a0)
  | _ => 0
  end.

Definition col_size (size : IndexMap -> nat) (f : option Form) : nat :=
  match f with
  | Some a => size (map1 a)
  | None => 0
  end.

Definition row_offset (size : IndexMap -> nat) (a : list (list (option Form)))
    (i : nat) : Z :=
  Z.of_nat (sum_list (row_size size <$> take i a)).

Definition col_offset (size : IndexMap -> nat) (row : list (option Form))
    (j : nat) : Z :=
  Z.of_nat (sum_list (col_size size <$> take j row)).

(** The calls for every block [(i, j)] are made with the offsets that
    [size] gives. *)
Definition blocks_at_offsets (size : IndexMap -> nat) (bcs : list DirichletBC)
    (a : list (list (option Form))) (ops : list MatOp) : Prop :=
  forall i j row f,
    a !! i = Some row -> row !! j = Some (Some f) ->
    exists pre post,
      ops = pre ++ mono_block bcs (row_offset size a i) (col_offset size row j) f
                ++ post.

End Env.

(** ** The discipline of the insertion calls *)

Inductive Style : Type := AddStyle | SetStyle.

#[global] Instance IS_eq_dec : EqDecision IS.
Proof. solve_decision. Defined.

#[global] Instance Handle_eq_dec : EqDecision Handle.
Proof. solve_decision. Defined.

(** The style of the insertions that are pending (not yet flushed) on
    every handle. *)
Definition set_pending (p : Handle -> option Style) (h : Handle)
    (s : option Style) : Handle -> option Style :=
  fun h' => if decide (h' = h) then s else p h'.

(** Runs over the calls; [None] when an [add_local] meets pending
    [set_local] calls on its handle, or the other way round. *)
Fixpoint check (p : Handle -> option Style) (ops : list MatOp)
    : option (Handle -> option Style) :=
  match ops with
  | [] => Some p
  | OpAddLocal h _ _ _ :: ops' =>
      match p h with
      | Some SetStyle => None
      | _ => check (set_pending p h (Some AddStyle)) ops'
      end
  | OpSetLocal h _ _ _ :: ops' =>
      match p h with
      | Some AddStyle => None
      | _ => check (set_pending p h (Some SetStyle)) ops'
      end
  | OpApply h _ :: ops' => check (set_pending p h None) ops'
  | _ :: ops' => check p ops'
  end.

(** The matrix and the style of an insertion call. *)
Definition style_of (op : MatOp) : option (Handle * Style) :=
  match op with
  | OpAddLocal h _ _ _ => Some (h, AddStyle)
  | OpSetLocal h _ _ _ => Some (h, SetStyle)
  | _ => None
  end.

(** Between two insertion calls of different style on one matrix there
    is a synchronisation of that matrix. *)
Definition separated (ops : list MatOp) : Prop :=
  forall pre x mid y post h s1 s2,
    ops = pre ++ x :: mid ++ y :: post ->
    style_of x = Some (h, s1) -> style_of y = Some (h, s2) -> s1 <> s2 ->
    exists t, OpApply h t ∈ mid.

Definition nothing_pending : Handle -> option Style := fun _ => None.

Definition flush_separated (ops : list MatOp) : bool :=
  match check nothing_pending ops with Some _ => true | None => false end.

Definition is_add_on (h : Handle) (op : MatOp) : Prop :=
  match op with OpAddLocal h' _ _ _ => h' = h | _ => False end.

Definition is_set_on (h : Handle) (op : MatOp) : Prop :=
  match op with OpSetLocal h' _ _ _ => h' = h | _ => False end.

Definition is_set (op : MatOp) : bool :=
  match op with OpSetLocal _ _ _ _ => true | _ => false end.

(** In [ops], the calls [adds] on [h] are followed by a flush of [h] and
    then by the calls [diag]. *)
Definition flushed_between (ops adds : list MatOp) (h : Handle)
    (diag : list MatOp) : Prop :=
  exists pre post, ops = pre ++ adds ++ OpApply h FLUSH :: diag ++ post.

Definition is_final (op : MatOp) : bool :=
  match op with OpApply _ FINAL => true | _ => false end.

Definition count_final (ops : list MatOp) : nat :=
  length (List.filter is_final ops).


Definition handle_of (op : MatOp) : option Handle :=
  match op with
  | OpInit _ => None
  | OpAddLocal h _ _ _ | OpSetLocal h _ _ _ | OpApply h _ | OpRestore h => Some h
  end.

(** ** Example data *)

(** The two cells of an interval mesh that one rank of two holds; linear
    elements with dofs [0, 1, 2], or discontinuous ones with dofs
    [0 .. 3]. *)
Definition interval2 : Mesh := {| num_cells := 2; mpi_comm_size := 2 |}.

Definition P1 (id n_owned n_ghosts : nat) : FunctionSpace :=
  {| fs_id := id;
     dofmap := {| cell_dofs := fun c => [c; S c];
                  index_map := {| size_owned := n_owned;
                                  size_ghosts := n_ghosts;
                                  block_size := 1 |} |} |}.

Definition DG1 (id : nat) : FunctionSpace :=
  {| fs_id := id;
     dofmap := {| cell_dofs := fun c => [2 * c; 2 * c + 1];
                  index_map := {| size_owned := 4; size_ghosts := 0;
                                  block_size := 1 |} |} |}.

(** The element stiffness matrix [[1, -1], [-1, 1]] of every cell. *)
Definition stiffness (c k : nat) : float :=
  match k with 0 | 3 => 1%float | _ => (-1)%float end.

(** The element load vector [[1, 1]] of every cell. *)
Definition load (c k : nat) : float := 1%float.

(** The last dof of [V] is a ghost: it belongs to the next rank. *)
Definition V : FunctionSpace := P1 0 2 1.
Definition W : FunctionSpace := DG1 1.

Definition a_VV : Form :=
  {| mesh := interval2; function_space0 := V; function_space1 := V;
     tabulate_tensor := stiffness |}.

Definition a_VW : Form :=
  {| mesh := interval2; function_space0 := V; function_space1 := W;
     tabulate_tensor := stiffness |}.

Definition L_V : Form :=
  {| mesh := interval2; function_space0 := V; function_space1 := V;
     tabulate_tensor := load |}.

Definition bc_left : DirichletBC :=
  {| bc_function_space := V; method := topological;
     local_values := [(0, 3%float)]; remote_values := [] |}.

Definition bc_left_again : DirichletBC :=
  {| bc_function_space := V; method := topological;
     local_values := [(0, 4%float)]; remote_values := [] |}.

Definition bc_ghost : DirichletBC :=
  {| bc_function_space := V; method := topological;
     local_values := [(2, 5%float)]; remote_values := [] |}.

Definition bc_W : DirichletBC :=
  {| bc_function_space := W; method := topological;
     local_values := [(3, 5%float)]; remote_values := [] |}.

Definition asm_single : Assembler :=
  {| _a := [[Some a_VV]]; _l := [Some L_V]; _bcs := [bc_left; bc_ghost] |}.

Definition asm_square : Assembler :=
  {| _a := [[Some a_VV; Some a_VV]; [Some a_VV; Some a_VV]];
     _l := [Some L_V; Some L_V]; _bcs := [bc_left; bc_left_again] |}.

(** Two fields without coupling: the off-diagonal blocks are null, and
    so is the second linear form. *)
Definition asm_null : Assembler :=
  {| _a := [[Some a_VV; None]; [None; Some a_VV]]; _l := [Some L_V; None];
     _bcs := [bc_left] |}.

(** Every owned entry receives [1] from the other ranks. *)
Definition receive_one (i k : nat) (x : float) : float := (x + 1)%float.

End Assembler.

(* ===================================================================== *)
(** * Assembler: reading the element loops                                *)
(* ===================================================================== *)

Module AssemblerReading.
Import Assembler.
Local Open Scope nat_scope.

(** Is local row [i] (column [j]) of a cell one of a boundary dof? *)
Definition local_bc (bv : Map) (dmap : list nat) (i : nat) : bool :=
  match dmap !! i with
  | Some ii => has_key bv ii
  | None => false
  end.

(** Every dof of every cell of [L] is an index of an array of [n]
    entries: the loop of [assemble(Eigen::Ref<EigenVectorXd> b, ..)]
    writes [b[dmap[i]]] without a check. *)
Definition dofs_within (L : Form) (n : nat) : Prop :=
  forall c, c < num_cells (mesh L) ->
            Forall (fun d => d < n) (cell_dofs (dofmap (function_space0 L)) c).

(** The arrays of [b] have room for what the vector assembly of the
    blocks [Ls] writes: the element loops stay within the array they
    write to, and the merged array holds the owned and the ghost
    segments of all blocks. *)
Definition fits (Ls : list Form) (b : PETScVector) : Prop :=
  match b with
  | VecEmpty => Forall (fun L => dofs_within L (owned L + ghosts L)) Ls
  | VecNest subs =>
      Forall2 (fun L sub_b => dofs_within L (length (array sub_b))) Ls subs
  | VecGhost v =>
      match Ls with
      | [L] => dofs_within L (length (array v))
      | _ =>
          Forall (fun L => dofs_within L (owned L + ghosts L)) Ls /\
          sum_sizes owned Ls + sum_sizes ghosts Ls <= length (array v)
      end
  end.

(** The element values that the loop of
    [assemble(Eigen::Ref<EigenVectorXd> b, const Form& L)] adds to entry
    [k], in the order of the loop: cell by cell, and within a cell by
    local index. *)
Definition cell_contributions (L : Form) (k c : nat) : list float :=
  let dmap := cell_dofs (dofmap (function_space0 L)) c in
  flat_map (fun i =>
              match dmap !! i with
              | Some k' => if k' =? k then [tabulate_tensor L c i] else []
              | None => []
              end)
           (seq 0 (length dmap)).

Definition contributions (L : Form) (k : nat) : list float :=
  flat_map (cell_contributions L k) (seq 0 (num_cells (mesh L))).

Definition add_all (x : float) (ys : list float) : float :=
  fold_left (fun x y => (x + y)%float) ys x.

(** Entry [i] of the element vector of [apply_bc] after the columns of
    the prescribed dofs have been subtracted, one after the other;
    [A i j] is entry [(i, j)] of the element matrix. *)
Definition eliminated_entry (bv : Map) (dmap1 : list nat)
    (A : nat -> nat -> float) (i : nat) (x : float) : float :=
  fold_left (fun x j =>
               match dmap1 !! j with
               | Some jj =>
                   match bv !! jj with
                   | Some g => (x - A i j * g)%float
                   | None => x
                   end
               | None => x
               end)
            (seq 0 (length dmap1)) x.

(** [adds] are the insertions of the cells of [a] into [h]: one
    [add_local] per cell, in the order of the mesh, at the cell dofs of
    the two spaces.  The block holds the values of the kernel, but zero
    in the rows of the dofs that [bv0] holds and in the columns of the
    dofs that [bv1] holds. *)
Definition cell_insertions (bv0 bv1 : Map) (h : Handle) (a : Form)
    (adds : list MatOp) : Prop :=
  length adds = num_cells (mesh a) /\
  forall c, c < num_cells (mesh a) ->
    let dmap0 := cell_dofs (dofmap (function_space0 a)) c in
    let dmap1 := cell_dofs (dofmap (function_space1 a)) c in
    exists Ae,
      adds !! c = Some (OpAddLocal h Ae dmap0 dmap1) /\
      shaped Ae (length dmap0) (length dmap1) /\
      forall i j ii jj,
        dmap0 !! i = Some ii -> dmap1 !! j = Some jj ->
        entry Ae i j
        = Some (if has_key bv0 ii || has_key bv1 jj then 0%float
                else tabulate_tensor a c (i * length dmap1 + j)).

(** [VecGetLocalSize] of a given ghosted vector for all blocks is the
    number of the owned entries of the blocks. *)
Definition local_is_owned (Ls : list Form) (b : PETScVector) : Prop :=
  match b with
  | VecGhost v => local_size v = sum_sizes owned Ls
  | _ => True
  end.

(** Where block [i] of an assembled vector keeps its entry [d]: the
    number of the ghosted vector (sub-vector [i] of a nested vector) and
    the index in the local form of that vector. *)
Definition vector_number (b : PETScVector) (i : nat) : nat :=
  match b with
  | VecNest _ => i
  | _ => 0
  end.

Definition position (Ls : list Form) (b : PETScVector) (i d : nat) : nat :=
  match b with
  | VecNest _ => d
  | _ => sum_sizes owned (take i Ls) + d
  end.

(** The value to which the element loop of block [i] adds at entry [d],
    for the vector [b] that was given and the vector [b'] that is left.
    Under nested and single storage it is the entry of [b] (zero for an
    empty [b], which is initialised to zero); under merged storage it is
    zero, as the block is assembled into a fresh array that is then
    copied over the entries of the vector. *)
Definition start_value (Ls : list Form) (b b' : PETScVector) (i d : nat)
    : float :=
  match b' with
  | VecGhost _ =>
      if 1 <? length Ls then 0%float
      else default 0%float (block_entry Ls b i d)
  | _ => default 0%float (block_entry Ls b i d)
  end.

(** The entries that block [i'] writes: its owned segment and its ghost
    segment. *)
Definition written_by (Ls : list Form) (i' idx : nat) : Prop :=
  exists L', Ls !! i' = Some L' /\
    (sum_sizes owned (take i' Ls) <= idx
       < sum_sizes owned (take i' Ls) + owned L' \/
     sum_sizes owned Ls + sum_sizes ghosts (take i' Ls) <= idx
       < sum_sizes owned Ls + sum_sizes ghosts (take i' Ls) + ghosts L').

End AssemblerReading.

(* ===================================================================== *)
(** * MultiPointConstraint: the accessors and the arrays they read        *)
(* ===================================================================== *)

Module MultiPointConstraintAccess.
Import MultiPointConstraint.

(** How a call of an accessor ends: with a value, with a failed [assert],
    or with a read outside a [std::vector], which the source does not
    define. *)
Inductive Result (A : Type) : Type :=
| Returned (a : A)
| AssertionFailed
| OutOfRange.

Arguments Returned {A} a.
Arguments AssertionFailed {A}.
Arguments OutOfRange {A}.

(** [v[k]] for a [std::int64_t] index [k]. *)
Definition at_index {A : Type} (v : list A) (k : Z) : option A :=
  if k <? 0 then None else v !! Z.to_nat k.

(** [for (std::int64_t j = lo; j < hi; j++) out.push_back(v[j]);] *)
Definition gather_range {A : Type} (v : list A) (lo hi : Z) : option (list A) :=
  mapM (at_index v) ((fun k => lo + Z.of_nat k) <$> seq 0 (Z.to_nat (hi - lo))).

(** [MultiPointConstraint::masters(i)].  The assertion compares the
    [std::int64_t] index with the 32-bit [unsigned] size of [_masters];
    it is checked unless the build defines [NDEBUG].  The line that
    prints to [std::cout] is left out. *)
Definition masters (NDEBUG : bool) (m : mpc) (i : Z) : Result (list Z) :=
  if NDEBUG || (i <? unsigned (Z.of_nat (length (_masters m))))
  then
    match at_index (_offsets m) i, at_index (_offsets m) (i + 1) with
    | Some lo, Some hi =>
        match gather_range (_masters m) lo hi with
        | Some owners => Returned owners
        | None => OutOfRange
        end
    | _, _ => OutOfRange
    end
  else AssertionFailed.

(** [MultiPointConstraint::coefficients(i)]. *)
Definition coefficients (NDEBUG : bool) (m : mpc) (i : Z) : Result (list float) :=
  if NDEBUG || (i <? unsigned (Z.of_nat (length (_coefficients m))))
  then
    match at_index (_offsets m) i, at_index (_offsets m) (i + 1) with
    | Some lo, Some hi =>
        match gather_range (_coefficients m) lo hi with
        | Some coeffs => Returned coeffs
        | None => OutOfRange
        end
    | _, _ => OutOfRange
    end
  else AssertionFailed.

(** [slave_cells()], [slaves()], [masters_and_coefficients()] and
    [master_offsets()] return copies of the members. *)
Definition slave_cells (m : mpc) : list Z := _slave_cells m.
Definition slaves (m : mpc) : list Z := _slaves m.
Definition masters_and_coefficients (m : mpc) : list Z * list float :=
  (_masters m, _coefficients m).
Definition master_offsets (m : mpc) : list Z := _offsets m.

(** Reading the arrays: the slice [v[lo .. hi - 1]]. *)
Definition slice {A : Type} (v : list A) (lo hi : Z) : list A :=
  take (Z.to_nat (hi - lo)) (drop (Z.to_nat lo) v).

(** Offsets that delimit the rows of a flat array: they start at zero,
    do not decrease, and end at the length of the array. *)
Definition delimits {A : Type} (offsets : list Z) (v : list A) : Prop :=
  offsets !! 0%nat = Some 0 /\
  (forall i x y, offsets !! i = Some x -> offsets !! S i = Some y -> x <= y) /\
  last offsets = Some (Z.of_nat (length v)).

(** The offsets that the loop over the cells appends after the rows
    [rows], from the running counter [j]. *)
Fixpoint offsets_from (j : Z) (rows : list (list Z)) : list Z :=
  match rows with
  | [] => []
  | row :: rows' =>
      (j + Z.of_nat (length row)) :: offsets_from (j + Z.of_nat (length row)) rows'
  end.

(** The rows that the cells of [cells] which touch a slave add to the
    cell-to-slave array. *)
Definition rows_of (slaves : list Z) (cells : list (nat * list Z))
    : list (list Z) :=
  (fun c => hits slaves (snd c))
    <$> filter (fun c => touched slaves (snd c) = true) cells.

(** The search in [generate_sparsity_pattern] for the index of a slave
    dof: [slave_index] starts at zero and takes every [counter] with
    [_slaves[counter] == slave_dof]. *)
Definition slave_index_of (slaves : list Z) (slave_dof : Z) : Z :=
  fold_left (fun slave_index cs =>
               if snd cs =? slave_dof then Z.of_nat (fst cs) else slave_index)
            (imap (fun counter s => (counter, s)) slaves) 0.

Definition increasing (l : list Z) : Prop :=
  forall p q x y, (p < q)%nat -> l !! p = Some x -> l !! q = Some y -> x < y.

(** Example data: three slaves with one, two and one master. *)
Definition constrained : mpc :=
  construct interval3 [1; 2; 3] [0; 0; 1; 2] [1%float; 2%float; 3%float; 4%float]
            [0; 1; 3; 4].

End MultiPointConstraintAccess.

(* ===================================================================== *)
(** * The managers of the sub-systems                                     *)
(* ===================================================================== *)

(** The calls that are made on the libraries, in order; what MPI and
    PETSc answer to a query is a function of the calls made so far. *)
Module Libraries.

Inductive Call : Type :=
| MPI_Init
| MPI_Init_thread (required : Z)
| MPI_Finalize
| PetscInitialize
| PetscFinalize
| SlepcInitialize
| SlepcFinalize.

#[global] Instance Call_eq_dec : EqDecision Call.
Proof. solve_decision. Defined.

Definition occurrences (c : Call) (calls : list Call) : nat :=
  length (filter (fun x => x = c) calls).

Definition is_init_thread (c : Call) : bool :=
  match c with MPI_Init_thread _ => true | _ => false end.

End Libraries.

(** [dolfin/main/SubSystemsManager.cpp], the class with the two flags. *)
Module SubSystemsManager.
Import Libraries.

(** What is written to [std::cout] and to the log. *)
Inductive Output : Type :=
| cout_status_initMPI (status : bool)
| cout_status_initPETSc (status : bool)
| message_ignoring_arguments
| message_given_arguments.

Record world : Type := mk_world {
  petsc_initialized : bool;
  control_mpi : bool;
  calls : list Call;
  output : list Output
}.

(** [error(..)] ends the call. *)
Inductive result : Type := Ok (w : world) | Error.

(** The constructor. *)
Definition constructed : world :=
  {| petsc_initialized := false; control_mpi := false; calls := []; output := [] |}.

Definition call (c : Call) (w : world) : world :=
  {| petsc_initialized := petsc_initialized w; control_mpi := control_mpi w;
     calls := calls w ++ [c]; output := output w |}.

Definition print (o : Output) (w : world) : world :=
  {| petsc_initialized := petsc_initialized w; control_mpi := control_mpi w;
     calls := calls w; output := output w ++ [o] |}.

Definition set_control_mpi (b : bool) (w : world) : world :=
  {| petsc_initialized := petsc_initialized w; control_mpi := b;
     calls := calls w; output := output w |}.

Definition set_petsc_initialized (b : bool) (w : world) : world :=
  {| petsc_initialized := b; control_mpi := control_mpi w;
     calls := calls w; output := output w |}.

Section Env.

(** The configuration, and the answer of [MPI::Is_initialized()] after
    the calls made so far. *)
Variable HAS_MPI HAS_PETSC HAS_SLEPC : bool.
Variable Is_initialized : list Call -> bool.

Definition initMPI (w : world) : world :=
  if HAS_MPI
  then
    let w := print (cout_status_initMPI (Is_initialized (calls w))) w in
    if Is_initialized (calls w) then w
    else set_control_mpi true (call MPI_Init w)
  else w.

Definition initPETSc_args (cmd_line_args : bool) (w : world) : result :=
  if HAS_PETSC
  then
    if petsc_initialized w then Ok w
    else
      let w := print (cout_status_initPETSc (Is_initialized (calls w))) w in
      let mpi_init_status := Is_initialized (calls w) in
      let w := if cmd_line_args then print message_given_arguments w else w in
      let w := call PetscInitialize w in
      let w := if HAS_SLEPC then call SlepcInitialize w else w in
      let w := set_petsc_initialized true w in
      Ok (if Is_initialized (calls w) && negb mpi_init_status
          then set_control_mpi false w else w)
  else Error.

Definition initPETSc (w : world) : result :=
  if HAS_PETSC
  then
    if petsc_initialized w then Ok w
    else initPETSc_args false (print message_ignoring_arguments w)
  else Error.

Definition finalizeMPI (w : world) : world :=
  if HAS_MPI
  then
    if Is_initialized (calls w) && control_mpi w then call MPI_Finalize w else w
  else w.

Definition finalizePETSc (w : world) : world :=
  if HAS_PETSC
  then
    if petsc_initialized w
    then
      let w := call PetscFinalize w in
      if HAS_SLEPC then call SlepcFinalize w else w
    else w
  else w.

(** The destructor: "Finalize subsystems in the correct order". *)
Definition destruct_manager (w : world) : world :=
  finalizeMPI (finalizePETSc w).

(** The static functions of the class, and runs of them on the one
    static object. *)
Inductive Op : Type :=
| op_initMPI
| op_initPETSc
| op_initPETSc_args (cmd_line_args : bool)
| op_finalizeMPI
| op_finalizePETSc.

Definition step (w : world) (op : Op) : result :=
  match op with
  | op_initMPI => Ok (initMPI w)
  | op_initPETSc => initPETSc w
  | op_initPETSc_args c => initPETSc_args c w
  | op_finalizeMPI => Ok (finalizeMPI w)
  | op_finalizePETSc => Ok (finalizePETSc w)
  end.

Fixpoint run (ops : list Op) (w : world) : result :=
  match ops with
  | [] => Ok w
  | op :: ops' =>
      match step w op with
      | Ok w' => run ops' w'
      | Error => Error
      end
  end.

End Env.

(** Invariants of the runs: [PetscInitialize] is called at most once,
    and not at all while the flag is unset; the manager is responsible
    for MPI only after its own call of [MPI::Init], and [MPI::Finalize]
    is only called after that call. *)
Definition petsc_once (w : world) : Prop :=
  (petsc_initialized w = false -> occurrences PetscInitialize (calls w) = 0%nat) /\
  (occurrences PetscInitialize (calls w) <= 1)%nat.

Definition mpi_controlled (w : world) : Prop :=
  (control_mpi w = true -> MPI_Init ∈ calls w) /\
  (forall pre post, calls w = pre ++ MPI_Finalize :: post -> MPI_Init ∈ pre).

(** An MPI library for the examples: initialised once [MPI::Init] or
    [PetscInitialize] has been called. *)
Definition initialised_by_calls (calls : list Call) : bool :=
  existsb (fun c => match c with
                    | MPI_Init | PetscInitialize => true
                    | _ => false
                    end) calls.

End SubSystemsManager.

(** [cpp/dolfinx/common/SubSystemsManager.cpp], the namespace of free
    functions. *)
Module SubSystemsManagerX.
Import Libraries.

Inductive Output : Type :=
| log_info_arguments
| cout_finalized_elsewhere
| cout_third_party_bug.

Record world : Type := mk_world {
  calls : list Call;
  output : list Output
}.

Definition call (c : Call) (w : world) : world :=
  {| calls := calls w ++ [c]; output := output w |}.

Definition print (o : Output) (w : world) : world :=
  {| calls := calls w; output := output w ++ [o] |}.

Section Env.

(** The configuration, and the answers of [MPI_Initialized],
    [MPI_Finalized] and [PetscInitialized] after the calls made so far;
    [provided] is what [MPI_Init_thread] stores in its last argument,
    [MPI_THREAD_MULTIPLE] the constant of the MPI library. *)
Variable HAS_SLEPC : bool.
Variable MPI_Initialized MPI_Finalized PetscInitialized : list Call -> bool.
Variable provided : list Call -> Z -> Z.
Variable MPI_THREAD_MULTIPLE : Z.

(** [int init_mpi(int argc, char* argv[], int required_thread_level)] *)
Definition init_mpi_args (required_thread_level : Z) (w : world) : world * Z :=
  if MPI_Initialized (calls w) then (w, -100)
  else (call (MPI_Init_thread required_thread_level) w,
        provided (calls w) required_thread_level).

(** [void init_mpi()] *)
Definition init_mpi (w : world) : world :=
  if MPI_Initialized (calls w) then w
  else fst (init_mpi_args MPI_THREAD_MULTIPLE w).

(** [void init_petsc(int argc, char* argv[])] *)
Definition init_petsc_args (argc : Z) (w : world) : world :=
  let w := if 1 <? argc then print log_info_arguments w else w in
  let w := if negb (PetscInitialized (calls w)) then call PetscInitialize w else w in
  if HAS_SLEPC then call SlepcInitialize w else w.

(** [void init_petsc()] *)
Definition init_petsc (w : world) : world := init_petsc_args 0 w.

Definition finalize_mpi (w : world) : world :=
  if MPI_Initialized (calls w)
  then
    if negb (MPI_Finalized (calls w)) then call MPI_Finalize w
    else print cout_third_party_bug (print cout_finalized_elsewhere w)
  else w.

Definition finalize_petsc (w : world) : world :=
  let w := call PetscFinalize w in
  if HAS_SLEPC then call SlepcFinalize w else w.

Definition mpi_initialized (w : world) : bool := MPI_Initialized (calls w).
Definition mpi_finalized (w : world) : bool := MPI_Finalized (calls w).

Inductive Op : Type :=
| op_init_mpi
| op_init_mpi_args (required_thread_level : Z)
| op_init_petsc
| op_init_petsc_args (argc : Z)
| op_finalize_mpi
| op_finalize_petsc.

Definition step (w : world) (op : Op) : world :=
  match op with
  | op_init_mpi => init_mpi w
  | op_init_mpi_args l => fst (init_mpi_args l w)
  | op_init_petsc => init_petsc w
  | op_init_petsc_args argc => init_petsc_args argc w
  | op_finalize_mpi => finalize_mpi w
  | op_finalize_petsc => finalize_petsc w
  end.

Definition run (ops : list Op) (w : world) : world := fold_left step ops w.

(** The test under which a call is made, on the calls [pre] before it. *)
Definition guarded (pre : list Call) (c : Call) : Prop :=
  match c with
  | MPI_Init_thread _ => MPI_Initialized pre = false
  | MPI_Finalize => MPI_Initialized pre = true /\ MPI_Finalized pre = false
  | PetscInitialize => PetscInitialized pre = false
  | _ => True
  end.

Definition all_guarded (w : world) : Prop :=
  forall pre c post, calls w = pre ++ c :: post -> guarded pre c.

End Env.

Definition started : world := {| calls := []; output := [] |}.

(** Libraries for the examples, as the comments of the source describe
    them: MPI is initialised once it "has been called at any point, even
    if MPI_Finalize has been called". *)
Definition initialised_after (calls : list Call) : bool :=
  existsb is_init_thread calls.

Definition finalised_after (calls : list Call) : bool :=
  existsb (fun c => match c with MPI_Finalize => true | _ => false end) calls.

Definition petsc_initialised_after (calls : list Call) : bool :=
  existsb (fun c => match c with PetscInitialize => true | _ => false end) calls.

(** A PETSc that reports itself not initialised again once
    [PetscFinalize] has been called. *)
Definition petsc_initialised_now (calls : list Call) : bool :=
  fold_left (fun b c =>
               match c with
               | PetscInitialize => true
               | PetscFinalize => false
               | _ => b
               end)
            calls false.

End SubSystemsManagerX.

(* ===================================================================== *)
(** * Properties of the deprecation sentinel                              *)
(* ===================================================================== *)

Module NonlinearProblemProofs.
Import NonlinearProblem.

Section Sentinel.
Context {U Args : Type}.
Implicit Types (impl : form3_impl U Args) (o : object U)
  (c : call Args) (cs : list (call Args)) (args : Args).

Lemma form3_called impl args o :
  _called (form3 impl args o)
  = _called o || runs_base impl (CallForm3 args) o.
Proof.
  destruct impl as [|body]; simpl.
  - now rewrite orb_true_r.
  - destruct (snd (body args (derived o))); simpl.
    + now rewrite orb_true_r.
    + now rewrite orb_false_r.
Qed.

Lemma form4_clears impl args o : _called (fst (form4 impl args o)) = false.
Proof. reflexivity. Qed.

Lemma form4_warns impl args o :
  snd (form4 impl args o)
  = negb (_called o || runs_base impl (CallForm4 args) o).
Proof. unfold form4. simpl. now rewrite form3_called. Qed.

Lemma step_called impl o c :
  _called (step impl o c)
  = if is_form4 c then false else _called o || runs_base impl c o.
Proof.
  destruct c as [args|args|args]; simpl.
  - apply form3_called.
  - reflexivity.
  - now rewrite orb_true_r.
Qed.

Lemma run_snoc impl cs c o :
  run impl (cs ++ [c]) o = step impl (run impl cs o) c.
Proof. unfold run. now rewrite fold_left_app. Qed.

Lemma snoc_decompose (pre post l : list (call Args)) c c' :
  l ++ [c] = pre ++ c' :: post ->
  (post = [] /\ pre = l /\ c' = c)
  \/ exists post', post = post' ++ [c] /\ l = pre ++ c' :: post'.
Proof.
  intros Heq. destruct post as [|p post _] using rev_ind.
  - apply app_inj_tail in Heq. destruct Heq as [<- <-]. now left.
  - right. change (pre ++ c' :: post ++ [p])
      with (pre ++ (c' :: post) ++ [p]) in Heq.
    rewrite app_assoc in Heq. apply app_inj_tail in Heq.
    destruct Heq as [-> <-]. now exists post.
Qed.

(** The flag is set exactly when the base three-argument body has
    executed in a call after which the flag was not cleared. *)
Lemma called_iff impl (u : U) cs :
  _called (run impl cs (constructed u)) = true <->
  exists pre c post,
    cs = pre ++ c :: post /\
    Forall (fun c => is_form4 c = false) (c :: post) /\
    runs_base impl c (run impl pre (constructed u)) = true.
Proof.
  induction cs as [|c cs IH] using rev_ind.
  - simpl. split; [discriminate|].
    intros (pre & c & post & Heq & _). now destruct pre.
  - rewrite run_snoc, step_called.
    destruct (is_form4 c) eqn:Hc.
    + split; [discriminate|].
      intros (pre & c' & post & Heq & Hall & _). exfalso.
      apply snoc_decompose in Heq.
      destruct Heq as [(-> & _ & ->)|(post' & -> & _)].
      * inversion Hall; congruence.
      * change (c' :: post' ++ [c]) with ((c' :: post') ++ [c]) in Hall.
        apply Forall_app in Hall. destruct Hall as [_ Hall].
        inversion Hall; congruence.
    + rewrite orb_true_iff, IH. split.
      * intros [(pre & c' & post & -> & Hall & Hr)|Hr].
        -- exists pre, c', (post ++ [c]). split; [now rewrite <- app_assoc|].
           split; [|exact Hr].
           change (c' :: post ++ [c]) with ((c' :: post) ++ [c]).
           apply Forall_app. split; [exact Hall|]. now constructor.
        -- exists cs, c, []. split; [reflexivity|]. split; [|exact Hr].
           now constructor.
      * intros (pre & c' & post & Heq & Hall & Hr).
        apply snoc_decompose in Heq.
        destruct Heq as [(-> & -> & ->)|(post' & -> & ->)].
        -- now right.
        -- left. exists pre, c', post'. split; [reflexivity|].
           split; [|exact Hr].
           change (c' :: post' ++ [c]) with ((c' :: post') ++ [c]) in Hall.
           apply Forall_app in Hall. apply Hall.
Qed.

Lemma not_called_iff impl (u : U) cs :
  _called (run impl cs (constructed u)) = false <->
  not_run_since_cleared impl u cs.
Proof.
  unfold not_run_since_cleared. split.
  - intros Hc pre c post Heq Hall.
    destruct (runs_base impl c (run impl pre (constructed u))) eqn:Hr; auto.
    assert (_called (run impl cs (constructed u)) = true)
      by (apply called_iff; eauto 6).
    congruence.
  - intros Hn.
    destruct (_called (run impl cs (constructed u))) eqn:Hc; auto.
    apply called_iff in Hc. destruct Hc as (pre & c & post & Heq & Hall & Hr).
    rewrite (Hn pre c post Heq Hall) in Hr. discriminate.
Qed.

(** C10.  On an object reached from its constructor by any sequence of
    calls of the [form] methods, the base four-argument [form] warns
    exactly when the base three-argument body does not execute during
    the call and has not executed since the flag was last cleared; a
    warning is given to overriding subclasses only (but not to all of
    them); the flag is false on return, so that a call made next warns
    exactly when the base three-argument body does not execute in
    it. *)
Theorem form4_deprecation impl (u : U) cs args :
  let o := run impl cs (constructed u) in
  let r := form4 impl args o in
  (snd r = true <->
     runs_base impl (CallForm4 args) o = false /\
     not_run_since_cleared impl u cs) /\
  (snd r = true -> overrides impl = true) /\
  _called (fst r) = false /\
  (forall args',
      snd (form4 impl args' (fst r)) = true <->
      runs_base impl (CallForm4 args') (fst r) = false).
Proof.
  intros o r.
  assert (Hw : snd r = true <->
               runs_base impl (CallForm4 args) o = false /\
               not_run_since_cleared impl u cs).
  { unfold r. rewrite form4_warns, negb_true_iff, orb_false_iff.
    unfold o at 1. rewrite not_called_iff. tauto. }
  split; [exact Hw|]. split; [|split].
  - intros Hr. apply Hw in Hr. destruct Hr as [Hr _].
    destruct impl; [discriminate Hr|reflexivity].
  - apply form4_clears.
  - intros args'. rewrite form4_warns, negb_true_iff. unfold r.
    rewrite form4_clears. reflexivity.
Qed.

End Sentinel.

(** A subclass that inherits the three-argument form is never warned; one
    that overrides it without calling the base body is warned at every
    call. *)
Example inherited_not_warned :
  snd (form4 (U := nat) (Args := unit) Inherited tt (constructed 0%nat))
  = false.
Proof. reflexivity. Qed.

Example counting_warned_twice :
  let r := form4 counting tt (constructed 0%nat) in
  snd r = true /\ snd (form4 counting tt (fst r)) = true
  /\ derived (fst r) = 1%nat.
Proof. repeat split. Qed.

(** An overriding body that calls the base body on every second call is
    warned on every second call of the four-argument form; a qualified
    call of the base body just before silences the warning once. *)
Example alternating_warned_in_turn :
  let r1 := form4 alternating tt (constructed 0%nat) in
  let r2 := form4 alternating tt (fst r1) in
  let r3 := form4 alternating tt (step alternating (fst r2) (CallBaseForm3 tt)) in
  snd r1 = false /\ snd r2 = true /\ snd r3 = false.
Proof. repeat split. Qed.

Lemma form4_deprecation_witness :
  let o := run counting [CallForm3 tt; CallForm4 tt] (constructed 0%nat) in
  snd (form4 counting tt o) = true /\ overrides counting = true.
Proof.
  destruct (form4_deprecation counting 0%nat [CallForm3 tt; CallForm4 tt] tt)
    as (_ & H & _).
  split; [reflexivity|]. apply H. reflexivity.
Defined.

(** An overriding body that calls the base body itself is never
    warned. *)
Example delegating_not_warned :
  let r := form4 delegating tt (constructed 0%nat) in
  snd r = false /\ snd (form4 delegating tt (fst r)) = false.
Proof. split; reflexivity. Qed.

(** C10 as stated fails for the subclass whose body calls the base body
    on every second call: it overrides the three-argument form and is
    not warned at the first call of the four-argument form, and the
    second call does not behave as the first. *)
Lemma overriding_not_warned :
  let r1 := form4 alternating tt (constructed 0%nat) in
  let r2 := form4 alternating tt (fst r1) in
  ~ (snd r1 = true <-> overrides alternating = true) /\ snd r2 <> snd r1.
Proof.
  split.
  - simpl. intros [_ H]. specialize (H eq_refl). discriminate.
  - simpl. discriminate.
Qed.

End NonlinearProblemProofs.

(* ===================================================================== *)
(** * Properties of the cell classification                               *)
(* ===================================================================== *)

Module MultiPointConstraintProofs.
Import MultiPointConstraint.

Lemma append_nil m : append_cell_to_slave m [] = m.
Proof. destruct m. unfold append_cell_to_slave. simpl. now rewrite app_nil_r. Qed.

Lemma append_app m l1 l2 :
  append_cell_to_slave (append_cell_to_slave m l1) l2
  = append_cell_to_slave m (l1 ++ l2).
Proof. unfold append_cell_to_slave. simpl. now rewrite app_assoc. Qed.

Lemma nonempty_app (l1 l2 : list Z) :
  match l1 ++ l2 with [] => false | _ :: _ => true end
  = match l1 with [] => false | _ :: _ => true end
    || match l2 with [] => false | _ :: _ => true end.
Proof. now destruct l1, l2. Qed.

(** The loop over the dofs of a cell, for one slave. *)
Lemma scan_slave_spec dofs slave : forall s,
  scan_slave dofs s slave
  = {| sc_mpc := append_cell_to_slave (sc_mpc s) (hits_of dofs slave);
       sc_j := sc_j s + Z.of_nat (length (hits_of dofs slave));
       sc_slave_cell := sc_slave_cell s
                        || match hits_of dofs slave with
                           | [] => false | _ :: _ => true end |}.
Proof.
  unfold scan_slave, hits_of.
  induction dofs as [|d dofs IH]; intros [m j flag]; simpl.
  - now rewrite append_nil, Z.add_0_r, orb_false_r.
  - rewrite IH. unfold scan_dof. simpl.
    destruct (unsigned d =? slave); simpl.
    + f_equal; [| lia | now rewrite orb_true_r].
      apply (append_app m [slave]).
    + reflexivity.
Qed.

(** The loop over the slaves. *)
Lemma scan_slaves_spec dofs : forall slaves s,
  fold_left (scan_slave dofs) slaves s
  = {| sc_mpc := append_cell_to_slave (sc_mpc s) (hits slaves dofs);
       sc_j := sc_j s + Z.of_nat (length (hits slaves dofs));
       sc_slave_cell := sc_slave_cell s || touched slaves dofs |}.
Proof.
  unfold touched, hits.
  induction slaves as [|slave slaves IH]; intros [m j flag]; simpl.
  - now rewrite append_nil, Z.add_0_r, orb_false_r.
  - rewrite IH, scan_slave_spec. simpl.
    rewrite append_app, length_app, nonempty_app, orb_assoc.
    f_equal. lia.
Qed.

Lemma touched_false slaves dofs : touched slaves dofs = false -> hits slaves dofs = [].
Proof. unfold touched. now destruct (hits slaves dofs). Qed.

(** One iteration of the loop over the cells. *)
Lemma classify_slave_cell m j c dofs :
  touched (_slaves m) dofs = true ->
  classify_cell (m, j) (c, dofs)
  = (push_offset
       (push_slave_cell (append_cell_to_slave m (hits (_slaves m) dofs))
                        (Z.of_nat c))
       (j + Z.of_nat (length (hits (_slaves m) dofs))),
     j + Z.of_nat (length (hits (_slaves m) dofs))).
Proof.
  intros Ht. unfold classify_cell, scan_slaves. simpl.
  rewrite scan_slaves_spec. simpl. now rewrite Ht.
Qed.

Lemma classify_normal_cell m j c dofs :
  touched (_slaves m) dofs = false ->
  classify_cell (m, j) (c, dofs) = (push_normal_cell m (Z.of_nat c), j).
Proof.
  intros Ht. unfold classify_cell, scan_slaves. simpl.
  rewrite scan_slaves_spec. simpl. rewrite Ht.
  rewrite (touched_false _ _ Ht), append_nil. simpl. now rewrite Z.add_0_r.
Qed.

Lemma csr_ok_slave_cell m j c h :
  csr_ok m j ->
  csr_ok (push_offset (push_slave_cell (append_cell_to_slave m h) c)
                      (j + Z.of_nat (length h)))
         (j + Z.of_nat (length h)).
Proof.
  intros (Hj & Hlast & Hlen & Hmono). unfold csr_ok. simpl.
  repeat split.
  - rewrite length_app. lia.
  - apply last_snoc.
  - rewrite !length_app. simpl. lia.
  - intros i x y Hx Hy.
    pose proof (lookup_lt_Some _ _ _ Hy) as Hi.
    rewrite length_app in Hi. simpl in Hi.
    rewrite lookup_app_l in Hx by lia.
    destruct (decide (S i < length (_offsets_cell_to_slave m))%nat) as [Hlt|Hge].
    + rewrite lookup_app_l in Hy by lia. eauto.
    + rewrite lookup_app_r in Hy by lia.
      replace (S i - length (_offsets_cell_to_slave m))%nat with 0%nat in Hy by lia.
      simpl in Hy. injection Hy as <-.
      rewrite last_lookup in Hlast.
      replace (pred (length (_offsets_cell_to_slave m))) with i in Hlast by lia.
      rewrite Hx in Hlast. injection Hlast as ->. lia.
Qed.

Lemma csr_ok_normal_cell m j c : csr_ok m j -> csr_ok (push_normal_cell m c) j.
Proof. intros H. exact H. Qed.

(** The loop over the cells, from any state. *)
Lemma classify_loop cells : forall m j,
  let r := fold_left classify_cell cells (m, j) in
  _slaves (fst r) = _slaves m /\
  _slave_cells (fst r)
  = _slave_cells m
    ++ ((fun c => Z.of_nat (fst c))
          <$> filter (fun c => touched (_slaves m) (snd c) = true) cells) /\
  _normal_cells (fst r)
  = _normal_cells m
    ++ ((fun c => Z.of_nat (fst c))
          <$> filter (fun c => touched (_slaves m) (snd c) = false) cells) /\
  (csr_ok m j -> csr_ok (fst r) (snd r)).
Proof.
  induction cells as [|[c dofs] cells IH]; intros m j.
  - cbn. rewrite !app_nil_r. auto.
  - cbn [fold_left].
    destruct (touched (_slaves m) dofs) eqn:Ht.
    + rewrite classify_slave_cell by exact Ht.
      match goal with |- context [fold_left _ _ (?m1, ?j1)] =>
        destruct (IH m1 j1) as (Hs & Hsc & Hnc & Hcsr) end.
      simpl in Hs, Hsc, Hnc.
      rewrite filter_cons_True by (simpl; exact Ht).
      rewrite filter_cons_False by (simpl; congruence).
      rewrite Hs, Hsc, Hnc. simpl. rewrite <- app_assoc. simpl.
      split; [reflexivity|]. split; [reflexivity|]. split; [reflexivity|].
      intros Hok. apply Hcsr. now apply csr_ok_slave_cell.
    + rewrite classify_normal_cell by exact Ht.
      destruct (IH (push_normal_cell m (Z.of_nat c)) j) as (Hs & Hsc & Hnc & Hcsr).
      simpl in Hs, Hsc, Hnc.
      rewrite filter_cons_False by (simpl; congruence).
      rewrite filter_cons_True by (simpl; exact Ht).
      rewrite Hs, Hsc, Hnc. simpl. rewrite <- app_assoc. simpl.
      split; [reflexivity|]. split; [reflexivity|]. split; [reflexivity|].
      intros Hok. apply Hcsr. now apply csr_ok_normal_cell.
Qed.

Lemma unsigned_small d : 0 <= d < 2 ^ 32 -> unsigned d = d.
Proof. intros H. unfold unsigned. now apply Z.mod_small. Qed.

Lemma hits_elem slaves dofs x :
  x ∈ hits slaves dofs <-> x ∈ slaves /\ exists d, d ∈ dofs /\ unsigned d = x.
Proof.
  unfold hits, hits_of. rewrite list_elem_of_In, in_flat_map. split.
  - intros (slave & Hin & Hx). apply in_flat_map in Hx as (d & Hd & Hx).
    destruct (Z.eqb_spec (unsigned d) slave) as [He|]; [|destruct Hx].
    destruct Hx as [<-|[]]. apply list_elem_of_In in Hin, Hd. eauto.
  - intros (Hin & d & Hd & He). apply list_elem_of_In in Hin, Hd.
    exists x. split; [exact Hin|].
    apply in_flat_map. exists d. split; [exact Hd|].
    rewrite He, Z.eqb_refl. now left.
Qed.

Lemma touched_touches slaves dofs :
  Forall (fun d => 0 <= d < 2 ^ 32) dofs ->
  touched slaves dofs = true <-> touches slaves dofs.
Proof.
  intros Hr. rewrite Forall_forall in Hr. unfold touched, touches. split.
  - destruct (hits slaves dofs) as [|x l] eqn:Hh; [discriminate|]. intros _.
    assert (Hx : x ∈ hits slaves dofs) by (rewrite Hh; left).
    apply hits_elem in Hx as (Hs & d & Hd & He).
    exists d. split; [exact Hd|]. rewrite unsigned_small in He by auto. now subst.
  - intros (d & Hd & Hs).
    assert (Hx : d ∈ hits slaves dofs).
    { apply hits_elem. split; [exact Hs|]. exists d. split; [exact Hd|].
      apply unsigned_small; auto. }
    destruct (hits slaves dofs); [inversion Hx | reflexivity].
Qed.

Lemma mesh_range_elem (l : list (list Z)) c dofs :
  (c, dofs) ∈ imap (fun c dofs => (c, dofs)) l <-> l !! c = Some dofs.
Proof.
  rewrite elem_of_lookup_imap. split.
  - intros (i & y & Heq & Hl). now inversion Heq; subst.
  - intros Hl. eauto.
Qed.

Lemma mesh_range_indices (l : list (list Z)) :
  (fun c : nat * list Z => Z.of_nat (fst c)) <$> imap (fun c dofs => (c, dofs)) l
  = Z.of_nat <$> seq 0 (length l).
Proof. rewrite fmap_imap. apply (imap_seq_0 l Z.of_nat). Qed.

(** Membership in one class of the partition. *)
Lemma class_elem (l : list (list Z)) slaves (b : bool) i dofs :
  l !! i = Some dofs ->
  Z.of_nat i
    ∈ ((fun c : nat * list Z => Z.of_nat (fst c))
         <$> filter (fun c => touched slaves (snd c) = b)
                    (imap (fun c dofs => (c, dofs)) l))
  <-> touched slaves dofs = b.
Proof.
  intros Hl. rewrite list_elem_of_fmap. split.
  - intros ([c dofs'] & Hc & Hin). simpl in Hc. apply Nat2Z.inj in Hc. subst c.
    apply list_elem_of_filter in Hin as [Hp Hin]. simpl in Hp.
    apply mesh_range_elem in Hin. congruence.
  - intros Ht. exists (i, dofs). split; [reflexivity|].
    apply list_elem_of_filter. split; [exact Ht|]. now apply mesh_range_elem.
Qed.

Lemma class_valid (l : list (list Z)) slaves (b : bool) x :
  x ∈ ((fun c : nat * list Z => Z.of_nat (fst c))
         <$> filter (fun c => touched slaves (snd c) = b)
                    (imap (fun c dofs => (c, dofs)) l)) ->
  exists i dofs, x = Z.of_nat i /\ l !! i = Some dofs /\ touched slaves dofs = b.
Proof.
  intros ([c dofs] & -> & Hin)%list_elem_of_fmap.
  apply list_elem_of_filter in Hin as [Hp Hin]. apply mesh_range_elem in Hin.
  exists c, dofs. auto.
Qed.

Lemma class_NoDup (l : list (list Z)) slaves (b : bool) :
  NoDup ((fun c : nat * list Z => Z.of_nat (fst c))
           <$> filter (fun c => touched slaves (snd c) = b)
                      (imap (fun c dofs => (c, dofs)) l)).
Proof.
  eapply sublist_NoDup.
  2: { apply fmap_sublist, sublist_filter. }
  rewrite mesh_range_indices. apply NoDup_fmap_2; [apply _ | apply NoDup_seq].
Qed.

(** The state of a freshly constructed object. *)
Lemma construct_spec dofmap slaves masters coefficients offsets :
  let m := construct dofmap slaves masters coefficients offsets in
  _slaves m = slaves /\
  _slave_cells m
  = (fun c : nat * list Z => Z.of_nat (fst c))
      <$> filter (fun c => touched slaves (snd c) = true)
                 (imap (fun c dofs => (c, dofs)) dofmap) /\
  _normal_cells m
  = (fun c : nat * list Z => Z.of_nat (fst c))
      <$> filter (fun c => touched slaves (snd c) = false)
                 (imap (fun c dofs => (c, dofs)) dofmap) /\
  csr_ok m (Z.of_nat (length (_cell_to_slave m))).
Proof.
  unfold construct, cell_classification. cbn [_slave_cells length Nat.ltb Nat.leb].
  match goal with |- context [fold_left classify_cell ?cells (?m0, ?j0)] =>
    destruct (classify_loop cells m0 j0) as (Hs & Hsc & Hnc & Hcsr) end.
  cbn [fst]. cbv zeta.
  split; [exact Hs|]. split; [exact Hsc|]. split; [exact Hnc|].
  assert (H0 : csr_ok
                 (push_offset
                    {| cell_dofs := dofmap; _slaves := slaves; _masters := masters;
                       _coefficients := coefficients; _offsets := offsets;
                       _slave_cells := []; _normal_cells := [];
                       _offsets_cell_to_slave := []; _cell_to_slave := [] |} 0) 0).
  { unfold csr_ok. simpl. repeat split; auto.
    intros i x y Hx Hy. destruct i; discriminate. }
  specialize (Hcsr H0). pose proof Hcsr as (Hj & _). rewrite <- Hj. exact Hcsr.
Qed.

(** C7.  After the one run of the classification that the constructor
    makes, a cell is a slave cell exactly when one of its dofs is a slave
    dof and a normal cell otherwise; the two lists hold cells of the mesh
    only and no cell twice; the offsets array has one entry more than
    there are slave cells, is nondecreasing, and ends with the length of
    the flat cell-to-slave array.  Dof numbers are within the range of
    the 32-bit [unsigned] they are converted to. *)
Theorem cell_classification_partition dofmap slaves masters coefficients offsets :
  Forall (Forall (fun d => 0 <= d < 2 ^ 32)) dofmap ->
  let m := construct dofmap slaves masters coefficients offsets in
  (forall i dofs, dofmap !! i = Some dofs ->
     (Z.of_nat i ∈ _slave_cells m <-> touches slaves dofs) /\
     (Z.of_nat i ∈ _normal_cells m <-> ~ touches slaves dofs) /\
     (Z.of_nat i ∈ _slave_cells m \/ Z.of_nat i ∈ _normal_cells m)) /\
  (forall c, c ∈ _slave_cells m ++ _normal_cells m ->
     exists i, c = Z.of_nat i /\ (i < length dofmap)%nat) /\
  NoDup (_slave_cells m ++ _normal_cells m) /\
  length (_offsets_cell_to_slave m) = S (length (_slave_cells m)) /\
  (forall i x y, _offsets_cell_to_slave m !! i = Some x ->
                 _offsets_cell_to_slave m !! S i = Some y -> x <= y) /\
  last (_offsets_cell_to_slave m) = Some (Z.of_nat (length (_cell_to_slave m))).
Proof.
  intros Hrange m.
  destruct (construct_spec dofmap slaves masters coefficients offsets)
    as (Hs & Hsc & Hnc & Hcsr).
  fold m in Hs, Hsc, Hnc, Hcsr.
  destruct Hcsr as (_ & Hlast & Hlen & Hmono).
  split; [|split; [|split; [|split; [|split]]]]; auto.
  - intros i dofs Hl.
    assert (Hr : Forall (fun d => 0 <= d < 2 ^ 32) dofs).
    { rewrite Forall_forall in Hrange. apply Hrange.
      eapply list_elem_of_lookup_2; eauto. }
    rewrite Hsc, Hnc, !class_elem by exact Hl.
    rewrite <- (touched_touches slaves dofs Hr).
    destruct (touched slaves dofs); intuition congruence.
  - intros c Hc. rewrite Hsc, Hnc in Hc.
    apply elem_of_app in Hc as [Hc|Hc];
      apply class_valid in Hc as (i & dofs & -> & Hl & _);
      exists i; split; auto; eapply lookup_lt_Some; eauto.
  - rewrite Hsc, Hnc. apply NoDup_app.
    split; [apply class_NoDup|]. split; [|apply class_NoDup].
    intros x Hx Hx'.
    apply class_valid in Hx as (i & dofs & -> & Hl & Ht).
    apply class_valid in Hx' as (i' & dofs' & Hi & Hl' & Ht').
    apply Nat2Z.inj in Hi. subst i'. congruence.
Qed.

(** C7 on the interval mesh with the slave dof 1. *)
Lemma cell_classification_partition_witness :
  let m := construct interval3 [1] [] [] [] in
  NoDup (_slave_cells m ++ _normal_cells m) /\
  last (_offsets_cell_to_slave m) = Some (Z.of_nat (length (_cell_to_slave m))).
Proof.
  destruct (cell_classification_partition interval3 [1] [] [] [])
    as (_ & _ & Hnd & _ & _ & Hlast).
  - repeat constructor; lia.
  - split; assumption.
Defined.

(** The cached result is returned as soon as there is a slave cell. *)
Lemma cell_classification_cached m :
  _slave_cells m <> [] ->
  cell_classification m = (m, (_slave_cells m, _normal_cells m)).
Proof.
  intros Hne. unfold cell_classification.
  destruct (_slave_cells m); [congruence | reflexivity].
Qed.

(** C6, the failing case.  On the interval mesh with a slave dof that no
    cell of this mesh has, the constructor leaves no slave cell; the
    second call then runs the classification again and appends to the
    arrays of the first run: the normal cells are returned twice and the
    offsets array has grown. *)
Theorem cell_classification_second_call_recomputes :
  let m := construct interval3 [9] [] [] [] in
  let second := cell_classification m in
  observed m = ([], [0; 1; 2], [0]) /\
  snd second = ([], [0; 1; 2; 0; 1; 2]) /\
  observed (fst second) = ([], [0; 1; 2; 0; 1; 2], [0; 0]).
Proof. vm_compute. repeat split. Qed.

End MultiPointConstraintProofs.

(* ===================================================================== *)
(** * Properties of the assembler                                         *)
(* ===================================================================== *)

Module AssemblerProofs.
Import Assembler.
Local Open Scope nat_scope.

(** ** Element matrices *)

Lemma entry_Some M i j x :
  entry M i j = Some x <-> exists row, M !! i = Some row /\ row !! j = Some x.
Proof.
  unfold entry. destruct (M !! i) as [row|]; split.
  - eauto.
  - now intros (r & [= <-] & H).
  - discriminate.
  - now intros (r & [=] & _).
Qed.

Lemma zero_row_entry M k i j x :
  entry (zero_row M k) i j = Some x ->
  x = 0%float \/ (i <> k /\ entry M i j = Some x).
Proof.
  unfold zero_row. rewrite !entry_Some. intros (row & Hrow & Hx).
  destruct (decide (i = k)) as [->|Hne].
  - left. rewrite list_lookup_alter_eq in Hrow.
    destruct (M !! k) as [r|]; [|discriminate]. injection Hrow as <-.
    change (map (fun _ : float => 0%float) r) with ((fun _ : float => 0%float) <$> r) in Hx.
    rewrite list_lookup_fmap in Hx. destruct (r !! j); [|discriminate].
    now injection Hx.
  - right. split; [exact Hne|]. rewrite list_lookup_alter_ne in Hrow by auto. eauto.
Qed.

Lemma zero_col_entry M k i j x :
  entry (zero_col M k) i j = Some x ->
  x = 0%float \/ (j <> k /\ entry M i j = Some x).
Proof.
  unfold zero_col. rewrite !entry_Some. intros (row & Hrow & Hx).
  change (map (fun row : list float => <[k := 0%float]> row) M)
    with ((fun row : list float => <[k := 0%float]> row) <$> M) in Hrow.
  rewrite list_lookup_fmap in Hrow.
  destruct (M !! i) as [r|] eqn:Hr; [|discriminate]. injection Hrow as <-.
  destruct (decide (j = k)) as [->|Hne].
  - left. assert (Hk : k < length r).
    { apply lookup_lt_Some in Hx. now rewrite length_insert in Hx. }
    rewrite list_lookup_insert_eq in Hx by exact Hk. now injection Hx.
  - right. split; [exact Hne|]. rewrite list_lookup_insert_ne in Hx by auto. eauto.
Qed.

Lemma zero_row_shaped M k r c : shaped M r c -> shaped (zero_row M k) r c.
Proof.
  unfold shaped, zero_row. intros [Hl Hr]. split.
  - now rewrite length_alter.
  - rewrite Forall_forall in *. intros row Hin.
    apply list_elem_of_lookup in Hin as [i Hi].
    destruct (decide (i = k)) as [->|Hne].
    + rewrite list_lookup_alter_eq in Hi.
      destruct (M !! k) as [row0|] eqn:Hk; [|discriminate]. injection Hi as <-.
      rewrite length_map. apply Hr. eapply list_elem_of_lookup_2; eauto.
    + rewrite list_lookup_alter_ne in Hi by auto.
      apply Hr. eapply list_elem_of_lookup_2; eauto.
Qed.

Lemma zero_col_shaped M k r c : shaped M r c -> shaped (zero_col M k) r c.
Proof.
  unfold shaped, zero_col. intros [Hl Hr]. split.
  - now rewrite length_map.
  - rewrite Forall_forall in *. intros row Hin.
    apply list_elem_of_In, in_map_iff in Hin as (row0 & <- & Hin).
    rewrite length_insert. apply Hr. now apply list_elem_of_In.
Qed.

Lemma element_matrix_shaped a c r k : shaped (element_matrix a c r k) r k.
Proof.
  unfold shaped, element_matrix. split.
  - now rewrite length_map, length_seq.
  - rewrite Forall_forall. intros row Hin.
    apply list_elem_of_In, in_map_iff in Hin as (i & <- & _).
    now rewrite length_map, length_seq.
Qed.

(** The loop that zeroes rows: an entry of the result is zero, or it is
    the old entry and no step of the loop met a boundary dof in its
    row. *)
Lemma zero_rows_fold (bv : Map) (dmap0 : list nat) (idx : list nat) : forall M i j x,
  entry (fold_left (fun M i =>
                      match dmap0 !! i with
                      | Some ii => if has_key bv ii then zero_row M i else M
                      | None => M
                      end) idx M) i j = Some x ->
  x = 0%float \/
  (entry M i j = Some x /\
   (i ∈ idx -> forall ii, dmap0 !! i = Some ii -> has_key bv ii = false)).
Proof.
  induction idx as [|k idx IH]; intros M i j x; simpl.
  - intros H. right. split; [exact H|]. intros Hin. inversion Hin.
  - intros H. apply IH in H as [H|[H Hrest]]; [now left|].
    destruct (dmap0 !! k) as [kk|] eqn:Hk.
    + destruct (has_key bv kk) eqn:Hb.
      * apply zero_row_entry in H as [H|[Hne H]]; [now left|].
        right. split; [exact H|]. intros Hin ii Hii.
        apply elem_of_cons in Hin as [->|Hin]; [congruence|]. eauto.
      * right. split; [exact H|]. intros Hin ii Hii.
        apply elem_of_cons in Hin as [->|Hin]; [congruence|]. eauto.
    + right. split; [exact H|]. intros Hin ii Hii.
      apply elem_of_cons in Hin as [->|Hin]; [congruence|]. eauto.
Qed.

Lemma zero_cols_fold (bv : Map) (dmap1 : list nat) (idx : list nat) : forall M i j x,
  entry (fold_left (fun M j =>
                      match dmap1 !! j with
                      | Some jj => if has_key bv jj then zero_col M j else M
                      | None => M
                      end) idx M) i j = Some x ->
  x = 0%float \/
  (entry M i j = Some x /\
   (j ∈ idx -> forall jj, dmap1 !! j = Some jj -> has_key bv jj = false)).
Proof.
  induction idx as [|k idx IH]; intros M i j x; simpl.
  - intros H. right. split; [exact H|]. intros Hin. inversion Hin.
  - intros H. apply IH in H as [H|[H Hrest]]; [now left|].
    destruct (dmap1 !! k) as [kk|] eqn:Hk.
    + destruct (has_key bv kk) eqn:Hb.
      * apply zero_col_entry in H as [H|[Hne H]]; [now left|].
        right. split; [exact H|]. intros Hin jj Hjj.
        apply elem_of_cons in Hin as [->|Hin]; [congruence|]. eauto.
      * right. split; [exact H|]. intros Hin jj Hjj.
        apply elem_of_cons in Hin as [->|Hin]; [congruence|]. eauto.
    + right. split; [exact H|]. intros Hin jj Hjj.
      apply elem_of_cons in Hin as [->|Hin]; [congruence|]. eauto.
Qed.

Lemma zero_rows_fold_shaped (bv : Map) (dmap0 : list nat) (idx : list nat) r c : forall M,
  shaped M r c ->
  shaped (fold_left (fun M i =>
                       match dmap0 !! i with
                       | Some ii => if has_key bv ii then zero_row M i else M
                       | None => M
                       end) idx M) r c.
Proof.
  induction idx as [|k idx IH]; intros M HM; simpl; [exact HM|].
  apply IH. destruct (dmap0 !! k); [|exact HM].
  destruct (has_key bv n); [now apply zero_row_shaped | exact HM].
Qed.

Lemma zero_cols_fold_shaped (bv : Map) (dmap1 : list nat) (idx : list nat) r c : forall M,
  shaped M r c ->
  shaped (fold_left (fun M j =>
                       match dmap1 !! j with
                       | Some jj => if has_key bv jj then zero_col M j else M
                       | None => M
                       end) idx M) r c.
Proof.
  induction idx as [|k idx IH]; intros M HM; simpl; [exact HM|].
  apply IH. destruct (dmap1 !! k); [|exact HM].
  destruct (has_key bv n); [now apply zero_col_shaped | exact HM].
Qed.

Lemma has_key_true (bv : Map) ii : has_key bv ii = true <-> is_Some (bv !! ii).
Proof.
  unfold has_key. destruct (bv !! ii); split; auto; try discriminate.
  intros [x Hx]. discriminate.
Qed.

(** What is handed to [add_local]: rows and columns of boundary dofs are
    zero, and the matrix has the shape of the two dof lists. *)
Lemma zeroed_element_matrix (bv0 bv1 : Map) (dmap0 dmap1 : list nat) M :
  shaped M (length dmap0) (length dmap1) ->
  let M' := zero_bc_cols bv1 dmap1 (zero_bc_rows bv0 dmap0 M) in
  shaped M' (length dmap0) (length dmap1) /\
  (forall i ii, dmap0 !! i = Some ii -> is_Some (bv0 !! ii) -> row_zero M' i) /\
  (forall j jj, dmap1 !! j = Some jj -> is_Some (bv1 !! jj) -> col_zero M' j).
Proof.
  intros HM M'. unfold M', zero_bc_cols, zero_bc_rows. split; [|split].
  - now apply zero_cols_fold_shaped, zero_rows_fold_shaped.
  - intros i ii Hi Hb j x Hx.
    apply zero_cols_fold in Hx as [Hx|[Hx _]]; [exact Hx|].
    apply zero_rows_fold in Hx as [Hx|[Hx Hno]]; [exact Hx|].
    apply has_key_true in Hb. rewrite (Hno) with (ii := ii) in Hb; [discriminate| |exact Hi].
    apply elem_of_seq. apply entry_Some in Hx as (row & Hrow & _).
    apply lookup_lt_Some in Hrow. lia.
  - intros j jj Hj Hb i x Hx.
    apply zero_cols_fold in Hx as [Hx|[Hx Hno]]; [exact Hx|].
    apply has_key_true in Hb. rewrite (Hno) with (jj := jj) in Hb; [discriminate| |exact Hj].
    apply elem_of_seq. apply lookup_lt_Some in Hj. lia.
Qed.

(** ** Boundary maps *)

Section WithEnv.

Variable contains : FunctionSpace -> FunctionSpace -> bool.
Variable world_size : nat.
Variable scatter_reverse_add : nat -> nat -> float -> float.

Lemma boundary_values_by_axis_spec a bcs :
  boundary_values_by_axis contains a bcs
  = (boundary_values contains (mpi_comm_size (mesh a)) (function_space0 a) bcs,
     boundary_values contains (mpi_comm_size (mesh a)) (function_space1 a) bcs).
Proof.
  unfold boundary_values_by_axis, boundary_values.
  generalize (∅ : Map) at 1 3. generalize (∅ : Map).
  induction bcs as [|bc bcs IH]; intros m1 m0; simpl; [reflexivity|].
  apply IH.
Qed.

(** ** The loop over cells of the single-form assembly *)

Lemma assemble_form_length h a bcs :
  length (assemble_form contains h a bcs) = num_cells (mesh a).
Proof. unfold assemble_form. now rewrite length_map, length_seq. Qed.

Lemma assemble_form_lookup h a bcs c op :
  assemble_form contains h a bcs !! c = Some op ->
  c < num_cells (mesh a) /\
  op = assemble_cell h a (boundary_values_by_axis contains a bcs) c.
Proof.
  unfold assemble_form. intros H.
  change (map ?f ?l) with (f <$> l) in H. rewrite list_lookup_fmap in H.
  destruct (seq 0 (num_cells (mesh a)) !! c) as [c'|] eqn:Hc; [|discriminate].
  apply lookup_seq in Hc as [-> Hlt]. simpl in H. injection H as <-. auto.
Qed.

Lemma assemble_cell_zeroed h a bcs c :
  let dmap0 := cell_dofs (dofmap (function_space0 a)) c in
  let dmap1 := cell_dofs (dofmap (function_space1 a)) c in
  let bv0 := boundary_values contains (mpi_comm_size (mesh a)) (function_space0 a) bcs in
  let bv1 := boundary_values contains (mpi_comm_size (mesh a)) (function_space1 a) bcs in
  exists M,
    assemble_cell h a (boundary_values_by_axis contains a bcs) c
    = OpAddLocal h M dmap0 dmap1 /\
    shaped M (length dmap0) (length dmap1) /\
    (forall i ii, dmap0 !! i = Some ii -> is_Some (bv0 !! ii) -> row_zero M i) /\
    (forall j jj, dmap1 !! j = Some jj -> is_Some (bv1 !! jj) -> col_zero M j).
Proof.
  intros dmap0 dmap1 bv0 bv1. unfold assemble_cell.
  rewrite boundary_values_by_axis_spec. cbn [fst snd].
  eexists. split; [reflexivity|].
  apply zeroed_element_matrix, element_matrix_shaped.
Qed.

(** ** The unit diagonal *)

Lemma diagonal_set_elem h a bcs op :
  op ∈ diagonal_set contains world_size h a bcs <->
  same_space (function_space0 a) (function_space1 a) = true /\
  exists d, is_Some (boundary_values contains world_size (function_space0 a) bcs !! d)
            /\ op = OpSetLocal h unit_block [d] [d].
Proof.
  unfold diagonal_set.
  destruct (same_space (function_space0 a) (function_space1 a)).
  - change (map ?f ?l) with (f <$> l). rewrite list_elem_of_fmap. split.
    + intros ([d g] & -> & Hin). apply elem_of_map_to_list in Hin.
      split; [reflexivity|]. exists d. simpl. split; [eauto | reflexivity].
    + intros (_ & d & [g Hg] & ->). exists (d, g). split; [reflexivity|].
      now apply elem_of_map_to_list.
  - split; [intros H; inversion H | intros [H _]; discriminate].
Qed.

(** ** The whole call and its branches *)

Lemma assemble_matrix_cases asm A block_type :
  assemble_matrix contains world_size asm A block_type
  = matrix_branches contains world_size asm A block_type
  \/ assemble_matrix contains world_size asm A block_type = ([], Undefined).
Proof.
  unfold assemble_matrix. destruct (_a asm); [now right|].
  destruct (initialisation_defined asm A block_type); auto.
Qed.

Lemma assemble_matrix_defined asm A block_type :
  _a asm <> [] ->
  initialisation_defined asm A block_type = true ->
  assemble_matrix contains world_size asm A block_type
  = matrix_branches contains world_size asm A block_type.
Proof.
  unfold assemble_matrix. intros Hne ->. now destruct (_a asm).
Qed.

Lemma assemble_matrix_ended asm A block_type :
  snd (assemble_matrix contains world_size asm A block_type) <> Undefined ->
  assemble_matrix contains world_size asm A block_type
  = matrix_branches contains world_size asm A block_type.
Proof.
  destruct (assemble_matrix_cases asm A block_type) as [H|H]; [auto|].
  rewrite H. simpl. congruence.
Qed.

(** With storage of one matrix for all blocks, for an empty [A] the
    constructor is not [init_matrix] when there are several blocks: only
    the bounds of [forms] matter. *)
Lemma merged_initialisation_defined asm A block_type :
  storage asm A block_type = MATAIJ ->
  block_matrix asm = true ->
  A <> None \/ forms_in_bounds asm = true ->
  initialisation_defined asm A block_type = true.
Proof.
  unfold initialisation_defined, storage, choose_constructor.
  intros Hst Hbm HA. destruct A as [t|]; [reflexivity|].
  destruct HA as [HA| ->]; [congruence|]. rewrite Hbm in *.
  destruct block_type; cbn in *; congruence.
Qed.

Lemma nested_initialisation_defined asm A block_type :
  storage asm A block_type = MATNEST ->
  A <> None \/ forms_in_bounds asm = true ->
  initialisation_defined asm A block_type = true.
Proof.
  unfold initialisation_defined, storage, choose_constructor.
  intros Hst HA. destruct A as [t|]; [reflexivity|].
  destruct HA as [HA| ->]; [congruence|].
  destruct block_type, (block_matrix asm); cbn in *; congruence.
Qed.

Lemma single_block_defined asm A block_type a :
  block_matrix asm = false ->
  first_block asm = Some a ->
  assemble_matrix contains world_size asm A block_type
  = matrix_branches contains world_size asm A block_type.
Proof.
  intros Hbm Hfb. apply assemble_matrix_defined.
  - unfold first_block in Hfb. destruct (_a asm); [discriminate|discriminate 1].
  - unfold initialisation_defined. destruct A; [reflexivity|].
    rewrite Hfb. apply andb_true_iff. split.
    + unfold block_matrix in Hbm. unfold first_block in Hfb.
      unfold forms_in_bounds.
      destruct (_a asm) as [|row rows]; [discriminate|].
      apply orb_false_iff in Hbm as [Hb1 _].
      destruct rows; [|discriminate Hb1]. simpl.
      now rewrite Nat.leb_refl.
    + now destruct (choose_constructor asm block_type).
Qed.

(** What the single-block path does.  The calls on [A] are: one
    [add_local] per cell, in which the element matrix has its rows at
    boundary dofs of the test space and its columns at boundary dofs of
    the trial space zero; then a flush; then, if the two spaces are the
    same, a [set_local] of a unit value at the diagonal entry of every
    dof of the boundary map of the test space, owned by the rank or not,
    and of no other entry; then the final synchronisation. *)
Theorem single_block_assembly asm A block_type a :
  storage asm A block_type = MATAIJ ->
  block_matrix asm = false ->
  first_block asm = Some a ->
  let bcs := _bcs asm in
  let dmap0 := cell_dofs (dofmap (function_space0 a)) in
  let dmap1 := cell_dofs (dofmap (function_space1 a)) in
  let bv0 := boundary_values contains (mpi_comm_size (mesh a)) (function_space0 a) bcs in
  let bv1 := boundary_values contains (mpi_comm_size (mesh a)) (function_space1 a) bcs in
  let diag := boundary_values contains world_size (function_space0 a) bcs in
  exists adds sets,
    assemble_matrix contains world_size asm A block_type
    = (init_ops asm A block_type ++ adds ++ [OpApply Whole FLUSH] ++ sets
         ++ [OpApply Whole FINAL], Done) /\
    length adds = num_cells (mesh a) /\
    (forall c op, adds !! c = Some op ->
       exists M,
         op = OpAddLocal Whole M (dmap0 c) (dmap1 c) /\
         shaped M (length (dmap0 c)) (length (dmap1 c)) /\
         (forall i ii, dmap0 c !! i = Some ii -> is_Some (bv0 !! ii) -> row_zero M i) /\
         (forall j jj, dmap1 c !! j = Some jj -> is_Some (bv1 !! jj) -> col_zero M j)) /\
    (forall op, op ∈ sets <->
       same_space (function_space0 a) (function_space1 a) = true /\
       exists d, is_Some (diag !! d) /\ op = OpSetLocal Whole unit_block [d] [d]).
Proof.
  intros Hst Hbm Hfb bcs dmap0 dmap1 bv0 bv1 diag.
  exists (assemble_form contains Whole a bcs),
         (diagonal_set contains world_size Whole a bcs).
  split; [|split; [|split]].
  - rewrite (single_block_defined asm A block_type a Hbm Hfb).
    unfold matrix_branches. rewrite Hst, Hbm, Hfb. simpl.
    unfold single_ops. now rewrite <- !app_assoc.
  - apply assemble_form_length.
  - intros c op Hop. apply assemble_form_lookup in Hop as [_ ->].
    apply assemble_cell_zeroed.
  - intros op. apply diagonal_set_elem.
Qed.

(** ** The nested branch: which calls are made for which block *)

Lemma assemble_form_handles h a bcs op :
  op ∈ assemble_form contains h a bcs -> handle_of op = Some h.
Proof.
  unfold assemble_form. change (map ?f ?l) with (f <$> l).
  intros (c & -> & _)%list_elem_of_fmap. reflexivity.
Qed.

Lemma diagonal_set_handles h a bcs op :
  op ∈ diagonal_set contains world_size h a bcs -> handle_of op = Some h.
Proof. intros (_ & d & _ & ->)%diagonal_set_elem. reflexivity. Qed.

Lemma nest_block_handles bcs i j f op :
  op ∈ nest_block contains world_size bcs i j f ->
  handle_of op = Some (NestSub i j) /\ is_Some f.
Proof.
  unfold nest_block. destruct f as [a|]; [|intros H; inversion H].
  rewrite !elem_of_app, list_elem_of_singleton.
  intros [H|[->|H]]; (split; [|eauto]).
  - eapply assemble_form_handles, H.
  - reflexivity.
  - eapply diagonal_set_handles, H.
Qed.

Lemma nest_row_handles bcs i row : forall j op,
  op ∈ nest_row contains world_size bcs i j row ->
  exists j' f, row !! j' = Some (Some f) /\ handle_of op = Some (NestSub i (j + j')).
Proof.
  induction row as [|f row IH]; intros j op; simpl.
  - intros H. inversion H.
  - rewrite elem_of_app. intros [H|H].
    + apply nest_block_handles in H as [H [a ->]].
      exists 0, a. rewrite Nat.add_0_r. auto.
    + apply IH in H as (j' & a & Hl & H). exists (S j'), a.
      rewrite Nat.add_succ_r. auto.
Qed.

Lemma nest_rows_handles bcs a : forall i op,
  op ∈ nest_rows contains world_size bcs i a ->
  exists i' j' row f,
    a !! i' = Some row /\ row !! j' = Some (Some f) /\
    handle_of op = Some (NestSub (i + i') j').
Proof.
  induction a as [|row a IH]; intros i op; simpl.
  - intros H. inversion H.
  - rewrite elem_of_app. intros [H|H].
    + apply nest_row_handles in H as (j' & f & Hl & H).
      exists 0, j', row, f. rewrite Nat.add_0_r. auto.
    + apply IH in H as (i' & j' & row' & f & Ha & Hl & H).
      exists (S i'), j', row', f. rewrite Nat.add_succ_r. auto.
Qed.

Lemma nest_row_occurs bcs i row : forall j j' f,
  row !! j' = Some f ->
  exists pre post,
    nest_row contains world_size bcs i j row
    = pre ++ nest_block contains world_size bcs i (j + j') f ++ post.
Proof.
  induction row as [|f0 row IH]; intros j j' f Hl; [discriminate|].
  destruct j' as [|j']; simpl in *.
  - injection Hl as ->. exists [], (nest_row contains world_size bcs i (S j) row).
    now rewrite Nat.add_0_r.
  - destruct (IH (S j) j' f Hl) as (pre & post & ->).
    exists (nest_block contains world_size bcs i j f0 ++ pre), post.
    now rewrite Nat.add_succ_r, <- app_assoc.
Qed.

Lemma nest_rows_occurs bcs a : forall i i' j' row f,
  a !! i' = Some row -> row !! j' = Some f ->
  exists pre post,
    nest_rows contains world_size bcs i a
    = pre ++ nest_block contains world_size bcs (i + i') j' f ++ post.
Proof.
  induction a as [|row0 a IH]; intros i i' j' row f Ha Hl; [discriminate|].
  destruct i' as [|i']; simpl in *.
  - injection Ha as ->.
    destruct (nest_row_occurs bcs i row 0 j' f Hl) as (pre & post & ->).
    exists pre, (post ++ nest_rows contains world_size bcs (S i) a).
    now rewrite Nat.add_0_r, <- !app_assoc.
  - destruct (IH (S i) i' j' row f Ha Hl) as (pre & post & ->).
    exists (nest_row contains world_size bcs i 0 row0 ++ pre), post.
    now rewrite Nat.add_succ_r, <- app_assoc.
Qed.

(** ** The monolithic branch: errors *)

Lemma mono_row_outcome bcs r row : forall c,
  (snd (mono_row contains world_size bcs r c row) = Done /\ Forall is_Some row) \/
  (snd (mono_row contains world_size bcs r c row) = Thrown NullBlock /\ None ∈ row).
Proof.
  induction row as [|[a|] row IH]; intros c; simpl.
  - left. split; [reflexivity | constructor].
  - destruct (IH (c + Z.of_nat (size_all (map1 a)))%Z) as [[H1 H2]|[H1 H2]].
    + left. split; [exact H1 | constructor; eauto].
    + right. split; [exact H1 | now right].
  - right. split; [reflexivity | now left].
Qed.

Lemma mono_row_thrown bcs r c row :
  None ∈ row -> snd (mono_row contains world_size bcs r c row) = Thrown NullBlock.
Proof.
  intros Hin. destruct (mono_row_outcome bcs r row c) as [[_ H]|[H _]]; [|exact H].
  rewrite Forall_forall in H. destruct (H None Hin) as [x Hx]. discriminate.
Qed.

Lemma mono_rows_thrown bcs a : forall r,
  Forall (fun row => row <> []) a ->
  (exists row, row ∈ a /\ None ∈ row) ->
  snd (mono_rows contains world_size bcs r a) = Thrown NullBlock.
Proof.
  induction a as [|row a IH]; intros r Hne (row' & Hin & Hnull).
  - inversion Hin.
  - simpl. apply Forall_cons in Hne as [Hrow Hne].
    destruct (mono_row contains world_size bcs r 0 row) as [ops out] eqn:Hr.
    destruct (mono_row_outcome bcs r row 0%Z) as [[H1 H2]|[H1 H2]];
      rewrite Hr in H1; simpl in H1; subst out.
    + destruct row as [|[a0|] row]; [congruence| |].
      * simpl. apply IH; [exact Hne|].
        apply elem_of_cons in Hin as [->|Hin]; [|eauto].
        rewrite Forall_forall in H2. destruct (H2 None Hnull) as [x Hx]. discriminate.
      * apply Forall_cons in H2 as [[x Hx] _]. discriminate.
    + reflexivity.
Qed.


(** ** The monolithic branch: offsets *)

Lemma col_offset_cons size f row j :
  col_offset size (f :: row) (S j)
  = (Z.of_nat (col_size size f) + col_offset size row j)%Z.
Proof.
  unfold col_offset. rewrite firstn_cons, fmap_cons. cbn [sum_list_with]. unfold id.
  lia.
Qed.

Lemma row_offset_cons size row a i :
  row_offset size (row :: a) (S i)
  = (Z.of_nat (row_size size row) + row_offset size a i)%Z.
Proof.
  unfold row_offset. rewrite firstn_cons, fmap_cons. cbn [sum_list_with]. unfold id.
  lia.
Qed.

Lemma mono_row_occurs bcs r row : forall c j f,
  snd (mono_row contains world_size bcs r c row) = Done ->
  row !! j = Some (Some f) ->
  exists pre post,
    fst (mono_row contains world_size bcs r c row)
    = pre ++ mono_block contains world_size bcs r
               (c + col_offset size_all row j)%Z f ++ post.
Proof.
  induction row as [|[a|] row IH]; intros c j f Hd Hl; [discriminate| |discriminate].
  destruct j as [|j]; simpl in *.
  - injection Hl as ->. eexists [], _.
    unfold col_offset. simpl. rewrite Z.add_0_r. reflexivity.
  - destruct (IH _ j f Hd Hl) as (pre & post & ->).
    exists (mono_block contains world_size bcs r c a ++ pre), post.
    rewrite col_offset_cons. simpl. rewrite Z.add_assoc, <- app_assoc. reflexivity.
Qed.

Lemma mono_rows_occurs bcs a : forall r i j row f,
  snd (mono_rows contains world_size bcs r a) = Done ->
  a !! i = Some row -> row !! j = Some (Some f) ->
  exists pre post,
    fst (mono_rows contains world_size bcs r a)
    = pre ++ mono_block contains world_size bcs
               (r + row_offset size_all a i)%Z (col_offset size_all row j) f
          ++ post.
Proof.
  induction a as [|row0 a IH]; intros r i j row f Hd Ha Hl; [discriminate|].
  revert Hd. cbn [mono_rows].
  destruct (mono_row contains world_size bcs r 0 row0) as [ops out] eqn:Hr.
  destruct out; [|discriminate|discriminate].
  destruct row0 as [|[a0|] row0]; [discriminate| |discriminate].
  cbn [fst snd]. intros Hd.
  destruct i as [|i]; cbn [lookup list_lookup] in Ha.
  - injection Ha as <-.
    assert (Hd0 : snd (mono_row contains world_size bcs r 0 (Some a0 :: row0)) = Done)
      by now rewrite Hr.
    destruct (mono_row_occurs bcs r _ 0%Z j f Hd0 Hl) as (pre & post & Heq).
    rewrite Hr in Heq. cbn [fst] in Heq. rewrite Heq.
    eexists pre, (post ++ _). unfold row_offset. cbn [take fmap list_fmap sum_list_with].
    rewrite Z.add_0_r, Z.add_0_l, <- !app_assoc. reflexivity.
  - destruct (IH _ i j row f Hd Ha Hl) as (pre & post & ->).
    exists (ops ++ pre), post.
    rewrite row_offset_cons. cbn [row_size]. rewrite Z.add_assoc, <- app_assoc.
    reflexivity.
Qed.

(** C5, as amended.  Under merged storage of more than one block, when the
    call ends normally, the calls for block [(i, j)] address the view whose
    index sets start at the sum of the [ALL] sizes (owned and ghost
    entries) of the row spaces of the preceding rows and of the column
    spaces of the preceding columns. *)
Theorem monolithic_offsets asm A block_type :
  storage asm A block_type = MATAIJ ->
  block_matrix asm = true ->
  snd (assemble_matrix contains world_size asm A block_type) = Done ->
  blocks_at_offsets contains world_size size_all (_bcs asm) (_a asm)
    (fst (assemble_matrix contains world_size asm A block_type)).
Proof.
  intros Hst Hbm Hdone.
  rewrite assemble_matrix_ended in * by (rewrite Hdone; discriminate).
  revert Hdone. unfold matrix_branches. rewrite Hst, Hbm. simpl.
  destruct (mono_rows contains world_size (_bcs asm) 0 (_a asm)) as [ops out] eqn:Hr.
  destruct out; [|discriminate|discriminate]. intros _ i j row f Ha Hl. simpl.
  assert (Hd : snd (mono_rows contains world_size (_bcs asm) 0 (_a asm)) = Done)
    by now rewrite Hr.
  destruct (mono_rows_occurs (_bcs asm) (_a asm) 0%Z i j row f Hd Ha Hl)
    as (pre & post & Heq).
  rewrite Hr in Heq. simpl in Heq. rewrite Z.add_0_l in Heq.
  exists (init_ops asm A block_type ++ pre),
         (post ++ [OpApply Whole FINAL; OpApply Whole FINAL]).
  rewrite Heq, <- !app_assoc. reflexivity.
Qed.

(** The index sets of the view that a block uses start at its offsets. *)
Lemma mono_block_view bcs r c f :
  OpApply (LocalSub {| is_bs := block_size (map0 f);
                       is_idx := iota (size_all (map0 f)) r |}
                    {| is_bs := block_size (map1 f);
                       is_idx := iota (size_all (map1 f)) c |}) FLUSH
  ∈ mono_block contains world_size bcs r c f.
Proof.
  unfold mono_block. rewrite !elem_of_app. right. left.
  now apply list_elem_of_singleton.
Qed.

(** ** The monolithic branch: what has been done when a null block is met *)







(** ** The discipline of the calls *)

Lemma check_app ops1 : forall p ops2,
  check p (ops1 ++ ops2)
  = match check p ops1 with
    | Some p' => check p' ops2
    | None => None
    end.
Proof.
  induction ops1 as [|op ops1 IH]; intros p ops2; [reflexivity|].
  destruct op as [c|h M r c|h M r c|h t|h]; simpl; auto.
  - destruct (p h) as [[|]|]; auto.
  - destruct (p h) as [[|]|]; auto.
Qed.

Lemma set_pending_eq p h s : set_pending p h s h = s.
Proof. unfold set_pending. now destruct (decide (h = h)). Qed.

Lemma set_pending_ne p h s h' : h' <> h -> set_pending p h s h' = p h'.
Proof. unfold set_pending. intros Hne. now destruct (decide (h' = h)). Qed.

Lemma check_adds h ops : forall p,
  Forall (is_add_on h) ops ->
  p h <> Some SetStyle ->
  exists p', check p ops = Some p' /\ p' h <> Some SetStyle /\
             forall h', h' <> h -> p' h' = p h'.
Proof.
  induction ops as [|op ops IH]; intros p Hall Hp.
  - exists p. auto.
  - apply Forall_cons in Hall as [Hop Hall].
    destruct op as [c|h0 M r c|h0 M r c|h0 t|h0]; simpl in Hop; try contradiction.
    subst h0. simpl.
    destruct (IH (set_pending p h (Some AddStyle)) Hall) as (p' & Hc & Hh & Hother).
    { rewrite set_pending_eq. discriminate. }
    exists p'. split; [|split; [exact Hh|]].
    + destruct (p h) as [[|]|]; auto. congruence.
    + intros h' Hne. rewrite Hother by exact Hne. now apply set_pending_ne.
Qed.

Lemma check_sets h ops : forall p,
  Forall (is_set_on h) ops ->
  p h <> Some AddStyle ->
  exists p', check p ops = Some p' /\ forall h', h' <> h -> p' h' = p h'.
Proof.
  induction ops as [|op ops IH]; intros p Hall Hp.
  - exists p. auto.
  - apply Forall_cons in Hall as [Hop Hall].
    destruct op as [c|h0 M r c|h0 M r c|h0 t|h0]; simpl in Hop; try contradiction.
    subst h0. simpl.
    destruct (IH (set_pending p h (Some SetStyle)) Hall) as (p' & Hc & Hother).
    { rewrite set_pending_eq. discriminate. }
    exists p'. split.
    + destruct (p h) as [[|]|]; auto. congruence.
    + intros h' Hne. rewrite Hother by exact Hne. now apply set_pending_ne.
Qed.

Lemma check_no_sets ops : forall p,
  Forall (fun op => is_set op = false) ops ->
  (forall h, p h <> Some SetStyle) ->
  exists p', check p ops = Some p' /\ forall h, p' h <> Some SetStyle.
Proof.
  induction ops as [|op ops IH]; intros p Hall Hp.
  - exists p. auto.
  - apply Forall_cons in Hall as [Hop Hall].
    destruct op as [c|h0 M r c|h0 M r c|h0 t|h0]; simpl in Hop; try discriminate;
      simpl.
    + apply IH; auto.
    + destruct (IH (set_pending p h0 (Some AddStyle)) Hall) as (p' & Hc & Hh).
      { intros h. unfold set_pending. destruct (decide (h = h0)); [discriminate|auto]. }
      exists p'. split; [|exact Hh].
      specialize (Hp h0). destruct (p h0) as [[|]|]; auto. congruence.
    + apply IH; auto.
      intros h. unfold set_pending. destruct (decide (h = h0)); [discriminate|auto].
    + apply IH; auto.
Qed.

(** A run of [check] that succeeds separates the styles. *)
Lemma check_pending_flushed mid : forall p y post h s1 s2,
  is_Some (check p (mid ++ y :: post)) ->
  p h = Some s1 -> style_of y = Some (h, s2) -> s1 <> s2 ->
  exists t, OpApply h t ∈ mid.
Proof.
  induction mid as [|z mid IH]; intros p y post h s1 s2 [p' Hc] Hp Hy Hne.
  - exfalso. simpl in Hc.
    destruct y as [c|h0 M r c|h0 M r c|h0 t|h0]; simpl in Hy; try discriminate;
      inversion Hy; subst; rewrite Hp in Hc; destruct s1; congruence.
  - simpl in Hc.
    destruct z as [c|h0 M r c|h0 M r c|h0 t|h0].
    + destruct (IH p y post h s1 s2) as [t Ht]; eauto. exists t. now right.
    + destruct (p h0) as [[|]|] eqn:Hp0; try discriminate.
      * destruct (IH (set_pending p h0 (Some AddStyle)) y post h s1 s2)
          as [t Ht]; eauto.
        { unfold set_pending. destruct (decide (h = h0)); congruence. }
        exists t. now right.
      * destruct (IH (set_pending p h0 (Some AddStyle)) y post h s1 s2)
          as [t Ht]; eauto.
        { unfold set_pending. destruct (decide (h = h0)); congruence. }
        exists t. now right.
    + destruct (p h0) as [[|]|] eqn:Hp0; try discriminate.
      * destruct (IH (set_pending p h0 (Some SetStyle)) y post h s1 s2)
          as [t Ht]; eauto.
        { unfold set_pending. destruct (decide (h = h0)); congruence. }
        exists t. now right.
      * destruct (IH (set_pending p h0 (Some SetStyle)) y post h s1 s2)
          as [t Ht]; eauto.
        { unfold set_pending. destruct (decide (h = h0)); congruence. }
        exists t. now right.
    + destruct (decide (h0 = h)) as [->|Hh].
      * exists t. now left.
      * destruct (IH (set_pending p h0 None) y post h s1 s2) as [t' Ht]; eauto.
        { rewrite set_pending_ne by congruence. exact Hp. }
        exists t'. now right.
    + destruct (IH p y post h s1 s2) as [t Ht]; eauto. exists t. now right.
Qed.

Lemma flush_separated_sound ops : flush_separated ops = true -> separated ops.
Proof.
  unfold flush_separated. intros Hc pre x mid y post h s1 s2 -> Hx Hy Hne.
  rewrite check_app in Hc.
  destruct (check nothing_pending pre) as [p1|]; [|discriminate].
  destruct x as [c|h0 M r c|h0 M r c|h0 t|h0]; simpl in Hx; try discriminate;
    inversion Hx; subst; simpl in Hc.
  - apply (check_pending_flushed mid (set_pending p1 h (Some AddStyle))
             y post h AddStyle s2); auto using set_pending_eq.
    destruct (p1 h) as [[|]|]; try discriminate Hc;
      (destruct (check (set_pending p1 h (Some AddStyle)) (mid ++ y :: post));
       [eauto | discriminate Hc]).
  - apply (check_pending_flushed mid (set_pending p1 h (Some SetStyle))
             y post h SetStyle s2); auto using set_pending_eq.
    destruct (p1 h) as [[|]|]; try discriminate Hc;
      (destruct (check (set_pending p1 h (Some SetStyle)) (mid ++ y :: post));
       [eauto | discriminate Hc]).
Qed.

Lemma assemble_form_adds h a bcs :
  Forall (is_add_on h) (assemble_form contains h a bcs).
Proof.
  unfold assemble_form. rewrite Forall_forall. intros op Hin.
  change (map ?f ?l) with (f <$> l) in Hin.
  apply list_elem_of_fmap in Hin as (c & -> & _). reflexivity.
Qed.

Lemma diagonal_set_sets h a bcs :
  Forall (is_set_on h) (diagonal_set contains world_size h a bcs).
Proof.
  rewrite Forall_forall. intros op (_ & d & _ & ->)%diagonal_set_elem. reflexivity.
Qed.

(** A block of calls: insertions, a flush, then [set_local] calls, all on
    a handle with nothing pending. *)
Lemma check_block h adds sets p :
  Forall (is_add_on h) adds -> Forall (is_set_on h) sets ->
  p h = None ->
  exists p', check p (adds ++ [OpApply h FLUSH] ++ sets) = Some p' /\
             forall h', h' <> h -> p' h' = p h'.
Proof.
  intros Ha Hs Hp.
  destruct (check_adds h adds p Ha) as (p1 & Hc1 & _ & Ho1); [congruence|].
  destruct (check_sets h sets (set_pending p1 h None) Hs) as (p2 & Hc2 & Ho2).
  { rewrite set_pending_eq. discriminate. }
  exists p2. split.
  - rewrite check_app, Hc1. simpl. exact Hc2.
  - intros h' Hne. rewrite Ho2, set_pending_ne by exact Hne. now apply Ho1.
Qed.

Lemma check_nest_block bcs i j f p :
  p (NestSub i j) = None ->
  exists p', check p (nest_block contains world_size bcs i j f) = Some p' /\
             forall h', h' <> NestSub i j -> p' h' = p h'.
Proof.
  intros Hp. destruct f as [a|]; simpl.
  - apply check_block; auto using assemble_form_adds, diagonal_set_sets.
  - exists p. auto.
Qed.

Lemma check_nest_row bcs i row : forall j p,
  (forall j', j <= j' -> p (NestSub i j') = None) ->
  exists p', check p (nest_row contains world_size bcs i j row) = Some p' /\
             forall h', (forall j', h' <> NestSub i j') -> p' h' = p h'.
Proof.
  induction row as [|f row IH]; intros j p Hp; simpl.
  - exists p. auto.
  - destruct (check_nest_block bcs i j f p) as (p1 & Hc1 & Ho1); [apply Hp; lia|].
    destruct (IH (S j) p1) as (p2 & Hc2 & Ho2).
    { intros j' Hj. rewrite Ho1 by (intros [=]; lia). apply Hp. lia. }
    exists p2. split.
    + now rewrite check_app, Hc1.
    + intros h' Hh. rewrite Ho2 by exact Hh. apply Ho1, Hh.
Qed.

Lemma check_nest_rows bcs a : forall i p,
  (forall i' j', i <= i' -> p (NestSub i' j') = None) ->
  exists p', check p (nest_rows contains world_size bcs i a) = Some p'.
Proof.
  induction a as [|row a IH]; intros i p Hp; simpl.
  - exists p. auto.
  - destruct (check_nest_row bcs i row 0 p) as (p1 & Hc1 & Ho1);
      [intros j' _; apply Hp; lia|].
    destruct (IH (S i) p1) as (p2 & Hc2).
    { intros i' j' Hi. rewrite Ho1 by (intros j'' [=]; lia). apply Hp. lia. }
    exists p2. now rewrite check_app, Hc1.
Qed.

Lemma diagonal_add_no_set h a bcs n :
  Forall (fun op => is_set op = false) (diagonal_add contains world_size h a bcs n).
Proof.
  unfold diagonal_add. destruct (same_space _ _); [|constructor].
  rewrite Forall_forall. intros op Hin.
  apply list_elem_of_In, in_flat_map in Hin as ([d g] & _ & Hin). simpl in Hin.
  destruct (d <? n); [|destruct Hin]. destruct Hin as [<-|[]]. reflexivity.
Qed.

Lemma assemble_form_no_set h a bcs :
  Forall (fun op => is_set op = false) (assemble_form contains h a bcs).
Proof.
  eapply Forall_impl; [apply assemble_form_adds|].
  intros [c|h0 M r c|h0 M r c|h0 t|h0]; simpl; auto; contradiction.
Qed.

Lemma mono_block_no_set bcs r c f :
  Forall (fun op => is_set op = false) (mono_block contains world_size bcs r c f).
Proof.
  unfold mono_block. rewrite !Forall_app.
  split; [apply assemble_form_no_set|]. split; [repeat constructor|].
  split; [apply diagonal_add_no_set | repeat constructor].
Qed.

Lemma mono_row_no_set bcs r row : forall c,
  Forall (fun op => is_set op = false)
         (fst (mono_row contains world_size bcs r c row)).
Proof.
  induction row as [|[a|] row IH]; intros c; simpl; try constructor.
  rewrite Forall_app. split; [apply mono_block_no_set | apply IH].
Qed.

Lemma mono_rows_no_set bcs a : forall r,
  Forall (fun op => is_set op = false)
         (fst (mono_rows contains world_size bcs r a)).
Proof.
  induction a as [|row a IH]; intros r; simpl; [constructor|].
  pose proof (mono_row_no_set bcs r row 0%Z) as Hrow.
  destruct (mono_row contains world_size bcs r 0 row) as [ops out].
  simpl in Hrow. destruct out; auto.
  destruct row as [|[a0|] row]; auto. simpl.
  rewrite Forall_app. split; [exact Hrow | apply IH].
Qed.

(** ** Counting the final synchronisations *)

Lemma count_final_app ops1 ops2 :
  count_final (ops1 ++ ops2) = count_final ops1 + count_final ops2.
Proof. unfold count_final. now rewrite List.filter_app, length_app. Qed.

Lemma count_final_none ops :
  Forall (fun op => is_final op = false) ops -> count_final ops = 0.
Proof.
  unfold count_final. induction 1 as [|op ops Hop _ IH]; [reflexivity|].
  simpl. now rewrite Hop.
Qed.

Lemma init_ops_not_final asm A block_type :
  Forall (fun op => is_final op = false) (init_ops asm A block_type).
Proof. unfold init_ops. destruct A; repeat constructor. Qed.

Lemma assemble_form_not_final h a bcs :
  Forall (fun op => is_final op = false) (assemble_form contains h a bcs).
Proof.
  eapply Forall_impl; [apply assemble_form_adds|].
  intros [c|h0 M r c|h0 M r c|h0 t|h0]; simpl; auto; contradiction.
Qed.

Lemma diagonal_set_not_final h a bcs :
  Forall (fun op => is_final op = false) (diagonal_set contains world_size h a bcs).
Proof.
  eapply Forall_impl; [apply diagonal_set_sets|].
  intros [c|h0 M r c|h0 M r c|h0 t|h0]; simpl; auto; contradiction.
Qed.

Lemma nest_block_not_final bcs i j f :
  Forall (fun op => is_final op = false) (nest_block contains world_size bcs i j f).
Proof.
  destruct f as [a|]; simpl; [|constructor].
  rewrite Forall_app, Forall_cons.
  auto using assemble_form_not_final, diagonal_set_not_final.
Qed.

Lemma nest_row_not_final bcs i row : forall j,
  Forall (fun op => is_final op = false) (nest_row contains world_size bcs i j row).
Proof.
  induction row as [|f row IH]; intros j; simpl; [constructor|].
  rewrite Forall_app. auto using nest_block_not_final.
Qed.

Lemma nest_rows_not_final bcs a : forall i,
  Forall (fun op => is_final op = false) (nest_rows contains world_size bcs i a).
Proof.
  induction a as [|row a IH]; intros i; simpl; [constructor|].
  rewrite Forall_app. auto using nest_row_not_final.
Qed.

Lemma check_init asm A block_type p :
  check p (init_ops asm A block_type) = Some p.
Proof. unfold init_ops. now destruct A. Qed.

Lemma flush_separated_nested asm A block_type :
  flush_separated
    (init_ops asm A block_type
       ++ nest_rows contains world_size (_bcs asm) 0 (_a asm)
       ++ [OpApply Whole FINAL]) = true.
Proof.
  unfold flush_separated. rewrite check_app, check_init.
  destruct (check_nest_rows (_bcs asm) (_a asm) 0 nothing_pending) as (p & Hp);
    [reflexivity|].
  now rewrite check_app, Hp.
Qed.

Lemma flush_separated_monolithic asm A block_type r :
  flush_separated
    (init_ops asm A block_type
       ++ fst (mono_rows contains world_size (_bcs asm) r (_a asm))
       ++ [OpApply Whole FINAL] ++ [OpApply Whole FINAL]) = true.
Proof.
  unfold flush_separated.
  edestruct (check_no_sets) as (p & -> & _); [| |reflexivity].
  - rewrite !Forall_app. split; [|split; [apply mono_rows_no_set|]].
    + unfold init_ops. destruct A; repeat constructor.
    + repeat constructor.
  - intros h. discriminate.
Qed.

Lemma flush_separated_single asm A block_type a :
  flush_separated
    (init_ops asm A block_type ++ single_ops contains world_size (_bcs asm) a
       ++ [OpApply Whole FINAL]) = true.
Proof.
  unfold flush_separated, single_ops. rewrite check_app, check_init.
  destruct (check_block Whole (assemble_form contains Whole a (_bcs asm))
              (diagonal_set contains world_size Whole a (_bcs asm)) nothing_pending)
    as (p & Hp & _);
    auto using assemble_form_adds, diagonal_set_sets.
  now rewrite check_app, Hp.
Qed.

(** The calls of a matrix assembly that ends normally. *)
Lemma matrix_calls asm A block_type :
  let bcs := _bcs asm in
  let r := assemble_matrix contains world_size asm A block_type in
  snd r = Done ->
  flush_separated (fst r) = true /\
  (exists pre,
     fst r = pre ++ [OpApply Whole FINAL] /\
     (storage asm A block_type = MATNEST \/ block_matrix asm = false ->
      count_final pre = 0)) /\
  (storage asm A block_type = MATNEST ->
   forall i j row f, _a asm !! i = Some row -> row !! j = Some (Some f) ->
     flushed_between (fst r)
       (assemble_form contains (NestSub i j) f bcs) (NestSub i j)
       (diagonal_set contains world_size (NestSub i j) f bcs)) /\
  (storage asm A block_type = MATAIJ -> block_matrix asm = true ->
   forall i j row f, _a asm !! i = Some row -> row !! j = Some (Some f) ->
     let mat := view (row_offset size_all (_a asm) i)
                     (col_offset size_all row j) f in
     flushed_between (fst r)
       (assemble_form contains mat f bcs) mat
       (diagonal_add contains world_size mat f bcs (size_owned (map0 f)))) /\
  (storage asm A block_type = MATAIJ -> block_matrix asm = false ->
   forall f, first_block asm = Some f ->
     flushed_between (fst r)
       (assemble_form contains Whole f bcs) Whole
       (diagonal_set contains world_size Whole f bcs)).
Proof.
  intros bcs r Hdone. unfold r in *.
  rewrite assemble_matrix_ended in * by (rewrite Hdone; discriminate).
  revert Hdone. unfold matrix_branches. fold bcs.
  destruct (storage asm A block_type) eqn:Hst; cbn [is_matnest].
  - (* nested *)
    intros _. cbn [fst snd].
    split; [apply flush_separated_nested|]. split; [|split; [|split]].
    + exists (init_ops asm A block_type ++ nest_rows contains world_size bcs 0 (_a asm)).
      split; [now rewrite <- app_assoc|]. intros _.
      rewrite count_final_app, !count_final_none;
        auto using init_ops_not_final, nest_rows_not_final.
    + intros _ i j row f Ha Hl.
      destruct (nest_rows_occurs bcs (_a asm) 0 i j row (Some f) Ha Hl)
        as (pre & post & Heq).
      exists (init_ops asm A block_type ++ pre), (post ++ [OpApply Whole FINAL]).
      rewrite Heq. simpl. now rewrite <- !app_assoc.
    + discriminate.
    + discriminate.
  - destruct (block_matrix asm) eqn:Hbm.
    + (* monolithic *)
      pose proof (flush_separated_monolithic asm A block_type 0%Z) as Hfs.
      pose proof (mono_rows_occurs bcs (_a asm) 0%Z) as Hocc.
      fold bcs in Hfs.
      destruct (mono_rows contains world_size bcs 0 (_a asm)) as [ops out].
      destruct out; [|discriminate|discriminate]. intros _. cbn [fst snd] in *.
      split; [exact Hfs|]. split; [|split; [|split]].
      * exists (init_ops asm A block_type ++ ops ++ [OpApply Whole FINAL]).
        split; [now rewrite <- !app_assoc|]. intros [?|?]; discriminate.
      * discriminate.
      * intros _ _ i j row f Ha Hl.
        destruct (Hocc i j row f eq_refl Ha Hl) as (pre & post & Heq).
        rewrite Z.add_0_l in Heq.
        set (mat := view (row_offset size_all (_a asm) i)
                         (col_offset size_all row j) f).
        exists (init_ops asm A block_type ++ pre),
               ([OpRestore mat] ++ post ++ [OpApply Whole FINAL; OpApply Whole FINAL]).
        rewrite Heq. unfold mono_block. cbv zeta. fold mat.
        rewrite <- !app_assoc. reflexivity.
      * discriminate.
    + (* single *)
      destruct (first_block asm) as [a|] eqn:Hfb; [|discriminate].
      intros _. cbn [fst snd].
      split; [apply flush_separated_single|]. split; [|split; [|split]].
      * exists (init_ops asm A block_type ++ single_ops contains world_size bcs a).
        split; [now rewrite <- app_assoc|]. intros _.
        unfold single_ops.
        rewrite !count_final_app, !count_final_none;
          auto using init_ops_not_final, assemble_form_not_final,
            diagonal_set_not_final.
      * discriminate.
      * discriminate.
      * intros _ _ f [= <-].
        exists (init_ops asm A block_type), [OpApply Whole FINAL].
        unfold single_ops. simpl. now rewrite <- !app_assoc.
Qed.

(** The flush discipline.  When the matrix assembly ends normally:
    between two insertion calls of different style ([add_local],
    [set_local]) on one matrix there is a synchronisation of that matrix;
    for every block, the insertions of the cells are followed by a flush
    of the block's matrix and then by the insertions of the unit
    diagonal; the last call is the final synchronisation of [A], and
    under nested and under single storage no other final synchronisation
    is made. *)
Lemma flush_discipline asm A block_type :
  let bcs := _bcs asm in
  let r := assemble_matrix contains world_size asm A block_type in
  snd r = Done ->
  separated (fst r) /\
  (exists pre,
     fst r = pre ++ [OpApply Whole FINAL] /\
     (storage asm A block_type = MATNEST \/ block_matrix asm = false ->
      count_final pre = 0)) /\
  (storage asm A block_type = MATNEST ->
   forall i j row f, _a asm !! i = Some row -> row !! j = Some (Some f) ->
     flushed_between (fst r)
       (assemble_form contains (NestSub i j) f bcs) (NestSub i j)
       (diagonal_set contains world_size (NestSub i j) f bcs)) /\
  (storage asm A block_type = MATAIJ -> block_matrix asm = true ->
   forall i j row f, _a asm !! i = Some row -> row !! j = Some (Some f) ->
     let mat := view (row_offset size_all (_a asm) i)
                     (col_offset size_all row j) f in
     flushed_between (fst r)
       (assemble_form contains mat f bcs) mat
       (diagonal_add contains world_size mat f bcs (size_owned (map0 f)))) /\
  (storage asm A block_type = MATAIJ -> block_matrix asm = false ->
   forall f, first_block asm = Some f ->
     flushed_between (fst r)
       (assemble_form contains Whole f bcs) Whole
       (diagonal_set contains world_size Whole f bcs)).
Proof.
  intros bcs r Hd.
  destruct (matrix_calls asm A block_type Hd) as (Hfs & Hrest).
  split; [now apply flush_separated_sound | exact Hrest].
Qed.

(** ** Boundary maps: the last write wins *)

Lemma merge_values_app l1 l2 (bv : Map) :
  merge_values (l1 ++ l2) bv = merge_values l2 (merge_values l1 bv).
Proof. unfold merge_values. apply fold_left_app. Qed.

Lemma merge_values_notin l : forall (bv : Map) d,
  d ∉ l.*1 -> merge_values l bv !! d = bv !! d.
Proof.
  induction l as [|[k v] l IH]; intros bv d Hd; [reflexivity|].
  rewrite fmap_cons, not_elem_of_cons in Hd. destruct Hd as [Hne Hd].
  change (merge_values ((k, v) :: l) bv) with (merge_values l (<[k := v]> bv)).
  rewrite IH by exact Hd. simpl in Hne. now rewrite lookup_insert_ne.
Qed.

Lemma merge_values_last pre d g post (bv : Map) :
  d ∉ post.*1 -> merge_values (pre ++ (d, g) :: post) bv !! d = Some g.
Proof.
  intros Hd. rewrite merge_values_app.
  change (merge_values ((d, g) :: post) ?m) with (merge_values post (<[d := g]> m)).
  rewrite merge_values_notin by exact Hd. apply lookup_insert_eq.
Qed.

Lemma collect_spec comm space bv bc :
  collect contains comm space bv bc
  = merge_values (collected_values contains comm space bc) bv.
Proof.
  unfold collect, collected_values, get_boundary_values, gather.
  destruct (contains space (bc_function_space bc)); [|reflexivity].
  destruct ((1 <? comm) && negb (is_pointwise (method bc))).
  - now rewrite merge_values_app.
  - now rewrite app_nil_r.
Qed.

Lemma boundary_values_spec comm space bcs :
  boundary_values contains comm space bcs
  = merge_values (prescriptions contains comm space bcs) ∅.
Proof.
  unfold boundary_values, prescriptions. generalize (∅ : Map).
  induction bcs as [|bc bcs IH]; intros m; simpl; [reflexivity|].
  now rewrite IH, collect_spec, merge_values_app.
Qed.

(** ** [set_bc]: the writes *)

Lemma set_fold_length offset size (kvs : list (nat * float)) :
  forall values : list float,
  length (fold_left (fun vals bc =>
                       if fst bc <? size
                       then <[offset + fst bc := snd bc]> vals else vals)
                    kvs values)
  = length values.
Proof.
  induction kvs as [|[k v] kvs IH]; intros values; simpl; [reflexivity|].
  rewrite IH. destruct (k <? size); [apply length_insert | reflexivity].
Qed.

Lemma set_fold_other offset size (kvs : list (nat * float)) idx :
  forall values : list float,
  (forall k v, (k, v) ∈ kvs -> k < size -> offset + k <> idx) ->
  fold_left (fun vals bc =>
               if fst bc <? size
               then <[offset + fst bc := snd bc]> vals else vals)
            kvs values !! idx
  = values !! idx.
Proof.
  induction kvs as [|[k v] kvs IH]; intros values Hk; simpl; [reflexivity|].
  rewrite IH by (intros k' v' Hin; apply (Hk k' v'); now right).
  destruct (Nat.ltb_spec k size) as [Hlt|]; [|reflexivity].
  apply list_lookup_insert_ne. apply (Hk k v); [now left | exact Hlt].
Qed.

Lemma set_fold_lookup offset size (kvs : list (nat * float)) d g :
  forall values : list float,
  NoDup kvs.*1 -> (d, g) ∈ kvs -> d < size -> offset + d < length values ->
  fold_left (fun vals bc =>
               if fst bc <? size
               then <[offset + fst bc := snd bc]> vals else vals)
            kvs values !! (offset + d)
  = Some g.
Proof.
  induction kvs as [|[k v] kvs IH]; intros values Hnd Hin Hd Hlen.
  - inversion Hin.
  - rewrite fmap_cons in Hnd. apply NoDup_cons in Hnd as [Hk Hnd]. simpl in Hk |- *.
    apply elem_of_cons in Hin as [[= <- <-]|Hin].
    + rewrite set_fold_other.
      * apply Nat.ltb_lt in Hd. rewrite Hd. now apply list_lookup_insert_eq.
      * intros k' v' Hin' _ Heq. apply Hk.
        assert (k' = d) as -> by lia.
        apply list_elem_of_fmap. now exists (d, v').
    + apply IH; auto.
      destruct (k <? size); [now rewrite length_insert | exact Hlen].
Qed.

Lemma set_bc_length offset size values L bcs :
  length (set_bc contains offset size values L bcs) = length values.
Proof. apply set_fold_length. Qed.

Lemma set_bc_lookup offset size values L bcs d g :
  boundary_values contains (mpi_comm_size (mesh L)) (function_space0 L) bcs !! d
  = Some g ->
  d < size -> offset + d < length values ->
  set_bc contains offset size values L bcs !! (offset + d) = Some g.
Proof.
  intros Hbv Hd Hlen. unfold set_bc. apply set_fold_lookup; auto.
  - apply NoDup_fst_map_to_list.
  - now apply elem_of_map_to_list.
Qed.

Lemma set_bc_outside offset size values L bcs idx :
  (idx < offset \/ offset + size <= idx) ->
  set_bc contains offset size values L bcs !! idx = values !! idx.
Proof.
  intros Hidx. unfold set_bc. apply set_fold_other. intros k v _ Hk. lia.
Qed.

(** ** Lengths *)

Lemma assemble_cell_vector_length L c b :
  length (assemble_cell_vector L b c) = length b.
Proof.
  unfold assemble_cell_vector.
  generalize (seq 0 (length (cell_dofs (dofmap (function_space0 L)) c))).
  intros idx. revert b.
  induction idx as [|i idx IH]; intros b; simpl; [reflexivity|].
  rewrite IH.
  destruct (_ !! i); [|reflexivity]. destruct (_ !! i); [|reflexivity].
  apply length_alter.
Qed.

Lemma assemble_linear_length L b : length (assemble_linear b L) = length b.
Proof.
  unfold assemble_linear. generalize (seq 0 (num_cells (mesh L))). intros cs.
  revert b. induction cs as [|c cs IH]; intros b; simpl; [reflexivity|].
  now rewrite IH, assemble_cell_vector_length.
Qed.

Lemma ghost_update_length i v :
  length (array (ghost_update scatter_reverse_add i v)) = length (array v).
Proof. unfold ghost_update. simpl. apply length_imap. Qed.

Lemma copy_entries_length b_vec src dst n : forall values,
  length (copy_entries b_vec src dst n values) = length values.
Proof.
  unfold copy_entries. generalize (seq 0 n). intros idx.
  induction idx as [|j idx IH]; intros values; simpl; [reflexivity|].
  rewrite IH. destruct (b_vec !! (src + j)); [apply length_insert | reflexivity].
Qed.

Lemma sum_sizes_from size (Ls : list Form) : forall s,
  fold_left (fun s L => s + size L) Ls s = s + sum_sizes size Ls.
Proof.
  unfold sum_sizes. induction Ls as [|L Ls IH]; intros s; simpl; [lia|].
  rewrite IH, (IH (size L)). lia.
Qed.

Lemma sum_sizes_cons size L (Ls : list Form) :
  sum_sizes size (L :: Ls) = size L + sum_sizes size Ls.
Proof. unfold sum_sizes at 1. simpl. apply sum_sizes_from. Qed.

(** ** The nested branch of the vector assembly *)

Lemma nest_vector_block_other Ls bcs subs i k :
  k <> i ->
  nest_vector_block contains scatter_reverse_add Ls bcs subs i !! k = subs !! k.
Proof.
  intros Hne. unfold nest_vector_block.
  destruct (Ls !! i); [|reflexivity]. destruct (subs !! i); [|reflexivity].
  now apply list_lookup_insert_ne.
Qed.

Lemma nest_vector_block_at Ls bcs subs i L sub_b :
  Ls !! i = Some L -> subs !! i = Some sub_b ->
  exists arr,
    length arr = length (array sub_b) /\
    nest_vector_block contains scatter_reverse_add Ls bcs subs i !! i
    = Some {| local_size := local_size sub_b;
              array := set_bc contains 0 (local_size sub_b) arr L bcs |}.
Proof.
  intros HL Hs. unfold nest_vector_block. rewrite HL, Hs.
  eexists. split; [|apply list_lookup_insert_eq; eapply lookup_lt_Some; eauto].
  rewrite ghost_update_length. simpl. apply assemble_linear_length.
Qed.

Lemma nest_fold_other Ls bcs idx : forall subs k,
  k ∉ idx ->
  fold_left (nest_vector_block contains scatter_reverse_add Ls bcs) idx subs !! k
  = subs !! k.
Proof.
  induction idx as [|i idx IH]; intros subs k Hk; simpl; [reflexivity|].
  apply not_elem_of_cons in Hk as [Hne Hk].
  rewrite IH by exact Hk. now apply nest_vector_block_other.
Qed.

Lemma nest_fold_at Ls bcs idx : forall subs i L sub_b,
  NoDup idx -> i ∈ idx -> Ls !! i = Some L -> subs !! i = Some sub_b ->
  exists arr,
    length arr = length (array sub_b) /\
    fold_left (nest_vector_block contains scatter_reverse_add Ls bcs) idx subs !! i
    = Some {| local_size := local_size sub_b;
              array := set_bc contains 0 (local_size sub_b) arr L bcs |}.
Proof.
  induction idx as [|k idx IH]; intros subs i L sub_b Hnd Hin HL Hs.
  - inversion Hin.
  - apply NoDup_cons in Hnd as [Hk Hnd]. simpl.
    destruct (decide (i = k)) as [->|Hne].
    + rewrite nest_fold_other by exact Hk. now apply nest_vector_block_at.
    + apply elem_of_cons in Hin as [Hin|Hin]; [contradiction|].
      apply IH; auto. now rewrite nest_vector_block_other.
Qed.

(** ** The monolithic branch of the vector assembly *)

Lemma mono_vector_block_length Ls i values :
  length (mono_vector_block Ls values i) = length values.
Proof.
  unfold mono_vector_block. destruct (Ls !! i); [|reflexivity].
  now rewrite !copy_entries_length.
Qed.

Lemma mono_vector_fold_length Ls idx : forall values,
  length (fold_left (mono_vector_block Ls) idx values) = length values.
Proof.
  induction idx as [|i idx IH]; intros values; simpl; [reflexivity|].
  now rewrite IH, mono_vector_block_length.
Qed.


Lemma mono_set_fold_below bcs Ls : forall off values idx,
  idx < off ->
  snd (fold_left (mono_set_bc contains bcs) Ls (off, values)) !! idx
  = values !! idx.
Proof.
  induction Ls as [|L Ls IH]; intros off values idx Hidx; simpl; [reflexivity|].
  rewrite IH by lia. apply set_bc_outside. now left.
Qed.

Lemma mono_set_fold_lookup bcs Ls : forall off values i L d g,
  Ls !! i = Some L ->
  boundary_values contains (mpi_comm_size (mesh L)) (function_space0 L) bcs !! d
  = Some g ->
  d < owned L ->
  off + sum_sizes owned Ls <= length values ->
  snd (fold_left (mono_set_bc contains bcs) Ls (off, values))
    !! (off + sum_sizes owned (take i Ls) + d)
  = Some g.
Proof.
  induction Ls as [|L0 Ls IH]; intros off values i L d g HL Hbv Hd Hlen;
    [discriminate|].
  rewrite sum_sizes_cons in Hlen. destruct i as [|i]; simpl in HL |- *.
  - injection HL as ->. rewrite mono_set_fold_below by (unfold sum_sizes; simpl; lia).
    unfold sum_sizes. simpl. rewrite Nat.add_0_r.
    apply set_bc_lookup; auto. lia.
  - rewrite sum_sizes_cons.
    replace (off + (owned L0 + sum_sizes owned (take i Ls)) + d)
      with (off + owned L0 + sum_sizes owned (take i Ls) + d) by lia.
    apply IH with (L := L); auto. rewrite set_bc_length. lia.
Qed.

Lemma check_forms_length l : forall Ls,
  check_forms l = Some Ls -> length Ls = length l.
Proof.
  induction l as [|[L|] l IH]; intros Ls; simpl.
  - now intros [= <-].
  - destruct (check_forms l) as [Ls'|]; [|discriminate].
    intros [= <-]. simpl. now rewrite (IH Ls').
  - discriminate.
Qed.

Lemma init_nest_well_sized Ls : well_sized Ls (init_nest Ls).
Proof.
  unfold init_nest. simpl. induction Ls as [|L Ls IH]; simpl; constructor; auto.
  simpl. split; [reflexivity|]. rewrite length_replicate. lia.
Qed.


(** ** [apply_bc]: where the eliminated columns go *)

Lemma apply_bc_rows a bcs be rows :
  VOpAddLocal be rows ∈ apply_bc contains a bcs ->
  exists c,
    c < num_cells (mesh a) /\
    rows = cell_dofs (dofmap (function_space1 a)) c /\
    cell_has_bc (boundary_values contains (mpi_comm_size (mesh a))
                   (function_space1 a) bcs) rows = true.
Proof.
  unfold apply_bc. rewrite elem_of_app, list_elem_of_singleton.
  intros [Hin|Hin]; [|discriminate].
  apply list_elem_of_In, in_flat_map in Hin as (c & Hc & Hin).
  apply in_seq in Hc. exists c. split; [lia|].
  unfold apply_bc_cell in Hin.
  destruct (cell_has_bc _ _) eqn:Hb; simpl in Hin; [|contradiction].
  destruct Hin as [[= <- <-]|[]]. auto.
Qed.

Lemma apply_bc_skips a bv c :
  cell_has_bc bv (cell_dofs (dofmap (function_space1 a)) c) = false ->
  apply_bc_cell a bv c = [].
Proof. intros H. unfold apply_bc_cell. now rewrite H. Qed.

End WithEnv.

(** ** The claims on the example data *)

(** C1, the failing case.  In the single-block path over the space [V],
    whose dof 2 is a ghost on this rank (two entries are owned), with a
    boundary condition on dof 2, the unit value is set on the diagonal
    entry of dof 2 as well: not only the boundary dofs that the rank owns
    receive it. *)
Theorem single_block_sets_ghost_diagonal :
  let r := assemble_matrix same_space 2 asm_single None monolithic in
  size_owned (map0 a_VV) = 2 /\
  (2 <? size_owned (map0 a_VV)) = false /\
  snd r = Done /\
  OpSetLocal Whole unit_block [2] [2] ∈ fst r.
Proof.
  intros r. split; [reflexivity|]. split; [reflexivity|]. split; [reflexivity|].
  vm_compute. repeat constructor.
Qed.

(** The single-block path on the example that has a ghost dof. *)
Lemma single_block_assembly_witness :
  storage asm_single None monolithic = MATAIJ /\
  block_matrix asm_single = false /\
  first_block asm_single = Some a_VV /\
  exists adds sets,
    assemble_matrix same_space 2 asm_single None monolithic
    = (init_ops asm_single None monolithic ++ adds ++ [OpApply Whole FLUSH]
         ++ sets ++ [OpApply Whole FINAL], Done) /\
    length adds = 2.
Proof.
  split; [reflexivity|]. split; [reflexivity|]. split; [reflexivity|].
  destruct (single_block_assembly same_space 2 asm_single None monolithic a_VV
              eq_refl eq_refl eq_refl) as (adds & sets & H1 & H2 & _).
  exists adds, sets. split; [exact H1 | exact H2].
Defined.

(** The order matters: were the ghost values added after the overwrite,
    the prescribed entry would be spoiled. *)
Example reduce_after_overwrite_spoils :
  let v := zero_vec 2 1 in
  let written := with_array v (set_bc same_space 0 2 (array v) L_V [bc_left]) in
  array written !! 0 = Some 3%float /\
  array (ghost_update receive_one 0 written) !! 0 = Some 4%float.
Proof. split; reflexivity. Qed.

(** C3, the failing case.  For a form with the linear elements as test
    space and the discontinuous ones as trial space, and the trial dof 3
    prescribed to 5, the second cell has the test dofs [1, 2] and the
    trial dofs [2, 3]; the eliminated column is added to the vector at
    the trial dofs. *)
Theorem apply_bc_adds_at_trial_dofs :
  cell_dofs (dofmap (function_space0 a_VW)) 1 = [1; 2] /\
  cell_dofs (dofmap (function_space1 a_VW)) 1 = [2; 3] /\
  apply_bc same_space a_VW [bc_W]
  = [VOpAddLocal [5%float; (-5)%float] [2; 3]; VOpApply].
Proof. repeat split. Qed.

(** C5 as stated fails: with one ghost entry in [V], block [(0, 1)] of a
    two by two system is not addressed at the sum of the owned sizes of
    the preceding column block. *)
Lemma monolithic_offsets_not_owned :
  ~ blocks_at_offsets same_space 2 size_owned (_bcs asm_square) (_a asm_square)
      (fst (assemble_matrix same_space 2 asm_square None monolithic)).
Proof.
  intros H.
  destruct (H 0 1 [Some a_VV; Some a_VV] a_VV eq_refl eq_refl)
    as (pre & post & Heq).
  assert (Hin : OpApply (view (row_offset size_owned (_a asm_square) 0)
                              (col_offset size_owned [Some a_VV; Some a_VV] 1)
                              a_VV) FLUSH
                ∈ fst (assemble_matrix same_space 2 asm_square None monolithic)).
  { rewrite Heq. apply elem_of_app. right. apply elem_of_app. left.
    apply (mono_block_view same_space 2). }
  vm_compute in Hin.
  repeat (apply elem_of_cons in Hin as [Hin|Hin]; [discriminate Hin|]).
  inversion Hin.
Qed.

(** C5, as amended, on the two by two system. *)
Lemma monolithic_offsets_witness :
  blocks_at_offsets same_space 2 size_all (_bcs asm_square) (_a asm_square)
    (fst (assemble_matrix same_space 2 asm_square None monolithic)).
Proof.
  apply (monolithic_offsets same_space 2 asm_square None monolithic); reflexivity.
Defined.



(** C9, the failing case.  On the two by two system, with an empty [A]
    and merged storage, the call ends normally and the final
    synchronisation of [A] is made twice, by the last two calls; under
    nested storage of the same system, and for the single block, it is
    made once. *)
Theorem monolithic_final_applied_twice :
  let r := assemble_matrix same_space 2 asm_square None monolithic in
  snd r = Done /\
  count_final (fst r) = 2 /\
  (exists pre, fst r = pre ++ [OpApply Whole FINAL; OpApply Whole FINAL]) /\
  count_final (fst (assemble_matrix same_space 2 asm_square None nested)) = 1 /\
  count_final (fst (assemble_matrix same_space 2 asm_single None monolithic)) = 1.
Proof.
  intros r. split; [reflexivity|]. split; [reflexivity|].
  split; [|split; reflexivity].
  exists (removelast (removelast (fst r))). vm_compute. reflexivity.
Qed.

(** The flush discipline on the two by two system under nested
    storage. *)
Lemma flush_discipline_witness :
  separated (fst (assemble_matrix same_space 2 asm_square None nested)).
Proof.
  apply (flush_discipline same_space 2 asm_square None nested). reflexivity.
Defined.

End AssemblerProofs.

(* ===================================================================== *)
(** * Further properties of the assembler                                 *)
(* ===================================================================== *)

Module AssemblerExtra.
Import Assembler AssemblerReading AssemblerProofs.
Local Open Scope nat_scope.

(** ** The element matrix that is inserted, entry by entry *)

Lemma zero_row_entry_exact M k i j :
  entry (zero_row M k) i j
  = if decide (i = k) then (fun _ => 0%float) <$> entry M i j else entry M i j.
Proof.
  unfold zero_row, entry. destruct (decide (i = k)) as [->|Hne].
  - rewrite list_lookup_alter_eq. destruct (M !! k) as [r|]; [|reflexivity]. simpl.
    change (map (fun _ : float => 0%float) r) with ((fun _ : float => 0%float) <$> r).
    apply list_lookup_fmap.
  - now rewrite list_lookup_alter_ne by auto.
Qed.

Lemma zero_col_entry_exact M k i j :
  entry (zero_col M k) i j
  = if decide (j = k) then (fun _ => 0%float) <$> entry M i j else entry M i j.
Proof.
  unfold zero_col, entry.
  change (map (fun row : list float => <[k := 0%float]> row) M)
    with ((fun row : list float => <[k := 0%float]> row) <$> M).
  rewrite list_lookup_fmap. destruct (M !! i) as [r|]; [|now destruct (decide (j = k))].
  simpl. destruct (decide (j = k)) as [->|Hne].
  - destruct (r !! k) as [x|] eqn:Hx; simpl.
    + apply list_lookup_insert_eq. eapply lookup_lt_Some; eauto.
    + apply lookup_ge_None. rewrite length_insert. now apply lookup_ge_None.
  - now rewrite list_lookup_insert_ne by auto.
Qed.

Lemma zero_rows_fold_exact (bv : Map) (dmap0 : list nat) (idx : list nat) :
  forall M i j,
  entry (fold_left (fun M i =>
                      match dmap0 !! i with
                      | Some ii => if has_key bv ii then zero_row M i else M
                      | None => M
                      end) idx M) i j
  = if bool_decide (i ∈ idx) && local_bc bv dmap0 i
    then (fun _ => 0%float) <$> entry M i j
    else entry M i j.
Proof.
  unfold local_bc. induction idx as [|k idx IH]; intros M i j; [reflexivity|].
  cbn [fold_left]. rewrite IH.
  assert (Hstep : entry (match dmap0 !! k with
                         | Some ii => if has_key bv ii then zero_row M k else M
                         | None => M
                         end) i j
                  = if decide (i = k)
                    then (if match dmap0 !! k with
                             | Some ii => has_key bv ii | None => false end
                          then (fun _ => 0%float) <$> entry M i j
                          else entry M i j)
                    else entry M i j).
  { destruct (dmap0 !! k) as [kk|]; [|now destruct (decide (i = k))].
    destruct (has_key bv kk); [|now destruct (decide (i = k))].
    rewrite zero_row_entry_exact. now destruct (decide (i = k)). }
  rewrite Hstep. clear Hstep.
  destruct (decide (i = k)) as [->|Hne].
  - rewrite (bool_decide_eq_true_2 (k ∈ k :: idx)) by now left.
    destruct (match dmap0 !! k with Some ii => has_key bv ii | None => false end);
      simpl; [|now rewrite andb_false_r].
    rewrite andb_true_r. destruct (bool_decide (k ∈ idx)); [|reflexivity].
    now destruct (entry M k j).
  - assert (Hb : bool_decide (i ∈ k :: idx) = bool_decide (i ∈ idx)).
    { apply bool_decide_ext. rewrite elem_of_cons. intuition congruence. }
    now rewrite Hb.
Qed.

Lemma zero_cols_fold_exact (bv : Map) (dmap1 : list nat) (idx : list nat) :
  forall M i j,
  entry (fold_left (fun M j =>
                      match dmap1 !! j with
                      | Some jj => if has_key bv jj then zero_col M j else M
                      | None => M
                      end) idx M) i j
  = if bool_decide (j ∈ idx) && local_bc bv dmap1 j
    then (fun _ => 0%float) <$> entry M i j
    else entry M i j.
Proof.
  unfold local_bc. induction idx as [|k idx IH]; intros M i j; [reflexivity|].
  cbn [fold_left]. rewrite IH.
  assert (Hstep : entry (match dmap1 !! k with
                         | Some jj => if has_key bv jj then zero_col M k else M
                         | None => M
                         end) i j
                  = if decide (j = k)
                    then (if match dmap1 !! k with
                             | Some jj => has_key bv jj | None => false end
                          then (fun _ => 0%float) <$> entry M i j
                          else entry M i j)
                    else entry M i j).
  { destruct (dmap1 !! k) as [kk|]; [|now destruct (decide (j = k))].
    destruct (has_key bv kk); [|now destruct (decide (j = k))].
    rewrite zero_col_entry_exact. now destruct (decide (j = k)). }
  rewrite Hstep. clear Hstep.
  destruct (decide (j = k)) as [->|Hne].
  - rewrite (bool_decide_eq_true_2 (k ∈ k :: idx)) by now left.
    destruct (match dmap1 !! k with Some jj => has_key bv jj | None => false end);
      simpl; [|now rewrite andb_false_r].
    rewrite andb_true_r. destruct (bool_decide (k ∈ idx)); [|reflexivity].
    now destruct (entry M i k).
  - assert (Hb : bool_decide (j ∈ k :: idx) = bool_decide (j ∈ idx)).
    { apply bool_decide_ext. rewrite elem_of_cons. intuition congruence. }
    now rewrite Hb.
Qed.

Lemma element_matrix_entry a c rows cols i j :
  i < rows -> j < cols ->
  entry (element_matrix a c rows cols) i j
  = Some (tabulate_tensor a c (i * cols + j)).
Proof.
  intros Hi Hj. unfold entry, element_matrix.
  change (map ?f ?l) with (f <$> l). rewrite list_lookup_fmap, lookup_seq_lt by exact Hi.
  simpl. change (map ?f ?l) with (f <$> l).
  now rewrite list_lookup_fmap, lookup_seq_lt by exact Hj.
Qed.

Section WithEnv.

Variable contains : FunctionSpace -> FunctionSpace -> bool.
Variable world_size : nat.
Variable scatter_reverse_add : nat -> nat -> float -> float.

(** X1.  [assemble(A, a, bcs)]: the block that is added for cell [c] holds
    at [(i, j)] zero when the dof of row [i] is prescribed in the test
    space or the dof of column [j] is prescribed in the trial space, and
    the value of the kernel, unchanged, otherwise. *)
Theorem inserted_block_entries h a bcs c i j ii jj :
  c < num_cells (mesh a) ->
  cell_dofs (dofmap (function_space0 a)) c !! i = Some ii ->
  cell_dofs (dofmap (function_space1 a)) c !! j = Some jj ->
  exists Ae,
    assemble_form contains h a bcs !! c
    = Some (OpAddLocal h Ae (cell_dofs (dofmap (function_space0 a)) c)
                            (cell_dofs (dofmap (function_space1 a)) c)) /\
    entry Ae i j
    = Some (if has_key (boundary_values contains (mpi_comm_size (mesh a))
                          (function_space0 a) bcs) ii
               || has_key (boundary_values contains (mpi_comm_size (mesh a))
                             (function_space1 a) bcs) jj
            then 0%float
            else tabulate_tensor a c
                   (i * length (cell_dofs (dofmap (function_space1 a)) c) + j)).
Proof.
  intros Hc Hi Hj.
  set (dmap0 := cell_dofs (dofmap (function_space0 a)) c) in *.
  set (dmap1 := cell_dofs (dofmap (function_space1 a)) c) in *.
  pose proof (lookup_lt_Some _ _ _ Hi) as Hil.
  pose proof (lookup_lt_Some _ _ _ Hj) as Hjl.
  eexists. split.
  - unfold assemble_form. change (map ?f ?l) with (f <$> l).
    rewrite list_lookup_fmap, lookup_seq_lt by exact Hc. simpl.
    unfold assemble_cell. reflexivity.
  - rewrite boundary_values_by_axis_spec. cbn [fst snd].
    fold dmap0 dmap1. unfold zero_bc_cols. rewrite zero_cols_fold_exact.
    rewrite (bool_decide_eq_true_2 (j ∈ seq 0 (length dmap1)))
      by (apply elem_of_seq; lia).
    unfold zero_bc_rows. rewrite zero_rows_fold_exact.
    assert (Hlen : length (element_matrix a c (length dmap0) (length dmap1))
                   = length dmap0)
      by (unfold element_matrix; now rewrite length_map, length_seq).
    rewrite Hlen.
    rewrite (bool_decide_eq_true_2 (i ∈ seq 0 (length dmap0)))
      by (apply elem_of_seq; lia).
    rewrite element_matrix_entry by assumption.
    unfold local_bc. rewrite Hi, Hj. simpl.
    destruct (has_key _ ii), (has_key _ jj); reflexivity.
Qed.


(** The loop over the cells of [assemble(A, a, bcs)], as a whole. *)
Lemma assemble_form_insertions h a bcs :
  cell_insertions
    (boundary_values contains (mpi_comm_size (mesh a)) (function_space0 a) bcs)
    (boundary_values contains (mpi_comm_size (mesh a)) (function_space1 a) bcs)
    h a (assemble_form contains h a bcs).
Proof.
  split; [apply assemble_form_length|]. intros c Hc dmap0 dmap1.
  eexists. split; [|split].
  - unfold assemble_form. change (map ?f ?l) with (f <$> l).
    rewrite list_lookup_fmap, lookup_seq_lt by exact Hc. simpl.
    unfold assemble_cell. reflexivity.
  - rewrite boundary_values_by_axis_spec. cbn [fst snd].
    apply zeroed_element_matrix, element_matrix_shaped.
  - intros i j ii jj Hi Hj.
    pose proof (lookup_lt_Some _ _ _ Hi) as Hil.
    pose proof (lookup_lt_Some _ _ _ Hj) as Hjl.
    rewrite boundary_values_by_axis_spec. cbn [fst snd].
    fold dmap0 dmap1. unfold zero_bc_cols. rewrite zero_cols_fold_exact.
    rewrite (bool_decide_eq_true_2 (j ∈ seq 0 (length dmap1)))
      by (apply elem_of_seq; lia).
    unfold zero_bc_rows. rewrite zero_rows_fold_exact.
    assert (Hlen : length (element_matrix a c (length dmap0) (length dmap1))
                   = length dmap0)
      by (unfold element_matrix; now rewrite length_map, length_seq).
    rewrite Hlen.
    rewrite (bool_decide_eq_true_2 (i ∈ seq 0 (length dmap0)))
      by (apply elem_of_seq; lia).
    rewrite element_matrix_entry by assumption.
    unfold local_bc. rewrite Hi, Hj. simpl.
    destruct (has_key _ ii), (has_key _ jj); reflexivity.
Qed.


Lemma diagonal_add_elem h a bcs n op :
  op ∈ diagonal_add contains world_size h a bcs n <->
  same_space (function_space0 a) (function_space1 a) = true /\
  exists d,
    is_Some (boundary_values contains world_size (function_space0 a) bcs !! d) /\
    d < n /\ op = OpAddLocal h unit_block [d] [d].
Proof.
  unfold diagonal_add.
  destruct (same_space (function_space0 a) (function_space1 a)).
  - rewrite list_elem_of_In, in_flat_map. split.
    + intros ([d g] & Hin & Hop). apply list_elem_of_In, elem_of_map_to_list in Hin.
      simpl in Hop. destruct (d <? n) eqn:Hd; [|destruct Hop].
      destruct Hop as [<-|[]]. split; [reflexivity|]. exists d.
      split; [eauto|]. split; [now apply Nat.ltb_lt | reflexivity].
    + intros (_ & d & [g Hg] & Hd & ->). exists (d, g). split.
      * now apply list_elem_of_In, elem_of_map_to_list.
      * simpl. apply Nat.ltb_lt in Hd. rewrite Hd. now left.
  - split.
    + intros H. now apply not_elem_of_nil in H.
    + intros [H _]. discriminate H.
Qed.

(** X2.  Merged storage of more than one block, a call that ends
    normally: for every non-null block [(i, j)] the calls on [A] hold, in
    this order, the insertions of the cells into the view of the block,
    the flush of the view, the diagonal, and the restore of the view.  On
    the diagonal a unit block is added at [(d, d)] exactly for the
    prescribed dofs [d] below the owned size of the row map, and only
    when the block has the same space on both axes; rows of ghost dofs
    get no diagonal entry. *)
Theorem monolithic_diagonal_owned asm A block_type i j row f :
  storage asm A block_type = MATAIJ ->
  block_matrix asm = true ->
  snd (assemble_matrix contains world_size asm A block_type) = Done ->
  _a asm !! i = Some row ->
  row !! j = Some (Some f) ->
  let mat := view (row_offset size_all (_a asm) i)
                  (col_offset size_all row j) f in
  exists pre adds diag post,
    fst (assemble_matrix contains world_size asm A block_type)
    = pre ++ adds ++ [OpApply mat FLUSH] ++ diag ++ [OpRestore mat] ++ post /\
    cell_insertions
      (boundary_values contains (mpi_comm_size (mesh f)) (function_space0 f)
         (_bcs asm))
      (boundary_values contains (mpi_comm_size (mesh f)) (function_space1 f)
         (_bcs asm))
      mat f adds /\
    forall op,
      op ∈ diag <->
      same_space (function_space0 f) (function_space1 f) = true /\
      exists d,
        is_Some (boundary_values contains world_size (function_space0 f)
                   (_bcs asm) !! d) /\
        d < size_owned (map0 f) /\
        op = OpAddLocal mat unit_block [d] [d].
Proof.
  intros Hst Hbm Hdone Ha Hl mat.
  rewrite assemble_matrix_ended in * by (rewrite Hdone; discriminate).
  revert Hdone. unfold matrix_branches. rewrite Hst, Hbm. cbn [is_matnest].
  destruct (mono_rows contains world_size (_bcs asm) 0 (_a asm))
    as [ops out] eqn:Hr.
  destruct out; [|discriminate|discriminate]. intros _. cbn [fst].
  assert (Hd : snd (mono_rows contains world_size (_bcs asm) 0 (_a asm)) = Done)
    by now rewrite Hr.
  destruct (mono_rows_occurs contains world_size (_bcs asm) (_a asm) 0%Z
              i j row f Hd Ha Hl) as (pre & post & Heq).
  rewrite Hr in Heq. cbn [fst] in Heq. rewrite Z.add_0_l in Heq.
  exists (init_ops asm A block_type ++ pre),
         (assemble_form contains mat f (_bcs asm)),
         (diagonal_add contains world_size mat f (_bcs asm) (size_owned (map0 f))),
         (post ++ [OpApply Whole FINAL; OpApply Whole FINAL]).
  split; [|split].
  - rewrite Heq. unfold mono_block. cbv zeta. fold mat.
    rewrite <- !app_assoc. reflexivity.
  - apply assemble_form_insertions.
  - intros op. apply diagonal_add_elem.
Qed.

Lemma init_ops_no_set asm A block_type :
  Forall (fun op => is_set op = false) (init_ops asm A block_type).
Proof. destruct A; repeat constructor. Qed.

(** X3.  Under merged storage with more than one block, no call of
    [set_local] is made on the matrix or on any view of it, however the
    call ends. *)
Theorem merged_blocks_never_set asm A block_type :
  storage asm A block_type = MATAIJ ->
  block_matrix asm = true ->
  Forall (fun op => is_set op = false)
         (fst (assemble_matrix contains world_size asm A block_type)).
Proof.
  intros Hs Hb.
  destruct (assemble_matrix_cases contains world_size asm A block_type)
    as [-> | ->]; [|constructor].
  unfold matrix_branches. rewrite Hs, Hb. cbn [is_matnest].
  pose proof (mono_rows_no_set contains world_size (_bcs asm) (_a asm) 0%Z) as Hm.
  pose proof (init_ops_no_set asm A block_type) as Hi.
  destruct (mono_rows contains world_size (_bcs asm) 0 (_a asm)) as [ops out].
  cbn [fst] in Hm.
  destruct out; cbn [fst]; rewrite ?Forall_app; repeat split; auto;
    repeat constructor.
Qed.


Lemma mono_row_throws bcs r row : forall c e,
  snd (mono_row contains world_size bcs r c row) = Thrown e ->
  e = NullBlock /\ None ∈ row.
Proof.
  intros c e H.
  destruct (mono_row_outcome contains world_size bcs r row c) as [[Hd _]|[Ht Hn]].
  - rewrite Hd in H. discriminate H.
  - rewrite Ht in H. injection H as <-. auto.
Qed.

Lemma mono_rows_throws bcs a : forall r e,
  snd (mono_rows contains world_size bcs r a) = Thrown e ->
  e = NullBlock /\ exists row, row ∈ a /\ None ∈ row.
Proof.
  induction a as [|row a IH]; intros r e H; [discriminate H|].
  cbn [mono_rows] in H.
  pose proof (mono_row_throws bcs r row 0%Z) as Hrow.
  destruct (mono_row contains world_size bcs r 0 row) as [ops out].
  cbn [snd] in Hrow. destruct out.
  - destruct row as [|[a0|] row']; cbn [snd] in H; try discriminate H.
    apply IH in H as (-> & row1 & Hin & Hn). split; [reflexivity|].
    exists row1. split; [now right | exact Hn].
  - cbn [snd] in H. injection H as <-.
    destruct (Hrow e0 eq_refl) as [-> Hn]. split; [reflexivity|].
    exists row. split; [now left | exact Hn].
  - discriminate H.
Qed.

(** X4.  [assemble(A, block_type)] throws only in the branch for merged
    storage with more than one block, only the error of a null block, and
    only when some block of [_a] is null. *)
Theorem throws_only_for_null_block asm A block_type e :
  snd (assemble_matrix contains world_size asm A block_type) = Thrown e ->
  e = NullBlock /\
  storage asm A block_type = MATAIJ /\
  block_matrix asm = true /\
  exists row, row ∈ _a asm /\ None ∈ row.
Proof.
  intros H.
  rewrite assemble_matrix_ended in H by (rewrite H; discriminate).
  revert H. unfold matrix_branches.
  destruct (storage asm A block_type); cbn [is_matnest]; [discriminate|].
  destruct (block_matrix asm).
  - pose proof (mono_rows_throws (_bcs asm) (_a asm) 0%Z) as Hm.
    destruct (mono_rows contains world_size (_bcs asm) 0 (_a asm)) as [ops out].
    cbn [snd] in Hm. destruct out; cbn [snd]; try discriminate.
    intros H. injection H as <-. destruct (Hm e0 eq_refl) as [-> Hrow]. auto.
  - destruct (first_block asm); discriminate.
Qed.


Lemma diagonal_add_not_final h a bcs n :
  Forall (fun op => is_final op = false) (diagonal_add contains world_size h a bcs n).
Proof.
  rewrite Forall_forall. intros op Hop.
  apply diagonal_add_elem in Hop as (_ & d & _ & _ & ->). reflexivity.
Qed.

Lemma mono_block_not_final bcs r c f :
  Forall (fun op => is_final op = false) (mono_block contains world_size bcs r c f).
Proof.
  unfold mono_block. rewrite !Forall_app. repeat split;
    auto using assemble_form_not_final, diagonal_add_not_final;
    repeat constructor.
Qed.

Lemma mono_row_not_final bcs r row : forall c,
  Forall (fun op => is_final op = false)
         (fst (mono_row contains world_size bcs r c row)).
Proof.
  induction row as [|[f|] row IH]; intros c; cbn [mono_row fst]; [constructor| |constructor].
  rewrite Forall_app. split; [apply mono_block_not_final | apply IH].
Qed.

Lemma mono_rows_not_final bcs a : forall r,
  Forall (fun op => is_final op = false)
         (fst (mono_rows contains world_size bcs r a)).
Proof.
  induction a as [|row a IH]; intros r; [constructor|].
  cbn [mono_rows].
  pose proof (mono_row_not_final bcs r row 0%Z) as Hrow.
  destruct (mono_row contains world_size bcs r 0 row) as [ops out].
  cbn [fst] in Hrow. destruct out; cbn [fst]; try exact Hrow.
  destruct row as [|[a0|] row']; cbn [fst]; try exact Hrow.
  rewrite Forall_app. split; [exact Hrow | apply IH].
Qed.

(** X5.  A call of [assemble(A, block_type)] that does not end normally
    has made no synchronisation of kind FINAL: the matrix is left without
    its final assembly. *)
Theorem no_final_assembly_on_failure asm A block_type :
  snd (assemble_matrix contains world_size asm A block_type) <> Done ->
  count_final (fst (assemble_matrix contains world_size asm A block_type)) = 0.
Proof.
  destruct (assemble_matrix_cases contains world_size asm A block_type)
    as [-> | ->]; [|reflexivity].
  unfold matrix_branches.
  destruct (is_matnest (storage asm A block_type)); [intros H; now destruct H|].
  destruct (block_matrix asm).
  - pose proof (mono_rows_not_final (_bcs asm) (_a asm) 0%Z) as Hm.
    destruct (mono_rows contains world_size (_bcs asm) 0 (_a asm)) as [ops out].
    cbn [fst] in Hm.
    destruct out; cbn [fst snd]; intros H; [now destruct H| |];
      apply count_final_none; rewrite Forall_app;
      auto using init_ops_not_final.
  - destruct (first_block asm); cbn [fst snd]; intros H; [now destruct H|].
    apply count_final_none, init_ops_not_final.
Qed.

(** C4.  For a block array that is not empty, and a matrix that is
    given or an empty one with no row of [_a] longer than the first.
    Under nested storage the call ends normally whatever blocks are
    null; no call is made on the sub-matrix of a null block; and for
    every non-null block the calls are all made: one [add_local] per
    cell with the element matrix of the kernel (zero in the rows and
    columns of prescribed dofs), the flush of the sub-matrix, and the
    [set_local] of the unit value on the diagonal of every prescribed
    dof.  Under merged storage of more than one block, with no empty
    row, a null block makes the call end with the error "Null block not
    supported/tested yet." *)
Theorem null_blocks asm A block_type :
  _a asm <> [] ->
  A <> None \/ forms_in_bounds asm = true ->
  (storage asm A block_type = MATNEST ->
   let r := assemble_matrix contains world_size asm A block_type in
   snd r = Done /\
   (forall i j row, _a asm !! i = Some row -> row !! j = Some None ->
      forall op, op ∈ fst r -> handle_of op <> Some (NestSub i j)) /\
   (forall i j row f, _a asm !! i = Some row -> row !! j = Some (Some f) ->
      exists pre adds sets post,
        fst r = pre ++ adds ++ [OpApply (NestSub i j) FLUSH] ++ sets ++ post /\
        cell_insertions
          (boundary_values contains (mpi_comm_size (mesh f))
             (function_space0 f) (_bcs asm))
          (boundary_values contains (mpi_comm_size (mesh f))
             (function_space1 f) (_bcs asm))
          (NestSub i j) f adds /\
        (forall op,
           op ∈ sets <->
           same_space (function_space0 f) (function_space1 f) = true /\
           exists d,
             is_Some (boundary_values contains world_size (function_space0 f)
                        (_bcs asm) !! d) /\
             op = OpSetLocal (NestSub i j) unit_block [d] [d]))) /\
  (storage asm A block_type = MATAIJ ->
   block_matrix asm = true ->
   Forall (fun row => row <> []) (_a asm) ->
   (exists row, row ∈ _a asm /\ None ∈ row) ->
   snd (assemble_matrix contains world_size asm A block_type) = Thrown NullBlock).
Proof.
  intros Hne HA. split.
  - intros Hst r. unfold r.
    rewrite assemble_matrix_defined
      by auto using nested_initialisation_defined.
    unfold matrix_branches. rewrite Hst. cbn [is_matnest fst snd].
    split; [reflexivity|]. split.
    + intros i j row Ha Hl op Hop Hh.
      rewrite !elem_of_app in Hop. destruct Hop as [Hop|[Hop|Hop]].
      * unfold init_ops in Hop. destruct A; [inversion Hop|].
        apply list_elem_of_singleton in Hop. subst op. discriminate.
      * apply nest_rows_handles in Hop as (i' & j' & row' & f & Ha' & Hl' & Hh').
        rewrite Hh' in Hh. injection Hh as <- <-. simpl in Ha'. congruence.
      * apply list_elem_of_singleton in Hop. subst op. discriminate.
    + intros i j row f Ha Hl.
      destruct (nest_rows_occurs contains world_size (_bcs asm) (_a asm)
                  0 i j row (Some f) Ha Hl) as (pre & post & Heq).
      exists (init_ops asm A block_type ++ pre),
             (assemble_form contains (NestSub i j) f (_bcs asm)),
             (diagonal_set contains world_size (NestSub i j) f (_bcs asm)),
             (post ++ [OpApply Whole FINAL]).
      split; [|split].
      * rewrite Heq. unfold nest_block. cbn [Nat.add].
        rewrite <- !app_assoc. reflexivity.
      * apply assemble_form_insertions.
      * intros op. apply diagonal_set_elem.
  - intros Hst Hbm Hrows Hnull.
    rewrite assemble_matrix_defined
      by auto using merged_initialisation_defined.
    unfold matrix_branches. rewrite Hst, Hbm. cbn [is_matnest].
    pose proof (mono_rows_thrown contains world_size (_bcs asm) (_a asm) 0%Z
                  Hrows Hnull) as Ht.
    destruct (mono_rows contains world_size (_bcs asm) 0 (_a asm)) as [ops out].
    simpl in Ht. subst out. reflexivity.
Qed.

(** Under merged storage a call that ends normally makes the final
    synchronisation twice: once at the end of the branch and once after
    it. *)
Lemma merged_final_count asm A block_type :
  storage asm A block_type = MATAIJ ->
  block_matrix asm = true ->
  snd (assemble_matrix contains world_size asm A block_type) = Done ->
  count_final (fst (assemble_matrix contains world_size asm A block_type)) = 2.
Proof.
  intros Hst Hbm Hdone.
  rewrite assemble_matrix_ended in * by (rewrite Hdone; discriminate).
  revert Hdone. unfold matrix_branches. rewrite Hst, Hbm. cbn [is_matnest].
  destruct (mono_rows contains world_size (_bcs asm) 0 (_a asm))
    as [ops out] eqn:Hr.
  destruct out; [|discriminate|discriminate]. intros _. cbn [fst].
  rewrite !count_final_app.
  rewrite (count_final_none (init_ops asm A block_type))
    by apply init_ops_not_final.
  rewrite (count_final_none ops).
  - reflexivity.
  - pose proof (mono_rows_not_final (_bcs asm) (_a asm) 0%Z) as H.
    now rewrite Hr in H.
Qed.

(** ** The views of one block row *)

Lemma diagonal_add_handle h a bcs n op :
  op ∈ diagonal_add contains world_size h a bcs n -> handle_of op = Some h.
Proof. intros H. apply diagonal_add_elem in H as (_ & d & _ & _ & ->). reflexivity. Qed.

Lemma assemble_form_handle h a bcs op :
  op ∈ assemble_form contains h a bcs -> handle_of op = Some h.
Proof.
  unfold assemble_form. intros H.
  apply list_elem_of_In, in_map_iff in H as (c & <- & _). reflexivity.
Qed.

Lemma mono_block_handle bcs r c f op :
  op ∈ mono_block contains world_size bcs r c f -> handle_of op = Some (view r c f).
Proof.
  unfold mono_block. rewrite !elem_of_app. intros [H|[H|[H|H]]].
  - now apply assemble_form_handle in H.
  - apply list_elem_of_singleton in H as ->. reflexivity.
  - now apply diagonal_add_handle in H.
  - apply list_elem_of_singleton in H as ->. reflexivity.
Qed.

Lemma iota_bounds n offset x :
  x ∈ iota n offset -> (offset <= x < offset + Z.of_nat n)%Z.
Proof.
  unfold iota. intros H. apply list_elem_of_In, in_map_iff in H as (k & <- & Hk).
  apply in_seq in Hk. lia.
Qed.

Lemma mono_row_columns_from bcs r row : forall c op is0 is1 x,
  op ∈ fst (mono_row contains world_size bcs r c row) ->
  handle_of op = Some (LocalSub is0 is1) ->
  x ∈ is_idx is1 -> (c <= x)%Z.
Proof.
  induction row as [|[f|] row IH]; intros c op is0 is1 x Hop Hh Hx;
    cbn [mono_row fst] in Hop; try now apply not_elem_of_nil in Hop.
  apply elem_of_app in Hop as [Hop|Hop].
  - apply mono_block_handle in Hop. rewrite Hop in Hh. unfold view in Hh.
    injection Hh as <- <-. cbn [is_idx] in Hx. apply iota_bounds in Hx. lia.
  - specialize (IH _ _ _ _ _ Hop Hh Hx). lia.
Qed.

(** X6.  The views of one block row of the merged matrix: of two calls
    that address views, the later one addresses the same columns as the
    earlier one (the same block) or columns that all lie above them, so
    the column ranges of different blocks never overlap. *)
Theorem row_views_do_not_overlap bcs r row : forall c p q op1 op2 a1 b1 a2 b2,
  fst (mono_row contains world_size bcs r c row) !! p = Some op1 ->
  fst (mono_row contains world_size bcs r c row) !! q = Some op2 ->
  p < q ->
  handle_of op1 = Some (LocalSub a1 b1) ->
  handle_of op2 = Some (LocalSub a2 b2) ->
  b1 = b2 \/
  forall x y, x ∈ is_idx b1 -> y ∈ is_idx b2 -> (x < y)%Z.
Proof.
  induction row as [|[f|] row IH]; intros c p q op1 op2 a1 b1 a2 b2 H1 H2 Hpq Hh1 Hh2;
    cbn [mono_row fst] in H1, H2; try discriminate H1.
  apply lookup_app_Some in H1 as [H1|[Hp H1]];
    apply lookup_app_Some in H2 as [H2|[Hq H2]].
  - left. apply list_elem_of_lookup_2, mono_block_handle in H1, H2.
    rewrite H1 in Hh1. rewrite H2 in Hh2. congruence.
  - right. intros x y Hx Hy.
    apply list_elem_of_lookup_2, mono_block_handle in H1.
    rewrite H1 in Hh1. unfold view in Hh1. injection Hh1 as <- <-.
    cbn [is_idx] in Hx. apply iota_bounds in Hx.
    apply list_elem_of_lookup_2 in H2.
    pose proof (mono_row_columns_from _ _ _ _ _ _ _ _ H2 Hh2 Hy). lia.
  - apply lookup_lt_Some in H2. lia.
  - apply (IH (c + Z.of_nat (size_all (map1 f)))%Z
                (p - length (mono_block contains world_size bcs r c f))
                (q - length (mono_block contains world_size bcs r c f))
                op1 op2 a1 b1 a2 b2); auto. lia.
Qed.

(** ** [assemble(Eigen::Ref<EigenVectorXd> b, const Form& L)], entry by entry *)

Lemma add_all_app x l1 l2 : add_all x (l1 ++ l2) = add_all (add_all x l1) l2.
Proof. unfold add_all. apply fold_left_app. Qed.

Lemma fold_contributions {A} (step : list float -> A -> list float)
    (g : A -> list float) k :
  (forall b a, step b a !! k = (fun x => add_all x (g a)) <$> b !! k) ->
  forall l b,
    fold_left step l b !! k = (fun x => add_all x (flat_map g l)) <$> b !! k.
Proof.
  intros Hstep. induction l as [|a l IH]; intros b; cbn [fold_left flat_map].
  - now destruct (b !! k).
  - rewrite IH, Hstep. destruct (b !! k); [|reflexivity]. simpl.
    now rewrite add_all_app.
Qed.

Lemma add_entry_lookup (b : list float) k' x k :
  add_entry b k' x !! k
  = if decide (k' = k) then (fun y => (y + x)%float) <$> b !! k else b !! k.
Proof.
  unfold add_entry. destruct (decide (k' = k)) as [->|Hne].
  - apply list_lookup_alter_eq.
  - now apply list_lookup_alter_ne.
Qed.

Lemma assemble_cell_vector_lookup L b c k :
  assemble_cell_vector L b c !! k
  = (fun x => add_all x (cell_contributions L k c)) <$> b !! k.
Proof.
  unfold assemble_cell_vector, cell_contributions.
  set (dmap := cell_dofs (dofmap (function_space0 L)) c).
  apply (fold_contributions
           (fun b i => match dmap !! i, element_vector L c (length dmap) !! i with
                       | Some k, Some x => add_entry b k x
                       | _, _ => b
                       end)).
  intros b0 i. destruct (dmap !! i) as [k'|] eqn:Hi.
  - pose proof (lookup_lt_Some _ _ _ Hi) as Hlt.
    unfold element_vector. change (map ?f ?l) with (f <$> l).
    rewrite list_lookup_fmap, lookup_seq_lt by exact Hlt. simpl.
    rewrite add_entry_lookup. destruct (decide (k' = k)) as [->|Hne].
    + rewrite Nat.eqb_refl. now destruct (b0 !! k).
    + apply Nat.eqb_neq in Hne. rewrite Hne. now destruct (b0 !! k).
  - now destruct (b0 !! k).
Qed.

Lemma assemble_linear_lookup b L k :
  assemble_linear b L !! k = (fun x => add_all x (contributions L k)) <$> b !! k.
Proof.
  unfold assemble_linear, contributions.
  apply (fold_contributions (assemble_cell_vector L)).
  intros b0 c. apply assemble_cell_vector_lookup.
Qed.

(** X7.  Assembly of a linear form whose cell dofs are indices of [b]
    adds to entry [k] of [b] the element values of all local indices
    whose dof is [k], accumulated in the order of the loops (cell by
    cell, local index by local index) on top of the value that [b] held
    before. *)
Theorem assemble_linear_accumulates b L k :
  dofs_within L (length b) ->
  assemble_linear b L !! k = (fun x => add_all x (contributions L k)) <$> b !! k.
Proof. intros _. apply assemble_linear_lookup. Qed.

Lemma cell_contributions_nil L k c :
  k ∉ cell_dofs (dofmap (function_space0 L)) c -> cell_contributions L k c = [].
Proof.
  intros Hk. unfold cell_contributions.
  set (dmap := cell_dofs (dofmap (function_space0 L)) c) in *.
  induction (seq 0 (length dmap)) as [|i l IH]; [reflexivity|].
  cbn [flat_map]. rewrite IH, app_nil_r.
  destruct (dmap !! i) as [k'|] eqn:Hi; [|reflexivity].
  destruct (k' =? k) eqn:Hk'; [|reflexivity].
  apply Nat.eqb_eq in Hk' as ->. destruct Hk.
  eapply list_elem_of_lookup_2; eauto.
Qed.

(** X8.  Assembly of a linear form whose cell dofs are indices of [b]
    keeps the length of [b] and leaves every entry unchanged whose index
    is not a dof of any cell of the mesh. *)
Theorem assemble_linear_frame b L k :
  dofs_within L (length b) ->
  (forall c, c < num_cells (mesh L) ->
             k ∉ cell_dofs (dofmap (function_space0 L)) c) ->
  length (assemble_linear b L) = length b /\
  assemble_linear b L !! k = b !! k.
Proof.
  intros _ Hk. split; [apply assemble_linear_length|].
  rewrite assemble_linear_lookup.
  assert (Hnil : contributions L k = []).
  { unfold contributions.
    assert (Hall : forall c, c ∈ seq 0 (num_cells (mesh L)) ->
                             cell_contributions L k c = []).
    { intros c Hc. apply cell_contributions_nil, Hk. apply elem_of_seq in Hc. lia. }
    induction (seq 0 (num_cells (mesh L))) as [|c l IH]; [reflexivity|].
    cbn [flat_map]. rewrite Hall by now left. apply IH.
    intros c' Hc'. apply Hall. now right. }
  rewrite Hnil. now destruct (b !! k).
Qed.

(** ** [set_bc], entry by entry *)

Lemma set_bc_at offset size values L bcs idx :
  set_bc contains offset size values L bcs !! idx
  = match (if decide (offset <= idx < offset + size)
           then boundary_values contains (mpi_comm_size (mesh L))
                  (function_space0 L) bcs !! (idx - offset)
           else None) with
    | Some g => (fun _ => g) <$> values !! idx
    | None => values !! idx
    end.
Proof.
  destruct (decide (offset <= idx < offset + size)) as [Hin|Hout].
  - destruct (boundary_values contains (mpi_comm_size (mesh L))
                (function_space0 L) bcs !! (idx - offset)) as [g|] eqn:Hg.
    + destruct (values !! idx) as [x|] eqn:Hx; simpl.
      * replace idx with (offset + (idx - offset)) at 1 by lia.
        apply set_bc_lookup; [exact Hg | lia |].
        apply lookup_lt_Some in Hx. lia.
      * apply lookup_ge_None. rewrite set_bc_length. now apply lookup_ge_None.
    + unfold set_bc. apply set_fold_other. intros k v Hkv Hk Heq.
      apply elem_of_map_to_list in Hkv.
      replace (idx - offset) with k in Hg by lia. congruence.
  - apply set_bc_outside. lia.
Qed.

(** X9.  [set_bc] on the window of [size] entries at [offset] of an
    array: entry [offset + d] of the window becomes the prescribed value
    when the map of the test space of [L] holds [d] and [d < size];
    every other entry, inside or outside the window, keeps its value,
    and the length is kept.  Prescribed dofs at or beyond [size] are
    skipped. *)
Theorem set_bc_entries offset size values L bcs idx :
  offset + size <= length values ->
  length (set_bc contains offset size values L bcs) = length values /\
  set_bc contains offset size values L bcs !! idx
  = match (if decide (offset <= idx < offset + size)
           then boundary_values contains (mpi_comm_size (mesh L))
                  (function_space0 L) bcs !! (idx - offset)
           else None) with
    | Some g => (fun _ => g) <$> values !! idx
    | None => values !! idx
    end.
Proof. intros _. split; [apply set_bc_length | apply set_bc_at]. Qed.

(** X10.  [set_bc] is idempotent: applying it a second time to its own
    result changes nothing. *)
Theorem set_bc_idempotent offset size values L bcs :
  offset + size <= length values ->
  set_bc contains offset size (set_bc contains offset size values L bcs) L bcs
  = set_bc contains offset size values L bcs.
Proof.
  intros _. apply list_eq. intros idx. rewrite (set_bc_at offset size (set_bc _ _ _ _ _ _)).
  rewrite (set_bc_at offset size values).
  destruct (decide (offset <= idx < offset + size)); [|reflexivity].
  destruct (boundary_values contains (mpi_comm_size (mesh L))
              (function_space0 L) bcs !! (idx - offset)); [|reflexivity].
  now destruct (values !! idx).
Qed.

(** ** The keys of a boundary map *)

Lemma merge_values_dom l : forall (bv : Map) d,
  is_Some (merge_values l bv !! d) <-> d ∈ l.*1 \/ is_Some (bv !! d).
Proof.
  induction l as [|[k v] l IH]; intros bv d; unfold merge_values; cbn [fold_left].
  - rewrite fmap_nil. split; [auto|]. intros [H|H]; [now apply not_elem_of_nil in H | exact H].
  - fold (merge_values l (<[k := v]> bv)). rewrite IH, fmap_cons, elem_of_cons.
    cbn [fst snd]. destruct (decide (d = k)) as [->|Hne].
    + rewrite lookup_insert_eq. split; [auto|]. intros _. right. eauto.
    + rewrite lookup_insert_ne by auto. split.
      * intros [H|H]; [left; now right | now right].
      * intros [[H|H]|H]; [contradiction | now left | now right].
Qed.

Lemma boundary_values_keys comm space bcs d :
  is_Some (boundary_values contains comm space bcs !! d) <->
  exists bc,
    bc ∈ bcs /\ contains space (bc_function_space bc) = true /\
    (d ∈ (local_values bc).*1 \/
     (1 < comm /\ method bc <> pointwise /\ d ∈ (remote_values bc).*1)).
Proof.
  rewrite boundary_values_spec, merge_values_dom, lookup_empty.
  unfold prescriptions. split.
  - intros [H|H]; [|now destruct H].
    apply list_elem_of_fmap in H as ([d' g] & -> & H).
    apply list_elem_of_In, in_flat_map in H as (bc & Hbc & H).
    exists bc. split; [now apply list_elem_of_In|].
    unfold collected_values in H.
    destruct (contains space (bc_function_space bc)); [|destruct H].
    split; [reflexivity|]. apply in_app_or in H as [H|H].
    + left. apply list_elem_of_fmap. exists (d', g). split; [reflexivity|].
      now apply list_elem_of_In.
    + right. destruct (1 <? comm) eqn:Hc; [|destruct H].
      destruct (method bc) eqn:Hm; cbn in H; try destruct H;
        (split; [now apply Nat.ltb_lt|]; split; [discriminate|];
         apply list_elem_of_fmap; exists (d', g); split; [reflexivity|];
         now apply list_elem_of_In).
  - intros (bc & Hbc & Hc & H). left.
    assert (Hd : exists g, In (d, g) (collected_values contains comm space bc)).
    { unfold collected_values. rewrite Hc. destruct H as [H|(Hcomm & Hm & H)];
        apply list_elem_of_fmap in H as ([d' g] & -> & H); exists g;
        apply in_or_app; [left; now apply list_elem_of_In|right].
      apply Nat.ltb_lt in Hcomm. rewrite Hcomm.
      destruct (method bc); cbn; try (now apply list_elem_of_In). now destruct Hm. }
    destruct Hd as [g Hg]. apply list_elem_of_fmap. exists (d, g).
    split; [reflexivity|]. apply list_elem_of_In, in_flat_map. exists bc.
    split; [now apply list_elem_of_In | exact Hg].
Qed.

(** X11.  The map that is collected for a space holds a dof exactly when
    some condition whose function space the space contains gives a pair
    for it: a local pair, or, with more than one rank in the communicator
    and a method other than pointwise, a pair received from another
    rank.  Conditions of spaces that are not contained add nothing. *)
Theorem boundary_map_keys comm space bcs d :
  is_Some (boundary_values contains comm space bcs !! d) <->
  exists bc,
    bc ∈ bcs /\ contains space (bc_function_space bc) = true /\
    (d ∈ (local_values bc).*1 \/
     (1 < comm /\ method bc <> pointwise /\ d ∈ (remote_values bc).*1)).
Proof. apply boundary_values_keys. Qed.

Lemma boundary_values_none comm space bcs :
  (forall bc, bc ∈ bcs -> contains space (bc_function_space bc) = false) ->
  boundary_values contains comm space bcs = ∅.
Proof.
  intros H. apply map_eq. intros d. rewrite lookup_empty.
  apply eq_None_not_Some. intros Hs.
  apply boundary_values_keys in Hs as (bc & Hbc & Hc & _).
  rewrite (H bc Hbc) in Hc. discriminate Hc.
Qed.

(** ** [apply_bc], entry by entry *)

Lemma omap_map_Some {A B C} (f : B -> option C) (g : A -> B) (h : A -> C) l :
  (forall x, x ∈ l -> f (g x) = Some (h x)) ->
  omap f (map g l) = map h l.
Proof.
  induction l as [|x l IH]; intros H; [reflexivity|].
  cbn. rewrite (H x) by now left. cbn.
  f_equal. apply IH. intros y Hy. apply H. now right.
Qed.

Lemma col_element_matrix a c rows cols j :
  j < cols ->
  col (element_matrix a c rows cols) j
  = map (fun i => tabulate_tensor a c (i * cols + j)) (seq 0 rows).
Proof.
  intros Hj. unfold col, element_matrix. apply omap_map_Some.
  intros i _. change (map ?f ?l) with (f <$> l).
  now rewrite list_lookup_fmap, lookup_seq_lt by exact Hj.
Qed.

Lemma subtract_column_lookup a c rows cols j g (be : list float) i x :
  j < cols -> i < rows -> be !! i = Some x ->
  subtract_column be (element_matrix a c rows cols) j g !! i
  = Some (x - tabulate_tensor a c (i * cols + j) * g)%float.
Proof.
  intros Hj Hi Hx. unfold subtract_column. rewrite col_element_matrix by exact Hj.
  rewrite lookup_zip_with, Hx. simpl. change (map ?f ?l) with (f <$> l).
  now rewrite list_lookup_fmap, lookup_seq_lt by exact Hi.
Qed.

Lemma subtract_column_length a c rows cols j g (be : list float) :
  j < cols -> length be = rows ->
  length (subtract_column be (element_matrix a c rows cols) j g) = rows.
Proof.
  intros Hj Hl. unfold subtract_column. rewrite col_element_matrix by exact Hj.
  rewrite length_zip_with, length_map, length_seq. lia.
Qed.

Lemma eliminate_fold a c rows (bv : Map) (dmap1 : list nat) (l : list nat) :
  forall (be : list float) i x,
  length be = rows -> i < rows -> be !! i = Some x ->
  let out := fold_left (fun be j =>
               match dmap1 !! j with
               | Some jj =>
                   match bv !! jj with
                   | Some g =>
                       subtract_column be
                         (element_matrix a c rows (length dmap1)) j g
                   | None => be
                   end
               | None => be
               end) l be in
  length out = rows /\
  out !! i
  = Some (fold_left (fun x j =>
               match dmap1 !! j with
               | Some jj =>
                   match bv !! jj with
                   | Some g =>
                       (x - tabulate_tensor a c (i * length dmap1 + j) * g)%float
                   | None => x
                   end
               | None => x
               end) l x).
Proof.
  induction l as [|j l IH]; intros be i x Hl Hi Hx; cbn [fold_left]; [auto|].
  destruct (dmap1 !! j) as [jj|] eqn:Hj; [|now apply IH].
  destruct (bv !! jj) as [g|]; [|now apply IH].
  apply lookup_lt_Some in Hj. apply IH.
  - now apply subtract_column_length.
  - exact Hi.
  - now apply subtract_column_lookup.
Qed.

(** X12.  [apply_bc] on a cell that has a prescribed trial dof and as
    many test dofs as trial dofs (the element matrix is sized by the
    trial dof map on both axes): one vector is added, at the dofs that
    the trial dof map gives for the cell, and its entry [i] is what
    remains of zero after, for every local column [j] with a prescribed
    dof, in the order of the columns, the product of the element entry
    [(i, j)] with the prescribed value has been subtracted. *)
Theorem apply_bc_cell_entries a (bv : Map) c i :
  length (cell_dofs (dofmap (function_space0 a)) c)
  = length (cell_dofs (dofmap (function_space1 a)) c) ->
  cell_has_bc bv (cell_dofs (dofmap (function_space1 a)) c) = true ->
  i < length (cell_dofs (dofmap (function_space1 a)) c) ->
  exists be,
    apply_bc_cell a bv c
    = [VOpAddLocal be (cell_dofs (dofmap (function_space1 a)) c)] /\
    length be = length (cell_dofs (dofmap (function_space1 a)) c) /\
    be !! i
    = Some (eliminated_entry bv (cell_dofs (dofmap (function_space1 a)) c)
              (fun i j => tabulate_tensor a c
                 (i * length (cell_dofs (dofmap (function_space1 a)) c) + j))
              i 0%float).
Proof.
  intros _ Hbc Hi. unfold apply_bc_cell. rewrite Hbc. cbn [negb].
  set (dmap1 := cell_dofs (dofmap (function_space1 a)) c) in *.
  eexists. split; [reflexivity|].
  unfold eliminate, eliminated_entry.
  apply (eliminate_fold a c (length dmap1) bv dmap1 (seq 0 (length dmap1))
           (replicate (length dmap1) 0%float) i 0%float).
  - apply length_replicate.
  - exact Hi.
  - now apply lookup_replicate_2.
Qed.

(** X13.  When the trial space of [a] contains the function space of no
    condition (in particular without any condition), [apply_bc] adds
    nothing to [b]: its only call is the final [apply]. *)
Theorem apply_bc_without_conditions a bcs :
  (forall bc, bc ∈ bcs ->
              contains (function_space1 a) (bc_function_space bc) = false) ->
  apply_bc contains a bcs = [VOpApply].
Proof.
  intros H. unfold apply_bc. rewrite boundary_values_none by exact H.
  assert (Hnil : forall l, flat_map (apply_bc_cell a ∅) l = []).
  { induction l as [|c l IH]; [reflexivity|]. cbn [flat_map]. rewrite IH, app_nil_r.
    apply apply_bc_skips. unfold cell_has_bc.
    induction (cell_dofs (dofmap (function_space1 a)) c) as [|d ds IHd];
      [reflexivity|].
    cbn [existsb]. unfold has_key at 1. now rewrite lookup_empty. }
  now rewrite Hnil.
Qed.

(** ** The merged vector: where the blocks are written *)

Lemma copy_fold_other (b_vec : list float) src dst idx (l : list nat) :
  forall values : list float,
  (forall j, j ∈ l -> dst + j <> idx) ->
  fold_left (fun vals j =>
               match b_vec !! (src + j) with
               | Some x => <[dst + j := x]> vals
               | None => vals
               end) l values !! idx
  = values !! idx.
Proof.
  induction l as [|j l IH]; intros values H; cbn [fold_left]; [reflexivity|].
  rewrite IH by (intros j' Hj'; apply H; now right).
  destruct (b_vec !! (src + j)); [|reflexivity].
  apply list_lookup_insert_ne, H. now left.
Qed.

Lemma copy_fold_hit (b_vec : list float) src dst j x (l : list nat) :
  forall values : list float,
  NoDup l -> j ∈ l -> b_vec !! (src + j) = Some x -> dst + j < length values ->
  fold_left (fun vals j =>
               match b_vec !! (src + j) with
               | Some x => <[dst + j := x]> vals
               | None => vals
               end) l values !! (dst + j)
  = Some x.
Proof.
  induction l as [|j' l IH]; intros values Hnd Hin Hx Hlen;
    [now apply not_elem_of_nil in Hin|].
  cbn [fold_left]. apply NoDup_cons in Hnd as [Hnotin Hnd].
  apply elem_of_cons in Hin as [->|Hin].
  - rewrite copy_fold_other.
    + rewrite Hx. now apply list_lookup_insert_eq.
    + intros j0 Hj0 Heq. assert (j0 = j') by lia. subst. contradiction.
  - apply IH; auto. destruct (b_vec !! (src + j')); [|exact Hlen].
    now rewrite length_insert.
Qed.

Lemma copy_entries_other b_vec src dst n values idx :
  (idx < dst \/ dst + n <= idx) ->
  copy_entries b_vec src dst n values !! idx = values !! idx.
Proof.
  intros H. unfold copy_entries. apply copy_fold_other.
  intros j Hj. apply elem_of_seq in Hj. lia.
Qed.

Lemma copy_entries_hit b_vec src dst n values j x :
  j < n -> b_vec !! (src + j) = Some x -> dst + j < length values ->
  copy_entries b_vec src dst n values !! (dst + j) = Some x.
Proof.
  intros Hj Hx Hlen. unfold copy_entries. apply copy_fold_hit; auto.
  - apply NoDup_seq.
  - apply elem_of_seq. lia.
Qed.

Lemma sum_sizes_take_le size (Ls : list Form) : forall i L,
  Ls !! i = Some L ->
  sum_sizes size (take i Ls) + size L <= sum_sizes size Ls.
Proof.
  induction Ls as [|L0 Ls IH]; intros i L Hi; [discriminate Hi|].
  destruct i as [|i]; cbn in Hi.
  - injection Hi as ->. cbn [take]. rewrite sum_sizes_cons.
    unfold sum_sizes at 1. cbn. lia.
  - cbn [take]. rewrite !sum_sizes_cons. specialize (IH i L Hi). lia.
Qed.

Lemma sum_sizes_take_mono size (Ls : list Form) : forall i' i L',
  i' < i -> Ls !! i' = Some L' ->
  sum_sizes size (take i' Ls) + size L' <= sum_sizes size (take i Ls).
Proof.
  induction Ls as [|L0 Ls IH]; intros i' i L' Hlt Hi'; [discriminate Hi'|].
  destruct i as [|i]; [lia|]. destruct i' as [|i']; cbn in Hi'.
  - injection Hi' as ->. cbn [take]. rewrite sum_sizes_cons.
    unfold sum_sizes at 1. cbn. lia.
  - cbn [take]. rewrite !sum_sizes_cons.
    assert (Hlt' : i' < i) by lia. specialize (IH i' i L' Hlt' Hi'). lia.
Qed.

Lemma mono_vector_block_other Ls values i' idx :
  ~ written_by Ls i' idx ->
  mono_vector_block Ls values i' !! idx = values !! idx.
Proof.
  intros H. unfold mono_vector_block. destruct (Ls !! i') as [L'|] eqn:HL; [|reflexivity].
  rewrite !copy_entries_other; [reflexivity| |].
  - destruct (decide (sum_sizes owned (take i' Ls) <= idx
                      < sum_sizes owned (take i' Ls) + owned L')) as [Hin|Hout];
      [|lia].
    destruct H. exists L'. auto.
  - destruct (decide (sum_sizes owned Ls + sum_sizes ghosts (take i' Ls) <= idx
                      < sum_sizes owned Ls + sum_sizes ghosts (take i' Ls)
                        + ghosts L')) as [Hin|Hout]; [|lia].
    destruct H. exists L'. auto.
Qed.

Lemma mono_vector_fold_other Ls idx (l : list nat) : forall values,
  (forall i', i' ∈ l -> ~ written_by Ls i' idx) ->
  fold_left (mono_vector_block Ls) l values !! idx = values !! idx.
Proof.
  induction l as [|i' l IH]; intros values H; cbn [fold_left]; [reflexivity|].
  rewrite IH by (intros i0 Hi0; apply H; now right).
  apply mono_vector_block_other, H. now left.
Qed.

Lemma written_by_owned Ls i L j i' :
  Ls !! i = Some L -> j < owned L -> i' <> i ->
  ~ written_by Ls i' (sum_sizes owned (take i Ls) + j).
Proof.
  intros HL Hj Hne (L' & HL' & H).
  pose proof (sum_sizes_take_le owned Ls i L HL) as Hi.
  destruct H as [H|H]; [|lia].
  destruct (Nat.lt_total i' i) as [Hlt|[Heq|Hgt]]; [|contradiction|].
  - pose proof (sum_sizes_take_mono owned Ls i' i L' Hlt HL'). lia.
  - pose proof (sum_sizes_take_mono owned Ls i i' L Hgt HL). lia.
Qed.

Lemma written_by_ghost Ls i L j i' :
  Ls !! i = Some L -> j < ghosts L -> i' <> i ->
  ~ written_by Ls i'
      (sum_sizes owned Ls + sum_sizes ghosts (take i Ls) + j).
Proof.
  intros HL Hj Hne (L' & HL' & H).
  pose proof (sum_sizes_take_le owned Ls i' L' HL') as Hi'.
  destruct H as [H|H]; [lia|].
  destruct (Nat.lt_total i' i) as [Hlt|[Heq|Hgt]]; [|contradiction|].
  - pose proof (sum_sizes_take_mono ghosts Ls i' i L' Hlt HL'). lia.
  - pose proof (sum_sizes_take_mono ghosts Ls i i' L Hgt HL). lia.
Qed.

Lemma mono_vector_block_owned Ls values i L j :
  Ls !! i = Some L -> j < owned L ->
  sum_sizes owned Ls + sum_sizes ghosts Ls <= length values ->
  mono_vector_block Ls values i !! (sum_sizes owned (take i Ls) + j)
  = assemble_linear (replicate (owned L + ghosts L) 0%float) L !! j.
Proof.
  intros HL Hj Hlen. unfold mono_vector_block. rewrite HL.
  pose proof (sum_sizes_take_le owned Ls i L HL) as Hi.
  rewrite copy_entries_other by lia.
  set (b_vec := assemble_linear (replicate (owned L + ghosts L) 0%float) L).
  assert (Hb : is_Some (b_vec !! j)).
  { apply lookup_lt_is_Some. unfold b_vec.
    rewrite assemble_linear_length, length_replicate. lia. }
  destruct Hb as [x Hx]. rewrite Hx.
  apply copy_entries_hit; [exact Hj | exact Hx | lia].
Qed.

Lemma mono_vector_block_ghost Ls values i L j :
  Ls !! i = Some L -> j < ghosts L ->
  sum_sizes owned Ls + sum_sizes ghosts Ls <= length values ->
  mono_vector_block Ls values i
    !! (sum_sizes owned Ls + sum_sizes ghosts (take i Ls) + j)
  = assemble_linear (replicate (owned L + ghosts L) 0%float) L !! (owned L + j).
Proof.
  intros HL Hj Hlen. unfold mono_vector_block. rewrite HL.
  pose proof (sum_sizes_take_le ghosts Ls i L HL) as Hi.
  set (b_vec := assemble_linear (replicate (owned L + ghosts L) 0%float) L).
  assert (Hb : is_Some (b_vec !! (owned L + j))).
  { apply lookup_lt_is_Some. unfold b_vec.
    rewrite assemble_linear_length, length_replicate. lia. }
  destruct Hb as [x Hx]. rewrite Hx.
  apply copy_entries_hit; [exact Hj | exact Hx |].
  rewrite copy_entries_length. lia.
Qed.

Lemma mono_vector_fold_split Ls values i :
  i < length Ls ->
  fold_left (mono_vector_block Ls) (seq 0 (length Ls)) values
  = fold_left (mono_vector_block Ls) (seq (S i) (length Ls - S i))
      (mono_vector_block Ls
         (fold_left (mono_vector_block Ls) (seq 0 i) values) i).
Proof.
  intros Hi.
  replace (length Ls) with (i + S (length Ls - S i)) at 1 by lia.
  rewrite seq_app, fold_left_app. cbn [seq fold_left Nat.add]. reflexivity.
Qed.

(** X14.  The first loop of the branch for one merged vector writes
    block [i] of the right-hand side, assembled on its own from zero,
    into two segments: its owned entries at the sum of the owned sizes of
    the blocks before it, and its ghost entries behind the owned entries
    of all blocks, at the sum of the ghost sizes of the blocks before it.
    What the vector held there before is overwritten.  The cell dofs of
    every block are owned or ghost indices of its map, and the array has
    room for all segments. *)
Theorem merged_vector_layout Ls values i L :
  Forall (fun L => dofs_within L (owned L + ghosts L)) Ls ->
  Ls !! i = Some L ->
  sum_sizes owned Ls + sum_sizes ghosts Ls <= length values ->
  (forall j, j < owned L ->
     fold_left (mono_vector_block Ls) (seq 0 (length Ls)) values
       !! (sum_sizes owned (take i Ls) + j)
     = assemble_linear (replicate (owned L + ghosts L) 0%float) L !! j) /\
  (forall j, j < ghosts L ->
     fold_left (mono_vector_block Ls) (seq 0 (length Ls)) values
       !! (sum_sizes owned Ls + sum_sizes ghosts (take i Ls) + j)
     = assemble_linear (replicate (owned L + ghosts L) 0%float) L
         !! (owned L + j)).
Proof.
  intros _ HL Hlen. pose proof (lookup_lt_Some _ _ _ HL) as Hi.
  rewrite (mono_vector_fold_split Ls values i Hi). split; intros j Hj.
  - rewrite mono_vector_fold_other.
    + apply mono_vector_block_owned; auto.
      now rewrite mono_vector_fold_length.
    + intros i' Hi'. apply elem_of_seq in Hi'.
      apply (written_by_owned Ls i L j i' HL Hj). lia.
  - rewrite mono_vector_fold_other.
    + apply mono_vector_block_ghost; auto.
      now rewrite mono_vector_fold_length.
    + intros i' Hi'. apply elem_of_seq in Hi'.
      apply (written_by_ghost Ls i L j i' HL Hj). lia.
Qed.

(** ** The vector assembly keeps the layout *)



(** After the two checks at the head of the call. *)
Lemma assemble_vector_checked asm b block_type Ls :
  check_forms (_l asm) = Some Ls -> Ls <> [] ->
  assemble_vector contains scatter_reverse_add asm b block_type
  = match b with
    | VecEmpty =>
        if length (_l asm) <=? length (_a asm)
        then vector_branches contains scatter_reverse_add asm Ls
               (initialise_vector asm Ls block_type)
        else (b, Undefined)
    | _ => vector_branches contains scatter_reverse_add asm Ls b
    end.
Proof.
  intros Hc Hne. unfold assemble_vector. rewrite Hc.
  destruct (_l asm); [|reflexivity].
  cbn in Hc. injection Hc as <-. now destruct Hne.
Qed.



(** ** The single vector, entry by entry *)

(** X30.  The branch for a single linear form, on a given ghosted
    vector that holds the owned entries and every cell dof: entry [k]
    ends as the prescribed value when [k] is an owned
    index that the boundary map of the test space holds; otherwise as
    the old value plus the element values for dof [k] (in loop order),
    to which, for an index below the local size of the vector, the
    reverse scatter has been applied.  The local size is kept. *)
Theorem single_vector_entries asm v block_type L k x :
  _l asm = [Some L] ->
  dofs_within L (length (array v)) ->
  owned L <= length (array v) ->
  array v !! k = Some x ->
  exists v',
    fst (assemble_vector contains scatter_reverse_add asm (VecGhost v) block_type)
    = VecGhost v' /\
    local_size v' = local_size v /\
    array v' !! k
    = Some (match (if decide (k < owned L)
                   then boundary_values contains (mpi_comm_size (mesh L))
                          (function_space0 L) (_bcs asm) !! k
                   else None) with
            | Some g => g
            | None =>
                if k <? local_size v
                then scatter_reverse_add 0 k (add_all x (contributions L k))
                else add_all x (contributions L k)
            end).
Proof.
  intros Hl _ _ Hx.
  rewrite (assemble_vector_checked asm _ block_type [L])
    by (rewrite ?Hl; (reflexivity || discriminate)).
  unfold vector_branches, block_vector. rewrite Hl.
  cbn [length Nat.ltb Nat.leb fst].
  eexists. split; [reflexivity|]. split; [reflexivity|].
  cbn [array with_array]. rewrite set_bc_at.
  unfold ghost_update. cbn [array with_array local_size].
  rewrite list_lookup_imap, assemble_linear_lookup, Hx. cbn [fmap option_fmap option_map].
  destruct (decide (0 <= k < 0 + owned L)) as [Hin|Hout];
    destruct (decide (k < owned L)) as [Hk|Hk]; try lia.
  - rewrite Nat.sub_0_r.
    now destruct (boundary_values contains (mpi_comm_size (mesh L))
                    (function_space0 L) (_bcs asm) !! k).
  - reflexivity.
Qed.

(** ** The assembled vector, entry by entry, in the three branches *)

Lemma nest_vector_block_exact Ls bcs subs i L sub_b :
  Ls !! i = Some L -> subs !! i = Some sub_b ->
  nest_vector_block contains scatter_reverse_add Ls bcs subs i !! i
  = Some (let b2 := ghost_update scatter_reverse_add i
                      (with_array sub_b (assemble_linear (array sub_b) L)) in
          with_array b2
            (set_bc contains 0 (local_size b2) (array b2) L bcs)).
Proof.
  intros HL Hs. unfold nest_vector_block. rewrite HL, Hs.
  apply list_lookup_insert_eq. eapply lookup_lt_Some; eauto.
Qed.

Lemma nest_fold_exact Ls bcs idx : forall subs i L sub_b,
  NoDup idx -> i ∈ idx -> Ls !! i = Some L -> subs !! i = Some sub_b ->
  fold_left (nest_vector_block contains scatter_reverse_add Ls bcs) idx subs !! i
  = Some (let b2 := ghost_update scatter_reverse_add i
                      (with_array sub_b (assemble_linear (array sub_b) L)) in
          with_array b2
            (set_bc contains 0 (local_size b2) (array b2) L bcs)).
Proof.
  induction idx as [|k idx IH]; intros subs i L sub_b Hnd Hin HL Hs.
  - inversion Hin.
  - apply NoDup_cons in Hnd as [Hk Hnd]. cbn [fold_left].
    destruct (decide (i = k)) as [->|Hne].
    + rewrite nest_fold_other by exact Hk. now apply nest_vector_block_exact.
    + apply elem_of_cons in Hin as [Hin|Hin]; [contradiction|].
      apply IH; auto. now rewrite nest_vector_block_other.
Qed.

(** The element loop, the reverse scatter and [set_bc], in this order,
    on one ghosted vector: an owned entry. *)
Lemma reduce_then_set_entry n (v : Vec) L bcs size d x :
  array v !! d = Some x -> d < size -> d < local_size v ->
  set_bc contains 0 size
    (array (ghost_update scatter_reverse_add n
              (with_array v (assemble_linear (array v) L)))) L bcs !! d
  = Some (match boundary_values contains (mpi_comm_size (mesh L))
                  (function_space0 L) bcs !! d with
          | Some g => g
          | None => scatter_reverse_add n d (add_all x (contributions L d))
          end).
Proof.
  intros Hx Hd Hl. rewrite set_bc_at.
  destruct (decide (0 <= d < 0 + size)) as [_|Hout]; [|lia].
  rewrite Nat.sub_0_r. unfold ghost_update. cbn [array with_array local_size].
  rewrite list_lookup_imap, assemble_linear_lookup, Hx.
  cbn [fmap option_fmap option_map].
  apply Nat.ltb_lt in Hl. rewrite Hl.
  now destruct (boundary_values contains (mpi_comm_size (mesh L))
                  (function_space0 L) bcs !! d).
Qed.

(** The second loop of the merged branch, at an owned entry of block
    [i]. *)
Lemma mono_set_fold_at bcs Ls : forall off values i L d,
  Ls !! i = Some L -> d < owned L ->
  snd (fold_left (mono_set_bc contains bcs) Ls (off, values))
    !! (off + sum_sizes owned (take i Ls) + d)
  = match boundary_values contains (mpi_comm_size (mesh L))
            (function_space0 L) bcs !! d with
    | Some g =>
        (fun _ => g) <$> values !! (off + sum_sizes owned (take i Ls) + d)
    | None => values !! (off + sum_sizes owned (take i Ls) + d)
    end.
Proof.
  induction Ls as [|L0 Ls IH]; intros off values i L d HL Hd; [discriminate|].
  destruct i as [|i]; cbn [take]; cbn in HL.
  - injection HL as ->. cbn [fold_left mono_set_bc].
    rewrite mono_set_fold_below by (unfold sum_sizes; cbn; lia).
    unfold sum_sizes. cbn [fold_left]. rewrite Nat.add_0_r.
    rewrite set_bc_at.
    destruct (decide (off <= off + d < off + owned L)) as [_|Hout]; [|lia].
    replace (off + d - off) with d by lia. reflexivity.
  - rewrite sum_sizes_cons. cbn [fold_left mono_set_bc].
    replace (off + (owned L0 + sum_sizes owned (take i Ls)) + d)
      with (off + owned L0 + sum_sizes owned (take i Ls) + d) by lia.
    rewrite (IH (off + owned L0) _ i L d HL Hd).
    rewrite set_bc_outside by lia. reflexivity.
Qed.

(** The first loop of the merged branch, at an owned entry of block
    [i]. *)
Lemma mono_vector_fold_owned Ls values i L d :
  Ls !! i = Some L -> d < owned L ->
  sum_sizes owned Ls + sum_sizes ghosts Ls <= length values ->
  fold_left (mono_vector_block Ls) (seq 0 (length Ls)) values
    !! (sum_sizes owned (take i Ls) + d)
  = Some (add_all 0%float (contributions L d)).
Proof.
  intros HL Hd Hlen. pose proof (lookup_lt_Some _ _ _ HL) as Hi.
  rewrite (mono_vector_fold_split Ls values i Hi).
  rewrite mono_vector_fold_other.
  - rewrite (mono_vector_block_owned Ls _ i L d HL Hd)
      by now rewrite mono_vector_fold_length.
    rewrite assemble_linear_lookup, lookup_replicate_2 by lia. reflexivity.
  - intros i' Hi'. apply elem_of_seq in Hi'.
    apply (written_by_owned Ls i L d i' HL Hd). lia.
Qed.

(** An owned entry after the branches, for a vector that is not empty
    when the branches are entered. *)
Lemma vector_branches_entry asm Ls b0 b' i L d x :
  length Ls = length (_l asm) ->
  well_sized Ls b0 ->
  local_is_owned Ls b0 ->
  (forall v, b0 = VecGhost v -> 1 < length Ls ->
             sum_sizes owned Ls + sum_sizes ghosts Ls <= length (array v)) ->
  vector_branches contains scatter_reverse_add asm Ls b0 = (b', Done) ->
  Ls !! i = Some L ->
  d < owned L ->
  block_entry Ls b0 i d = Some x ->
  block_entry Ls b' i d
  = Some (match boundary_values contains (mpi_comm_size (mesh L))
                  (function_space0 L) (_bcs asm) !! d with
          | Some g => g
          | None =>
              scatter_reverse_add (vector_number b' i) (position Ls b' i d)
                (add_all (match b' with
                          | VecGhost _ => if 1 <? length Ls then 0%float else x
                          | _ => x
                          end)
                         (contributions L d))
          end).
Proof.
  intros Hlen Hws Hlo Hroom Hres HL Hd Hx.
  pose proof (lookup_lt_Some _ _ _ HL) as Hi.
  unfold vector_branches in Hres. destruct b0 as [|subs|v].
  - discriminate Hres.
  - injection Hres as <-. cbn [well_sized] in Hws.
    destruct (Forall2_lookup_l _ _ _ _ _ Hws HL) as (sub_b & Hs & Hsz & Hsl).
    cbn [block_entry vector_number position] in *. rewrite Hs in Hx.
    rewrite (nest_fold_exact Ls (_bcs asm) (seq 0 (length Ls)) subs i L sub_b)
      by (auto using NoDup_seq; apply elem_of_seq; lia).
    cbv zeta. cbn [array with_array local_size ghost_update].
    apply (reduce_then_set_entry i sub_b L (_bcs asm) (local_size sub_b) d x);
      auto; lia.
  - cbn [well_sized local_is_owned] in Hws, Hlo.
    pose proof (sum_sizes_take_le owned Ls i L HL) as Hle.
    destruct (block_vector asm) eqn:Hb.
    + injection Hres as <-.
      assert (Hb' : (1 <? length Ls) = true)
        by (rewrite Hlen; exact Hb).
      cbn [block_entry vector_number position array with_array].
      rewrite Hb'.
      rewrite <- (Nat.add_0_l (sum_sizes owned (take i Ls))) at 1.
      rewrite (mono_set_fold_at (_bcs asm) Ls 0 _ i L d HL Hd).
      rewrite Nat.add_0_l. unfold ghost_update.
      cbn [array with_array local_size].
      rewrite list_lookup_imap.
      rewrite (mono_vector_fold_owned Ls (array v) i L d HL Hd)
        by (apply (Hroom v eq_refl); now apply Nat.ltb_lt).
      cbn [fmap option_fmap option_map].
      assert (Hlt : (sum_sizes owned (take i Ls) + d <? local_size v) = true)
        by (apply Nat.ltb_lt; lia).
      rewrite Hlt.
      now destruct (boundary_values contains (mpi_comm_size (mesh L))
                      (function_space0 L) (_bcs asm) !! d).
    + assert (Hb' : (1 <? length Ls) = false)
        by (rewrite Hlen; exact Hb).
      pose proof Hb' as Hone. apply Nat.ltb_ge in Hone.
      destruct Ls as [|L0 [|L1 Ls]]; [discriminate HL| |cbn in Hone; lia].
      destruct i as [|i]; [|discriminate HL]. cbn in HL. injection HL as ->.
      injection Hres as <-.
      rewrite sum_sizes_cons in Hlo. change (sum_sizes owned []) with 0 in Hlo.
      cbn [block_entry vector_number position array with_array take] in *.
      rewrite Hb'. change (sum_sizes owned []) with 0 in *.
      cbn [Nat.add] in *.
      apply (reduce_then_set_entry 0 v L (_bcs asm) (owned L) d x); auto; lia.
Qed.

(** The vector that the constructor gives for an empty [b]: one of the
    three layouts. *)
Lemma initialise_vector_cases asm Ls block_type :
  length Ls = length (_l asm) -> Ls <> [] ->
  initialise_vector asm Ls block_type = init_nest Ls
  \/ (1 < length Ls /\ initialise_vector asm Ls block_type = init_monolithic Ls)
  \/ (exists L, Ls = [L] /\ initialise_vector asm Ls block_type = init_vector L).
Proof.
  intros Hlen Hne. unfold initialise_vector, block_vector. rewrite <- Hlen.
  destruct block_type; cbn [is_nested is_monolithic]; [|now left].
  rewrite andb_true_r. destruct (1 <? length Ls) eqn:Hb.
  - right. left. split; [now apply Nat.ltb_lt | reflexivity].
  - right. right. apply Nat.ltb_ge in Hb.
    destruct Ls as [|L [|L1 Ls]]; [now destruct Hne| |cbn in Hb; lia].
    now exists L.
Qed.

Lemma initialised_ready asm Ls block_type i L d :
  length Ls = length (_l asm) -> Ls !! i = Some L -> d < owned L ->
  let b0 := initialise_vector asm Ls block_type in
  well_sized Ls b0 /\
  local_is_owned Ls b0 /\
  (forall v, b0 = VecGhost v -> 1 < length Ls ->
             sum_sizes owned Ls + sum_sizes ghosts Ls <= length (array v)) /\
  block_entry Ls b0 i d = Some 0%float.
Proof.
  intros Hlen HL Hd b0.
  pose proof (sum_sizes_take_le owned Ls i L HL) as Hle.
  assert (Hne : Ls <> []) by (intros ->; discriminate HL).
  destruct (initialise_vector_cases asm Ls block_type Hlen Hne)
    as [H|[[_ H]|(L0 & -> & H)]]; unfold b0; rewrite H; clear H.
  - split; [apply init_nest_well_sized|]. split; [exact I|].
    split; [intros v Hv; discriminate Hv|].
    unfold init_nest. cbn [block_entry].
    change (map ?f ?l) with (f <$> l). rewrite list_lookup_fmap, HL.
    cbn. apply lookup_replicate_2. lia.
  - unfold init_monolithic. cbn [well_sized local_is_owned block_entry zero_vec
                                  array local_size].
    rewrite length_replicate. split; [lia|]. split; [reflexivity|]. split.
    + intros v [= <-] _. cbn. rewrite length_replicate. lia.
    + apply lookup_replicate_2. lia.
  - destruct i as [|i]; [|discriminate HL]. cbn in HL. injection HL as ->.
    unfold init_vector. cbn [well_sized local_is_owned block_entry zero_vec
                               array local_size take].
    rewrite length_replicate, sum_sizes_cons.
    change (sum_sizes owned []) with 0. split; [lia|]. split; [lia|]. split.
    + intros v _ H. cbn in H. lia.
    + apply lookup_replicate_2. lia.
Qed.

(** C2.  When all blocks of [_l] are non-null and the vector given (if
    not empty) is laid out for them and has room for what is written,
    then after the vector assembly, in each of the three branches, an
    owned entry [d] of block [i] holds: the value that the boundary map
    of the block's space prescribes for [d], as it is, when there is
    one; otherwise the sum of the element contributions after the
    reverse scatter of the ghost values has been applied to it.  So the
    scatter is applied to what the element loop leaves and not to a
    prescribed value, which is written over its result.  The prescribed
    value is that of the last pair for [d] among the pairs that the
    boundary conditions give. *)
Theorem prescribed_values asm b block_type Ls b' i L d :
  check_forms (_l asm) = Some Ls ->
  well_sized Ls b ->
  local_is_owned Ls b ->
  fits Ls b ->
  assemble_vector contains scatter_reverse_add asm b block_type = (b', Done) ->
  Ls !! i = Some L ->
  d < owned L ->
  block_entry Ls b' i d
  = Some (match boundary_values contains (mpi_comm_size (mesh L))
                  (function_space0 L) (_bcs asm) !! d with
          | Some g => g
          | None =>
              scatter_reverse_add (vector_number b' i) (position Ls b' i d)
                (add_all (start_value Ls b b' i d) (contributions L d))
          end) /\
  (forall g pre post,
     prescriptions contains (mpi_comm_size (mesh L)) (function_space0 L)
       (_bcs asm) = pre ++ (d, g) :: post ->
     d ∉ post.*1 ->
     block_entry Ls b' i d = Some g).
Proof.
  intros Hcf Hws Hlo Hfit Hres HL Hd.
  pose proof (check_forms_length _ _ Hcf) as Hlen.
  pose proof (lookup_lt_Some _ _ _ HL) as Hi.
  pose proof (sum_sizes_take_le owned Ls i L HL) as Hle.
  assert (Hne : Ls <> []) by (intros ->; discriminate HL).
  rewrite (assemble_vector_checked asm b block_type Ls Hcf Hne) in Hres.
  assert (Hmain :
    block_entry Ls b' i d
    = Some (match boundary_values contains (mpi_comm_size (mesh L))
                    (function_space0 L) (_bcs asm) !! d with
            | Some g => g
            | None =>
                scatter_reverse_add (vector_number b' i) (position Ls b' i d)
                  (add_all (start_value Ls b b' i d) (contributions L d))
            end)).
  { unfold start_value. destruct b as [|subs|v].
    - (* the empty vector: it is initialised first *)
      destruct (length (_l asm) <=? length (_a asm)); [|discriminate Hres].
      destruct (initialised_ready asm Ls block_type i L d Hlen HL Hd)
        as (H1 & H2 & H3 & H4).
      cbn [block_entry default].
      exact (vector_branches_entry asm Ls _ b' i L d 0%float
               Hlen H1 H2 H3 Hres HL Hd H4).
    - (* a nested vector *)
      assert (Hx : is_Some (block_entry Ls (VecNest subs) i d)).
      { cbn [block_entry well_sized] in *.
        destruct (Forall2_lookup_l _ _ _ _ _ Hws HL) as (sub_b & -> & Hsz & Hsl).
        apply lookup_lt_is_Some_2. lia. }
      destruct Hx as [x Hx]. rewrite Hx. cbn [default].
      apply (vector_branches_entry asm Ls (VecNest subs) b' i L d x); auto.
      intros v Hv. discriminate Hv.
    - (* one ghosted vector *)
      assert (Hx : is_Some (block_entry Ls (VecGhost v) i d)).
      { cbn [block_entry well_sized] in *. apply lookup_lt_is_Some_2. lia. }
      destruct Hx as [x Hx]. rewrite Hx. cbn [default].
      apply (vector_branches_entry asm Ls (VecGhost v) b' i L d x); auto.
      intros v' [= <-] Hlt. cbn [fits] in Hfit.
      destruct Ls as [|L0 [|L1 Ls']]; cbn in Hlt; lia. }
  split; [exact Hmain|].
  intros g pre post Hpre Hpost. rewrite Hmain.
  now rewrite boundary_values_spec, Hpre, merge_values_last by exact Hpost.
Qed.

End WithEnv.

Lemma inserted_block_entries_witness :
  exists Ae,
    assemble_form same_space Whole a_VV [bc_left] !! 0
    = Some (OpAddLocal Whole Ae [0; 1] [0; 1]) /\
    entry Ae 1 1 = Some 1%float.
Proof.
  destruct (inserted_block_entries same_space Whole a_VV [bc_left] 0 1 1 1 1)
    as (Ae & H1 & H2).
  - vm_compute. lia.
  - reflexivity.
  - reflexivity.
  - exists Ae. split; [exact H1 | exact H2].
Defined.

Lemma monolithic_diagonal_owned_witness :
  let mat := view (row_offset size_all (_a asm_square) 0)
                  (col_offset size_all [Some a_VV; Some a_VV] 1) a_VV in
  exists pre adds diag post,
    fst (assemble_matrix same_space 2 asm_square None monolithic)
    = pre ++ adds ++ [OpApply mat FLUSH] ++ diag ++ [OpRestore mat] ++ post /\
    length adds = 2 /\
    (OpAddLocal mat unit_block [0] [0] ∈ diag).
Proof.
  intros mat.
  destruct (monolithic_diagonal_owned same_space 2 asm_square None monolithic
              0 1 [Some a_VV; Some a_VV] a_VV)
    as (pre & adds & diag & post & H1 & [H2 _] & H3).
  - reflexivity.
  - reflexivity.
  - reflexivity.
  - reflexivity.
  - reflexivity.
  - exists pre, adds, diag, post. split; [exact H1|]. split; [exact H2|].
    apply H3. split; [reflexivity|]. exists 0.
    split; [|split; [vm_compute; lia | reflexivity]].
    vm_compute. eauto.
Defined.

(** C4 on an example: two fields without coupling. *)
Lemma null_blocks_witness :
  snd (assemble_matrix same_space 2 asm_null None nested) = Done /\
  snd (assemble_matrix same_space 2 asm_null None monolithic) = Thrown NullBlock.
Proof.
  destruct (null_blocks same_space 2 asm_null None nested) as [Hn _];
    [discriminate | right; reflexivity |].
  destruct (null_blocks same_space 2 asm_null None monolithic) as [_ Hm];
    [discriminate | right; reflexivity |].
  split.
  - apply Hn. reflexivity.
  - apply Hm.
    + reflexivity.
    + reflexivity.
    + repeat constructor; discriminate.
    + exists [Some a_VV; None]. split; repeat constructor.
Defined.

Lemma merged_blocks_never_set_witness :
  Forall (fun op => is_set op = false)
         (fst (assemble_matrix same_space 2 asm_null None monolithic)).
Proof.
  apply (merged_blocks_never_set same_space 2 asm_null None monolithic);
    reflexivity.
Defined.

Lemma throws_only_for_null_block_witness :
  NullBlock = NullBlock /\
  storage asm_null None monolithic = MATAIJ /\
  block_matrix asm_null = true /\
  exists row, row ∈ _a asm_null /\ None ∈ row.
Proof.
  apply (throws_only_for_null_block same_space 2 asm_null None monolithic NullBlock).
  reflexivity.
Defined.

Lemma no_final_assembly_on_failure_witness :
  count_final (fst (assemble_matrix same_space 2 asm_null None monolithic)) = 0.
Proof.
  apply (no_final_assembly_on_failure same_space 2 asm_null None monolithic).
  vm_compute. discriminate.
Defined.

Lemma row_views_do_not_overlap_witness :
  {| is_bs := 1; is_idx := [0; 1; 2]%Z |} = {| is_bs := 1; is_idx := [3; 4; 5]%Z |} \/
  forall x y, x ∈ [0; 1; 2]%Z -> y ∈ [3; 4; 5]%Z -> (x < y)%Z.
Proof.
  eapply (row_views_do_not_overlap same_space 2 [bc_left] 0%Z
            [Some a_VV; Some a_VV] 0%Z 0 5).
  - reflexivity.
  - reflexivity.
  - lia.
  - reflexivity.
  - reflexivity.
Defined.

Lemma L_V_dofs_within n : 3 <= n -> dofs_within L_V n.
Proof.
  intros Hn c Hc. cbn in Hc. cbn.
  repeat constructor; lia.
Qed.

Lemma assemble_linear_accumulates_witness :
  assemble_linear (replicate 6 0%float) L_V !! 1
  = (fun x => add_all x (contributions L_V 1)) <$> replicate 6 0%float !! 1.
Proof.
  apply (assemble_linear_accumulates (replicate 6 0%float) L_V 1).
  apply L_V_dofs_within. cbn. lia.
Defined.

Lemma set_bc_entries_witness :
  length (set_bc same_space 0 2 (replicate 3 0%float) L_V [bc_left])
  = length (replicate 3 0%float) /\
  set_bc same_space 0 2 (replicate 3 0%float) L_V [bc_left] !! 0
  = match (if decide (0 <= 0 < 0 + 2)
           then boundary_values same_space (mpi_comm_size (mesh L_V))
                  (function_space0 L_V) [bc_left] !! (0 - 0)
           else None) with
    | Some g => (fun _ => g) <$> replicate 3 0%float !! 0
    | None => replicate 3 0%float !! 0
    end.
Proof.
  apply (set_bc_entries same_space 0 2 (replicate 3 0%float) L_V [bc_left] 0).
  cbn. lia.
Defined.

Lemma set_bc_idempotent_witness :
  set_bc same_space 0 2 (set_bc same_space 0 2 (replicate 3 0%float) L_V [bc_left])
    L_V [bc_left]
  = set_bc same_space 0 2 (replicate 3 0%float) L_V [bc_left].
Proof.
  apply (set_bc_idempotent same_space 0 2 (replicate 3 0%float) L_V [bc_left]).
  cbn. lia.
Defined.

Lemma assemble_linear_frame_witness :
  length (assemble_linear (replicate 6 0%float) L_V) = 6 /\
  assemble_linear (replicate 6 0%float) L_V !! 5 = Some 0%float.
Proof.
  apply (assemble_linear_frame (replicate 6 0%float) L_V 5).
  { apply L_V_dofs_within. cbn. lia. }
  intros c Hc Hin. cbn in Hc, Hin.
  repeat (apply elem_of_cons in Hin as [Hin|Hin]; [lia|]).
  now apply not_elem_of_nil in Hin.
Defined.

Lemma apply_bc_cell_entries_witness :
  exists be,
    apply_bc_cell a_VV (<[0 := 3%float]> ∅) 0 = [VOpAddLocal be [0; 1]] /\
    length be = 2 /\
    be !! 1 = Some (eliminated_entry (<[0 := 3%float]> ∅) [0; 1]
                      (fun i j => stiffness 0 (i * 2 + j)) 1 0%float).
Proof.
  apply (apply_bc_cell_entries a_VV (<[0 := 3%float]> ∅) 0 1).
  - reflexivity.
  - reflexivity.
  - cbn. lia.
Defined.

Lemma apply_bc_without_conditions_witness :
  apply_bc same_space a_VW [bc_left] = [VOpApply].
Proof.
  apply (apply_bc_without_conditions same_space a_VW [bc_left]).
  intros bc Hbc. apply list_elem_of_singleton in Hbc as ->. reflexivity.
Defined.

Lemma merged_vector_layout_witness :
  (forall j, j < owned L_V ->
     fold_left (mono_vector_block [L_V; L_V]) (seq 0 2) (replicate 6 0%float)
       !! (sum_sizes owned (take 1 [L_V; L_V]) + j)
     = assemble_linear (replicate (owned L_V + ghosts L_V) 0%float) L_V !! j) /\
  (forall j, j < ghosts L_V ->
     fold_left (mono_vector_block [L_V; L_V]) (seq 0 2) (replicate 6 0%float)
       !! (sum_sizes owned [L_V; L_V] + sum_sizes ghosts (take 1 [L_V; L_V]) + j)
     = assemble_linear (replicate (owned L_V + ghosts L_V) 0%float) L_V
         !! (owned L_V + j)).
Proof.
  apply (merged_vector_layout [L_V; L_V] (replicate 6 0%float) 1 L_V).
  - constructor; [apply L_V_dofs_within; cbn; lia|].
    constructor; [apply L_V_dofs_within; cbn; lia|]. constructor.
  - reflexivity.
  - vm_compute. lia.
Defined.


Lemma single_vector_entries_witness :
  exists v',
    fst (assemble_vector same_space receive_one asm_single
           (VecGhost (zero_vec 2 1)) monolithic)
    = VecGhost v' /\
    local_size v' = 2 /\
    array v' !! 1
    = Some (match (if decide (1 < owned L_V)
                   then boundary_values same_space (mpi_comm_size (mesh L_V))
                          (function_space0 L_V) (_bcs asm_single) !! 1
                   else None) with
            | Some g => g
            | None =>
                if 1 <? 2
                then receive_one 0 1 (add_all 0%float (contributions L_V 1))
                else add_all 0%float (contributions L_V 1)
            end).
Proof.
  apply (single_vector_entries same_space receive_one asm_single (zero_vec 2 1)
           monolithic L_V 1 0%float).
  - reflexivity.
  - apply L_V_dofs_within. cbn. lia.
  - cbn. lia.
  - reflexivity.
Defined.

(** C2 on an example: two conditions prescribe dof 0 of the second
    block, every owned entry receives 1 from the other ranks.  Entry 0
    holds the value of the second condition, as it is; entry 1, which is
    not prescribed, holds the assembled value after the scatter. *)
Lemma prescribed_values_witness :
  let b' := fst (assemble_vector same_space receive_one asm_square VecEmpty
                   monolithic) in
  block_entry [L_V; L_V] b' 1 0 = Some 4%float /\
  block_entry [L_V; L_V] b' 1 1
  = Some (receive_one 0 3 (add_all 0%float (contributions L_V 1))).
Proof.
  intros b'.
  assert (Hfit : fits [L_V; L_V] VecEmpty).
  { constructor; [apply L_V_dofs_within; cbn; lia|].
    constructor; [apply L_V_dofs_within; cbn; lia|]. constructor. }
  destruct (prescribed_values same_space receive_one asm_square VecEmpty
              monolithic [L_V; L_V] b' 1 L_V 0) as [_ H0];
    [reflexivity | exact I | exact I | exact Hfit | reflexivity | reflexivity
     | vm_compute; lia |].
  destruct (prescribed_values same_space receive_one asm_square VecEmpty
              monolithic [L_V; L_V] b' 1 L_V 1) as [H1 _];
    [reflexivity | exact I | exact I | exact Hfit | reflexivity | reflexivity
     | vm_compute; lia |].
  split.
  - apply (H0 4%float [(0, 3%float)] []); [reflexivity | apply not_elem_of_nil].
  - exact H1.
Defined.

End AssemblerExtra.

(* ===================================================================== *)
(** * Further properties of the multi-point constraint                    *)
(* ===================================================================== *)

Module MultiPointConstraintExtra.
Import MultiPointConstraint MultiPointConstraintAccess MultiPointConstraintProofs.

(** ** The cell-to-slave array, row by row *)

Lemma classify_loop_csr cells : forall m j,
  _cell_to_slave (fst (fold_left classify_cell cells (m, j)))
  = _cell_to_slave m ++ concat (rows_of (_slaves m) cells) /\
  _offsets_cell_to_slave (fst (fold_left classify_cell cells (m, j)))
  = _offsets_cell_to_slave m ++ offsets_from j (rows_of (_slaves m) cells).
Proof.
  unfold rows_of.
  induction cells as [|[c dofs] cells IH]; intros m j.
  - cbn. now rewrite !app_nil_r.
  - cbn [fold_left]. destruct (touched (_slaves m) dofs) eqn:Ht.
    + rewrite classify_slave_cell by exact Ht.
      match goal with |- context [fold_left _ _ (?m1, ?j1)] =>
        destruct (IH m1 j1) as (Hc & Ho) end.
      rewrite Hc, Ho. cbn [_slaves _cell_to_slave _offsets_cell_to_slave
                             push_offset push_slave_cell append_cell_to_slave].
      rewrite filter_cons_True by (simpl; exact Ht).
      rewrite fmap_cons. cbn [concat offsets_from snd].
      rewrite <- !app_assoc. split; reflexivity.
    + rewrite classify_normal_cell by exact Ht.
      destruct (IH (push_normal_cell m (Z.of_nat c)) j) as (Hc & Ho).
      rewrite Hc, Ho. cbn [_slaves _cell_to_slave _offsets_cell_to_slave
                             push_normal_cell].
      rewrite filter_cons_False by (simpl; congruence). split; reflexivity.
Qed.

Lemma csr_rows (rows : list (list Z)) : forall j k row,
  rows !! k = Some row ->
  (j :: offsets_from j rows) !! k
  = Some (j + Z.of_nat (length (concat (take k rows)))) /\
  (j :: offsets_from j rows) !! S k
  = Some (j + Z.of_nat (length (concat (take k rows))) + Z.of_nat (length row)) /\
  take (length row) (drop (length (concat (take k rows))) (concat rows)) = row.
Proof.
  induction rows as [|r rows IH]; intros j k row Hk; [discriminate Hk|].
  destruct k as [|k]; cbn in Hk.
  - injection Hk as ->. change (take 0 (row :: rows)) with (@nil (list Z)).
    change (concat (@nil (list Z))) with (@nil Z). cbn [length]. rewrite Z.add_0_r.
    split; [reflexivity|]. split; [reflexivity|].
    rewrite drop_0. cbn [concat]. apply take_app_length.
  - destruct (IH (j + Z.of_nat (length r)) k row Hk) as (H1 & H2 & H3).
    cbn [offsets_from take concat]. rewrite length_app.
    change ((j :: ?x :: ?l) !! S k) with ((x :: l) !! k).
    change ((j :: ?x :: ?l) !! S (S k)) with ((x :: l) !! S k).
    rewrite H1, H2. split; [f_equal; lia|]. split; [f_equal; lia|].
    rewrite drop_app_add'; [exact H3 | reflexivity].
Qed.

Lemma construct_csr dofmap slaves masters coefficients offsets :
  let m := construct dofmap slaves masters coefficients offsets in
  _cell_to_slave m
  = concat (rows_of slaves (imap (fun c dofs => (c, dofs)) dofmap)) /\
  _offsets_cell_to_slave m
  = 0 :: offsets_from 0 (rows_of slaves (imap (fun c dofs => (c, dofs)) dofmap)).
Proof.
  unfold construct, cell_classification. cbn [_slave_cells length Nat.ltb Nat.leb].
  cbv zeta.
  match goal with |- context [fold_left classify_cell ?cells (?m0, ?j0)] =>
    destruct (classify_loop_csr cells m0 j0) as (Hc & Ho) end.
  cbn [fst]. rewrite Hc, Ho. split; reflexivity.
Qed.

(** X16.  After construction, the entries of the cell-to-slave array
    between the offsets [k] and [k + 1] belong to the [k]-th slave cell:
    they list, slave by slave in the order of [_slaves], the slave once
    for every dof of that cell that is equal to it; this row is never
    empty. *)
Theorem cell_to_slave_rows dofmap slaves masters coefficients offsets k c :
  let m := construct dofmap slaves masters coefficients offsets in
  _slave_cells m !! k = Some c ->
  exists i dofs x y,
    c = Z.of_nat i /\ dofmap !! i = Some dofs /\
    _offsets_cell_to_slave m !! k = Some x /\
    _offsets_cell_to_slave m !! S k = Some y /\
    0 <= x <= y /\
    slice (_cell_to_slave m) x y = hits slaves dofs /\
    hits slaves dofs <> [].
Proof.
  intros m Hk.
  destruct (construct_spec dofmap slaves masters coefficients offsets)
    as (_ & Hsc & _ & _).
  destruct (construct_csr dofmap slaves masters coefficients offsets) as (Hc & Ho).
  fold m in Hsc, Hc, Ho. rewrite Hsc in Hk.
  rewrite list_lookup_fmap in Hk.
  destruct (filter _ _ !! k) as [[i dofs]|] eqn:Hf; [|discriminate Hk].
  cbn in Hk. injection Hk as <-.
  pose proof (list_elem_of_lookup_2 _ _ _ Hf) as Hin.
  apply list_elem_of_filter in Hin as [Ht Hin]. cbn [snd] in Ht.
  apply mesh_range_elem in Hin.
  assert (Hrow : rows_of slaves (imap (fun c dofs => (c, dofs)) dofmap) !! k
                 = Some (hits slaves dofs)).
  { unfold rows_of. rewrite list_lookup_fmap, Hf. reflexivity. }
  destruct (csr_rows _ 0 k _ Hrow) as (H1 & H2 & H3).
  exists i, dofs. eexists. eexists.
  split; [reflexivity|]. split; [exact Hin|].
  rewrite Ho. split; [exact H1|]. split; [exact H2|].
  split; [lia|]. split.
  - unfold slice. rewrite Hc.
    match goal with |- take ?n (drop ?d _) = _ =>
      replace n with (length (hits slaves dofs)) by lia;
      replace d with (length (concat (take k
        (rows_of slaves (imap (fun c dofs => (c, dofs)) dofmap))))) by lia
    end.
    exact H3.
  - unfold touched in Ht. now destruct (hits slaves dofs).
Qed.

Lemma iter_cached m n :
  _slave_cells m <> [] ->
  Nat.iter n (fun m => fst (cell_classification m)) m = m.
Proof.
  intros Hne. induction n as [|n IH]; [reflexivity|].
  rewrite Nat.iter_succ, IH, cell_classification_cached by exact Hne.
  reflexivity.
Qed.

(** X17.  When a cell of the mesh has a slave dof, the classification
    that the constructor made is kept: any number of further calls of
    [cell_classification] leave the object as it is and return the same
    two lists. *)
Theorem classification_kept_when_found
    dofmap slaves masters coefficients offsets i dofs n :
  Forall (Forall (fun d => 0 <= d < 2 ^ 32)) dofmap ->
  dofmap !! i = Some dofs -> touches slaves dofs ->
  let m := construct dofmap slaves masters coefficients offsets in
  Nat.iter n (fun m => fst (cell_classification m)) m = m /\
  cell_classification m = (m, (_slave_cells m, _normal_cells m)).
Proof.
  intros Hrange Hi Ht m.
  assert (Hne : _slave_cells m <> []).
  { destruct (construct_spec dofmap slaves masters coefficients offsets)
      as (_ & Hsc & _ & _).
    fold m in Hsc. intros Hnil.
    assert (Hin : Z.of_nat i ∈ _slave_cells m).
    { rewrite Hsc. apply (class_elem dofmap slaves true i dofs Hi).
      apply touched_touches; [|exact Ht].
      rewrite Forall_forall in Hrange. apply Hrange.
      eapply list_elem_of_lookup_2; eauto. }
    rewrite Hnil in Hin. now apply not_elem_of_nil in Hin. }
  split; [now apply iter_cached | now apply cell_classification_cached].
Qed.

(** ** The order of the two lists *)

Lemma class_increasing (slaves : list Z) (b : bool) (l : list (list Z)) :
  forall n,
  increasing ((fun c : nat * list Z => Z.of_nat (fst c))
                <$> filter (fun c => touched slaves (snd c) = b)
                           (imap (fun c dofs => ((n + c)%nat, dofs)) l)) /\
  Forall (fun x => Z.of_nat n <= x)
         ((fun c : nat * list Z => Z.of_nat (fst c))
            <$> filter (fun c => touched slaves (snd c) = b)
                       (imap (fun c dofs => ((n + c)%nat, dofs)) l)).
Proof.
  induction l as [|dofs l IH]; intros n.
  - cbn. split; [|constructor]. intros p q x y _ Hx. discriminate Hx.
  - cbn [imap]. destruct (IH (S n)) as [Hinc Hge].
    assert (Hext : imap ((fun c dofs => ((n + c)%nat, dofs)) ∘ S) l
                   = imap (fun c dofs => ((S n + c)%nat, dofs)) l).
    { apply imap_ext. intros c d _. cbn. f_equal. lia. }
    rewrite Hext.
    assert (Hge' : Forall (fun x => Z.of_nat n <= x)
                     ((fun c : nat * list Z => Z.of_nat (fst c))
                        <$> filter (fun c => touched slaves (snd c) = b)
                              (imap (fun c dofs => ((S n + c)%nat, dofs)) l))).
    { eapply Forall_impl; [exact Hge|]. cbn. intros. lia. }
    destruct (decide (touched slaves dofs = b)) as [Hb|Hb].
    + rewrite filter_cons_True by exact Hb. rewrite fmap_cons. cbn [fst].
      split.
      * intros p q x y Hpq Hx Hy. destruct q as [|q]; [lia|]. cbn in Hy.
        destruct p as [|p]; cbn in Hx.
        -- injection Hx as <-. rewrite Forall_forall in Hge.
           apply list_elem_of_lookup_2, Hge in Hy. lia.
        -- apply (Hinc p q x y); auto. lia.
      * constructor; [lia | exact Hge'].
    + rewrite filter_cons_False by exact Hb. split; [exact Hinc | exact Hge'].
Qed.

(** X18.  After construction, both lists hold their cells in increasing
    order of the cell index (the order of the loop over the mesh). *)
Theorem classification_in_mesh_order dofmap slaves masters coefficients offsets :
  let m := construct dofmap slaves masters coefficients offsets in
  increasing (_slave_cells m) /\ increasing (_normal_cells m).
Proof.
  intros m.
  destruct (construct_spec dofmap slaves masters coefficients offsets)
    as (_ & Hsc & Hnc & _).
  fold m in Hsc, Hnc. rewrite Hsc, Hnc.
  split; [apply (class_increasing slaves true dofmap 0)
         |apply (class_increasing slaves false dofmap 0)].
Qed.

(** ** [masters(i)] and [coefficients(i)] *)

Lemma at_index_Some {A} (v : list A) k x :
  at_index v k = Some x <-> 0 <= k /\ v !! Z.to_nat k = Some x.
Proof.
  unfold at_index. destruct (Z.ltb_spec k 0); split.
  - discriminate.
  - intros [H0 _]. lia.
  - auto.
  - now intros [_ H1].
Qed.

Lemma slice_length {A} (v : list A) lo hi :
  hi <= lo \/ (0 <= lo /\ hi <= Z.of_nat (length v)) ->
  length (slice v lo hi) = Z.to_nat (hi - lo).
Proof.
  intros H. unfold slice. rewrite length_take, length_drop. lia.
Qed.

Lemma slice_lookup {A} (v : list A) lo hi k :
  0 <= lo -> (k < Z.to_nat (hi - lo))%nat ->
  slice v lo hi !! k = v !! Z.to_nat (lo + Z.of_nat k).
Proof.
  intros Hlo Hk. unfold slice. rewrite lookup_take_lt by exact Hk.
  rewrite lookup_drop. f_equal. lia.
Qed.

Lemma gather_range_spec {A} (v : list A) lo hi l :
  gather_range v lo hi = Some l <->
  (hi <= lo \/ (0 <= lo /\ hi <= Z.of_nat (length v))) /\ l = slice v lo hi.
Proof.
  unfold gather_range. rewrite mapM_Some. split.
  - intros HF.
    assert (Hlen : length l = Z.to_nat (hi - lo)).
    { apply Forall2_length in HF. now rewrite length_fmap, length_seq in HF. }
    assert (Hat : forall k, (k < Z.to_nat (hi - lo))%nat ->
                    exists x, l !! k = Some x /\
                              at_index v (lo + Z.of_nat k) = Some x).
    { intros k Hk.
      assert (Hj : ((fun k => lo + Z.of_nat k) <$> seq 0 (Z.to_nat (hi - lo))) !! k
                   = Some (lo + Z.of_nat k)).
      { rewrite list_lookup_fmap, lookup_seq_lt by exact Hk. reflexivity. }
      destruct (Forall2_lookup_l _ _ _ _ _ HF Hj) as (x & Hx & Hax). eauto. }
    assert (Hrange : hi <= lo \/ (0 <= lo /\ hi <= Z.of_nat (length v))).
    { destruct (Z.le_gt_cases hi lo) as [Hle|Hgt]; [now left | right].
      destruct (Hat 0%nat) as (x & _ & Hx); [lia|].
      apply at_index_Some in Hx as [Hx _].
      destruct (Hat (Z.to_nat (hi - lo) - 1)%nat) as (y & _ & Hy); [lia|].
      apply at_index_Some in Hy as [_ Hy]. apply lookup_lt_Some in Hy. lia. }
    split; [exact Hrange|].
    apply list_eq_same_length with (n := Z.to_nat (hi - lo));
      [now apply slice_length | exact Hlen |].
    intros k x y Hk Hx Hy. destruct (Hat k Hk) as (x' & Hx' & Hax).
    apply at_index_Some in Hax as [H0 Hax].
    destruct Hrange as [Hr|[Hr _]]; [lia|].
    rewrite slice_lookup in Hy by assumption. congruence.
  - intros [Hrange ->].
    apply Forall2_same_length_lookup_2.
    + rewrite length_fmap, length_seq. symmetry. now apply slice_length.
    + intros k j x Hj Hx. rewrite list_lookup_fmap in Hj.
      destruct (seq 0 (Z.to_nat (hi - lo)) !! k) as [k'|] eqn:Hk; [|discriminate Hj].
      apply lookup_seq in Hk as [-> Hk]. cbn in Hj. injection Hj as <-.
      destruct Hrange as [Hr|[Hr _]]; [lia|].
      rewrite slice_lookup in Hx by assumption.
      apply at_index_Some. split; [lia | exact Hx].
Qed.

Lemma accessor_spec {A} (NDEBUG : bool) (v : list A) (offsets : list Z) i l :
  (if NDEBUG || (i <? unsigned (Z.of_nat (length v)))
   then
     match at_index offsets i, at_index offsets (i + 1) with
     | Some lo, Some hi =>
         match gather_range v lo hi with
         | Some out => Returned out
         | None => OutOfRange
         end
     | _, _ => OutOfRange
     end
   else AssertionFailed) = Returned l
  <->
  (NDEBUG = true \/ i < unsigned (Z.of_nat (length v))) /\ 0 <= i /\
  exists lo hi,
    offsets !! Z.to_nat i = Some lo /\
    offsets !! Z.to_nat (i + 1) = Some hi /\
    (hi <= lo \/ (0 <= lo /\ hi <= Z.of_nat (length v))) /\
    l = slice v lo hi.
Proof.
  split.
  - destruct (NDEBUG || (i <? unsigned (Z.of_nat (length v)))) eqn:Hc;
      [|discriminate].
    destruct (at_index offsets i) as [lo|] eqn:Hlo; [|discriminate].
    destruct (at_index offsets (i + 1)) as [hi|] eqn:Hhi; [|discriminate].
    destruct (gather_range v lo hi) as [out|] eqn:Hg; [|discriminate].
    intros H. injection H as ->.
    apply at_index_Some in Hlo as [H0 Hlo]. apply at_index_Some in Hhi as [_ Hhi].
    apply gather_range_spec in Hg as [Hr ->].
    split.
    { apply orb_true_iff in Hc as [Hc|Hc]; [now left | right; now apply Z.ltb_lt]. }
    split; [exact H0|]. exists lo, hi. auto.
  - intros (Hc & H0 & lo & hi & Hlo & Hhi & Hr & ->).
    assert (Hc' : NDEBUG || (i <? unsigned (Z.of_nat (length v))) = true).
    { apply orb_true_iff. destruct Hc as [Hc|Hc]; [now left | right; now apply Z.ltb_lt]. }
    rewrite Hc'.
    assert (H1 : at_index offsets i = Some lo) by (apply at_index_Some; auto).
    assert (H2 : at_index offsets (i + 1) = Some hi)
      by (apply at_index_Some; split; [lia | exact Hhi]).
    rewrite H1, H2.
    assert (Hg : gather_range v lo hi = Some (slice v lo hi))
      by now apply gather_range_spec.
    now rewrite Hg.
Qed.

(** X19.  [masters(i)] returns a list exactly when the assertion holds
    or is compiled out ([i] is below the 32-bit number of all masters, or
    [NDEBUG] is defined), [i] is not negative, the offsets [i] and
    [i + 1] exist, and the range between them is empty or lies within
    [_masters]; the list is then the entries of [_masters] between the
    two offsets.  In every other case the assertion fails or a vector is
    read outside its bounds. *)
Theorem masters_returns NDEBUG m i l :
  masters NDEBUG m i = Returned l <->
  (NDEBUG = true \/ i < unsigned (Z.of_nat (length (_masters m)))) /\ 0 <= i /\
  exists lo hi,
    _offsets m !! Z.to_nat i = Some lo /\
    _offsets m !! Z.to_nat (i + 1) = Some hi /\
    (hi <= lo \/ (0 <= lo /\ hi <= Z.of_nat (length (_masters m)))) /\
    l = slice (_masters m) lo hi.
Proof. unfold masters. apply accessor_spec. Qed.

(** X20.  When [masters(i)] and [coefficients(i)] both return, the two
    lists have the same length: every master of slave [i] comes with its
    coefficient. *)
Theorem masters_and_coefficients_pair NDEBUG m i l c :
  masters NDEBUG m i = Returned l -> coefficients NDEBUG m i = Returned c ->
  length l = length c.
Proof.
  unfold masters, coefficients. intros Hl Hc.
  apply accessor_spec in Hl as (_ & _ & lo & hi & Hlo & Hhi & Hr & ->).
  apply accessor_spec in Hc as (_ & _ & lo' & hi' & Hlo' & Hhi' & Hr' & ->).
  rewrite Hlo in Hlo'. injection Hlo' as <-.
  rewrite Hhi in Hhi'. injection Hhi' as <-.
  rewrite !slice_length by assumption. reflexivity.
Qed.

Lemma delimits_bounds {A} (offsets : list Z) (v : list A) :
  delimits offsets v ->
  forall i x, offsets !! i = Some x -> 0 <= x <= Z.of_nat (length v).
Proof.
  intros (H0 & Hmono & Hlast).
  assert (Hlow : forall i x, offsets !! i = Some x -> 0 <= x).
  { induction i as [|i IH]; intros x Hx.
    - rewrite H0 in Hx. injection Hx as <-. lia.
    - destruct (offsets !! i) as [y|] eqn:Hy.
      + specialize (IH y eq_refl). specialize (Hmono i y x Hy Hx). lia.
      + apply lookup_ge_None in Hy. apply lookup_lt_Some in Hx. lia. }
  assert (Hup : forall d i x, offsets !! i = Some x ->
                  (i + d = pred (length offsets))%nat ->
                  x <= Z.of_nat (length v)).
  { rewrite last_lookup in Hlast.
    induction d as [|d IH]; intros i x Hx Hd.
    - replace (pred (length offsets)) with i in Hlast by lia.
      rewrite Hx in Hlast. injection Hlast as ->. lia.
    - destruct (offsets !! S i) as [y|] eqn:Hy.
      + specialize (IH (S i) y Hy). specialize (Hmono i x y Hx Hy). lia.
      + apply lookup_ge_None in Hy. lia. }
  intros i x Hx. split; [eauto|].
  pose proof (lookup_lt_Some _ _ _ Hx).
  apply (Hup (pred (length offsets) - i)%nat i x Hx). lia.
Qed.

Lemma slices_concat {A} (offsets : list Z) (v : list A) :
  delimits offsets v ->
  forall k x, offsets !! k = Some x ->
  concat ((fun i => slice v (offsets !!! i) (offsets !!! S i)) <$> seq 0 k)
  = take (Z.to_nat x) v.
Proof.
  intros Hd. pose proof Hd as (H0 & Hmono & _).
  induction k as [|k IH]; intros x Hx.
  - rewrite H0 in Hx. injection Hx as <-. reflexivity.
  - destruct (offsets !! k) as [y|] eqn:Hy.
    2: { apply lookup_ge_None in Hy. apply lookup_lt_Some in Hx. lia. }
    rewrite seq_S, fmap_app, concat_app, (IH y eq_refl). cbn [fmap list_fmap concat].
    rewrite app_nil_r, (list_lookup_total_correct _ _ _ Hy),
      (list_lookup_total_correct _ _ _ Hx).
    unfold slice. rewrite take_take_drop. f_equal.
    pose proof (Hmono k y x Hy Hx).
    pose proof (delimits_bounds offsets v Hd k y Hy). lia.
Qed.

(** X21.  When the offsets delimit [_masters] (they start at zero, do
    not decrease and end at its length) and there are no more slaves
    than masters, [masters(i)] returns for every slave [i], and the
    lists of all slaves, one after the other, are [_masters] again. *)
Theorem masters_partition NDEBUG m n :
  delimits (_offsets m) (_masters m) ->
  length (_offsets m) = S n ->
  (n <= length (_masters m))%nat ->
  Z.of_nat (length (_masters m)) < 2 ^ 32 ->
  exists ls,
    length ls = n /\
    (forall i l, ls !! i = Some l -> masters NDEBUG m (Z.of_nat i) = Returned l) /\
    concat ls = _masters m.
Proof.
  intros Hd Hlen Hn Hsmall.
  exists ((fun i => slice (_masters m) (_offsets m !!! i) (_offsets m !!! S i))
            <$> seq 0 n).
  split; [now rewrite length_fmap, length_seq|]. split.
  - intros i l Hl. rewrite list_lookup_fmap in Hl.
    destruct (seq 0 n !! i) as [i'|] eqn:Hi; [|discriminate Hl].
    apply lookup_seq in Hi as [-> Hi]. cbn in Hl. injection Hl as <-.
    destruct (lookup_lt_is_Some_2 (_offsets m) i) as [lo Hlo]; [lia|].
    destruct (lookup_lt_is_Some_2 (_offsets m) (S i)) as [hi Hhi]; [lia|].
    rewrite (list_lookup_total_correct _ _ _ Hlo),
      (list_lookup_total_correct _ _ _ Hhi).
    unfold masters. apply accessor_spec.
    pose proof (delimits_bounds _ _ Hd i lo Hlo).
    pose proof (delimits_bounds _ _ Hd (S i) hi Hhi).
    rewrite unsigned_small by lia. split; [right; lia|]. split; [lia|].
    exists lo, hi. rewrite Nat2Z.id.
    replace (Z.to_nat (Z.of_nat i + 1)) with (S i) by lia.
    split; [exact Hlo|]. split; [exact Hhi|]. split; [right; lia | reflexivity].
  - pose proof Hd as (_ & _ & Hlast). rewrite last_lookup, Hlen in Hlast.
    cbn [pred] in Hlast.
    rewrite (slices_concat _ _ Hd n _ Hlast), Nat2Z.id. apply firstn_all.
Qed.

(** ** The entries of the cell-to-slave array and their slave index *)

(** X22.  After construction, every entry of the cell-to-slave array is
    one of the slaves, and it is the value, converted to [unsigned], of a
    dof of some cell of the mesh. *)
Theorem cell_to_slave_entries dofmap slaves masters coefficients offsets x :
  x ∈ _cell_to_slave (construct dofmap slaves masters coefficients offsets) ->
  x ∈ slaves /\
  exists i dofs d, dofmap !! i = Some dofs /\ d ∈ dofs /\ unsigned d = x.
Proof.
  destruct (construct_csr dofmap slaves masters coefficients offsets) as (Hc & _).
  rewrite Hc. unfold rows_of. intros Hx.
  apply list_elem_of_In, in_concat in Hx as (row & Hrow & Hx).
  apply list_elem_of_In in Hrow, Hx.
  apply list_elem_of_fmap in Hrow as ([i dofs] & -> & Hin). cbn [snd] in Hx.
  apply list_elem_of_filter in Hin as [_ Hin]. apply mesh_range_elem in Hin.
  apply hits_elem in Hx as (Hs & d & Hd & Hu).
  split; [exact Hs|]. exists i, dofs, d. auto.
Qed.

Lemma slave_index_fold x (slaves : list Z) : forall n idx,
  (x ∉ slaves ->
   fold_left (fun slave_index cs =>
                if snd cs =? x then Z.of_nat (fst cs) else slave_index)
             (imap (fun counter s => ((n + counter)%nat, s)) slaves) idx
   = idx) /\
  (x ∈ slaves ->
   exists k,
     fold_left (fun slave_index cs =>
                  if snd cs =? x then Z.of_nat (fst cs) else slave_index)
               (imap (fun counter s => ((n + counter)%nat, s)) slaves) idx
     = Z.of_nat (n + k) /\
     slaves !! k = Some x /\
     forall k', (k < k')%nat -> slaves !! k' <> Some x).
Proof.
  induction slaves as [|s ss IH]; intros n idx.
  - split; [reflexivity|]. intros H. now apply not_elem_of_nil in H.
  - cbn [imap fold_left fst snd].
    assert (Hext : imap ((fun counter s => ((n + counter)%nat, s)) ∘ S) ss
                   = imap (fun counter s => ((S n + counter)%nat, s)) ss).
    { apply imap_ext. intros c d _. cbn. f_equal. lia. }
    rewrite Hext.
    destruct (IH (S n) (if s =? x then Z.of_nat (n + 0) else idx)) as [Hout Hin].
    destruct (decide (x ∈ ss)) as [Hss|Hss].
    + split; [intros H; destruct H; now right|]. intros _.
      destruct (Hin Hss) as (k & Hr & Hk & Hlast). exists (S k).
      rewrite Hr. split; [f_equal; lia|]. split; [exact Hk|].
      intros k' Hk'. destruct k' as [|k']; [lia|]. cbn. apply Hlast. lia.
    + rewrite (Hout Hss). destruct (Z.eqb_spec s x) as [->|Hne].
      * split; [intros H; destruct H; now left|]. intros _. exists 0%nat.
        split; [reflexivity|]. split; [reflexivity|].
        intros k' Hk' Hl. destruct k' as [|k']; [lia|]. cbn in Hl.
        apply Hss. eapply list_elem_of_lookup_2; eauto.
      * split; [reflexivity|]. intros H. apply elem_of_cons in H as [->|H];
          [now destruct Hne | contradiction].
Qed.

(** X23.  The search for the index of a slave dof in
    [generate_sparsity_pattern] gives the last position at which
    [_slaves] holds the dof; for a dof that is not in [_slaves] it gives
    position zero, the position of the first slave. *)
Theorem slave_index_search slaves x :
  (x ∈ slaves ->
   exists k, slave_index_of slaves x = Z.of_nat k /\
             slaves !! k = Some x /\
             forall k', (k < k')%nat -> slaves !! k' <> Some x) /\
  (x ∉ slaves -> slave_index_of slaves x = 0).
Proof.
  destruct (slave_index_fold x slaves 0 0) as [Hout Hin]. split.
  - intros H. destruct (Hin H) as (k & Hr & Hk). exists k. split; [exact Hr | exact Hk].
  - exact Hout.
Qed.

Lemma cell_to_slave_rows_witness :
  exists i dofs x y,
    1 = Z.of_nat i /\ interval3 !! i = Some dofs /\
    _offsets_cell_to_slave (construct interval3 [1] [] [] []) !! 1%nat = Some x /\
    _offsets_cell_to_slave (construct interval3 [1] [] [] []) !! 2%nat = Some y /\
    0 <= x <= y /\
    slice (_cell_to_slave (construct interval3 [1] [] [] [])) x y = hits [1] dofs /\
    hits [1] dofs <> [].
Proof.
  apply (cell_to_slave_rows interval3 [1] [] [] [] 1 1). reflexivity.
Defined.

Lemma classification_kept_when_found_witness :
  Nat.iter 2 (fun m => fst (cell_classification m))
    (construct interval3 [1] [] [] [])
  = construct interval3 [1] [] [] [] /\
  cell_classification (construct interval3 [1] [] [] [])
  = (construct interval3 [1] [] [] [],
     (_slave_cells (construct interval3 [1] [] [] []),
      _normal_cells (construct interval3 [1] [] [] []))).
Proof.
  apply (classification_kept_when_found interval3 [1] [] [] [] 0 [0; 1] 2).
  - repeat constructor; lia.
  - reflexivity.
  - exists 1. split; [right; left | left].
Defined.

Lemma masters_and_coefficients_pair_witness :
  length [0; 1] = length [2%float; 3%float].
Proof.
  apply (masters_and_coefficients_pair false constrained 1 [0; 1] [2%float; 3%float]);
    reflexivity.
Defined.

Lemma masters_partition_witness :
  exists ls,
    length ls = 3%nat /\
    (forall i l, ls !! i = Some l ->
       masters false constrained (Z.of_nat i) = Returned l) /\
    concat ls = _masters constrained.
Proof.
  apply (masters_partition false constrained 3).
  - assert (Ho : _offsets constrained = [0; 1; 3; 4]) by reflexivity.
    unfold delimits. rewrite Ho. split; [reflexivity|]. split; [|reflexivity].
    intros i x y Hx Hy.
    destruct i as [|[|[|i]]]; cbn in Hx, Hy; try discriminate Hy;
      injection Hx as <-; injection Hy as <-; lia.
  - reflexivity.
  - vm_compute. lia.
  - vm_compute. reflexivity.
Defined.

Lemma cell_to_slave_entries_witness :
  1 ∈ [1] /\
  exists i dofs d, interval3 !! i = Some dofs /\ d ∈ dofs /\ unsigned d = 1.
Proof.
  apply (cell_to_slave_entries interval3 [1] [] [] [] 1). left.
Defined.

End MultiPointConstraintExtra.

(* ===================================================================== *)
(** * Properties of the managers of the sub-systems                       *)
(* ===================================================================== *)

Module LibrariesProofs.
Import Libraries.

Lemma occurrences_snoc c l x :
  occurrences c (l ++ [x]) = (occurrences c l + if decide (x = c) then 1 else 0)%nat.
Proof.
  unfold occurrences. rewrite filter_app, length_app. f_equal.
  destruct (decide (x = c)) as [->|Hne].
  - now rewrite filter_cons_True.
  - now rewrite filter_cons_False.
Qed.

Lemma occurrences_zero c l : c ∉ l -> occurrences c l = 0%nat.
Proof.
  unfold occurrences. induction l as [|x l IH]; intros H; [reflexivity|].
  apply not_elem_of_cons in H as [Hne Hl].
  rewrite filter_cons_False by congruence. now apply IH.
Qed.

Lemma snoc_split {A} (l : list A) c pre x post :
  l ++ [c] = pre ++ x :: post ->
  (post = [] /\ c = x /\ pre = l) \/
  (exists post', post = post' ++ [c] /\ l = pre ++ x :: post').
Proof.
  intros H. destruct post as [|y post] using rev_ind.
  - left. apply app_inj_tail in H as [-> ->]. auto.
  - right. clear IHpost. exists post.
    change (pre ++ x :: post ++ [y]) with (pre ++ (x :: post) ++ [y]) in H.
    rewrite app_assoc in H. apply app_inj_tail in H as [-> ->]. auto.
Qed.

Lemma filter_none {A} (P : A -> Prop) `{forall x, Decision (P x)} (l : list A) :
  Forall (fun x => ~ P x) l -> filter P l = [].
Proof.
  induction 1 as [|x l Hx _ IH]; [reflexivity|].
  now rewrite filter_cons_False.
Qed.

Lemma at_most_once {A} (P : A -> Prop) `{forall x, Decision (P x)} (l : list A) :
  (forall pre c post, l = pre ++ c :: post -> P c -> Forall (fun x => ~ P x) pre) ->
  (length (filter P l) <= 1)%nat.
Proof.
  induction l as [|x l IH] using rev_ind; intros Hl; [cbn; lia|].
  rewrite filter_app, length_app.
  destruct (decide (P x)) as [Hx|Hx].
  - rewrite filter_cons_True by exact Hx. cbn [filter list_filter length].
    rewrite (filter_none P l); [cbn; lia|].
    apply (Hl l x []); [reflexivity | exact Hx].
  - rewrite filter_cons_False by exact Hx. cbn [filter list_filter length].
    rewrite Nat.add_0_r. apply IH. intros pre c post -> Hc.
    apply (Hl pre c (post ++ [x])); [|exact Hc].
    now rewrite <- app_assoc.
Qed.

End LibrariesProofs.

Module SubSystemsManagerProofs.
Import Libraries LibrariesProofs SubSystemsManager.
Local Open Scope nat_scope.

Ltac world :=
  cbn [calls output petsc_initialized control_mpi call print
       set_control_mpi set_petsc_initialized].

Tactic Notation "world_in" hyp(H) :=
  cbn [calls output petsc_initialized control_mpi call print
       set_control_mpi set_petsc_initialized] in H.

Ltac count :=
  repeat rewrite occurrences_snoc;
  repeat first [ rewrite decide_True by reflexivity
               | rewrite decide_False by discriminate ];
  rewrite ?Nat.add_0_r.

Section WithEnv.

Variable HAS_MPI HAS_PETSC HAS_SLEPC : bool.
Variable Is_initialized : list Call -> bool.

Abbreviation step := (step HAS_MPI HAS_PETSC HAS_SLEPC Is_initialized).
Abbreviation run := (run HAS_MPI HAS_PETSC HAS_SLEPC Is_initialized).

(** An invariant of the steps holds after every run. *)
Lemma run_invariant (P : world -> Prop) :
  (forall w op w', P w -> step w op = Ok w' -> P w') ->
  forall ops w w', P w -> run ops w = Ok w' -> P w'.
Proof.
  intros Hstep. induction ops as [|op ops IH]; intros w w' HP Hrun.
  - cbn in Hrun. now injection Hrun as <-.
  - cbn [SubSystemsManager.run] in Hrun.
    destruct (step w op) as [w1|] eqn:H1; [|discriminate Hrun].
    eapply IH; [|exact Hrun]. eapply Hstep; eauto.
Qed.

(** ** PETSc is initialised once *)

Lemma step_petsc_once w op w' :
  petsc_once w -> step w op = Ok w' -> petsc_once w'.
Proof.
  unfold petsc_once. intros [H0 H1] Hstep.
  destruct op; cbn [SubSystemsManager.step] in Hstep.
  - injection Hstep as <-. unfold initMPI.
    destruct HAS_MPI; [|auto]. world.
    destruct (Is_initialized (calls w)); world; [auto|].
    count. auto.
  - unfold initPETSc, initPETSc_args in Hstep.
    destruct HAS_PETSC; [|discriminate Hstep].
    destruct (petsc_initialized w) eqn:Hf;
      [injection Hstep as <-; split; [intros; congruence | exact H1]|].
    world_in Hstep. rewrite Hf in Hstep. injection Hstep as <-.
    specialize (H0 eq_refl).
    destruct HAS_SLEPC; world;
      match goal with |- context [if ?b then _ else _] => destruct b end; world;
      count; rewrite H0; split; first [discriminate | lia].
  - unfold initPETSc_args in Hstep.
    destruct HAS_PETSC; [|discriminate Hstep].
    destruct (petsc_initialized w) eqn:Hf;
      [injection Hstep as <-; split; [intros; congruence | exact H1]|].
    injection Hstep as <-. specialize (H0 eq_refl).
    destruct cmd_line_args, HAS_SLEPC; world;
      match goal with |- context [if ?b then _ else _] => destruct b end; world;
      count; rewrite H0; split; first [discriminate | lia].
  - injection Hstep as <-. unfold finalizeMPI.
    destruct HAS_MPI; [|auto].
    destruct (Is_initialized (calls w) && control_mpi w); world; [|auto].
    count. auto.
  - injection Hstep as <-. unfold finalizePETSc.
    destruct HAS_PETSC; [|auto].
    destruct (petsc_initialized w) eqn:Hf; [|auto].
    destruct HAS_SLEPC; world; rewrite Hf; count;
      split; first [discriminate | exact H1].
Qed.

(** X24.  Over any run of the static functions of the manager, from the
    state that the constructor leaves, [PetscInitialize] is called at
    most once: every further call of [initPETSc] returns at once. *)
Theorem petsc_initialized_once ops w :
  run ops constructed = Ok w ->
  occurrences PetscInitialize (calls w) <= 1.
Proof.
  intros Hrun.
  apply (run_invariant petsc_once step_petsc_once ops constructed w); [|exact Hrun].
  split; [reflexivity | cbn; lia].
Qed.

(** ** Responsibility for MPI *)

Lemma call_controlled c w :
  mpi_controlled w ->
  (c = MPI_Finalize -> MPI_Init ∈ calls w) ->
  mpi_controlled (call c w).
Proof.
  intros [Hc Hf] Hfin. split; cbn.
  - intros H. apply elem_of_app. left. auto.
  - intros pre post Heq. apply snoc_split in Heq as [(-> & -> & ->)|(post' & -> & Heq)].
    + now apply Hfin.
    + eapply Hf; eauto.
Qed.

Lemma step_mpi_controlled w op w' :
  mpi_controlled w -> step w op = Ok w' -> mpi_controlled w'.
Proof.
  intros Hinv Hstep. destruct op; cbn [SubSystemsManager.step] in Hstep.
  - injection Hstep as <-. unfold initMPI.
    destruct HAS_MPI; [|exact Hinv]. world.
    destruct (Is_initialized (calls w)); [exact Hinv|].
    destruct (call_controlled MPI_Init (print (cout_status_initMPI false) w))
      as [_ Hf]; [exact Hinv | discriminate|].
    split; [|exact Hf]. intros _. world. apply elem_of_app. right. now left.
  - unfold initPETSc, initPETSc_args in Hstep.
    destruct HAS_PETSC; [|discriminate Hstep].
    destruct (petsc_initialized w) eqn:Hfl; [injection Hstep as <-; exact Hinv|].
    world_in Hstep. rewrite Hfl in Hstep. injection Hstep as <-.
    assert (H1 : mpi_controlled (call PetscInitialize w))
      by (apply call_controlled; [exact Hinv | discriminate]).
    assert (H2 : mpi_controlled (call SlepcInitialize (call PetscInitialize w)))
      by (apply call_controlled; [exact H1 | discriminate]).
    destruct HAS_SLEPC; cbn;
      match goal with |- context [if ?b then _ else _] => destruct b end;
      first [ exact H1 | exact H2
            | split; [discriminate | apply H1] | split; [discriminate | apply H2]
            | split; [apply H1 | apply H1] | split; [apply H2 | apply H2] ].
  - unfold initPETSc_args in Hstep.
    destruct HAS_PETSC; [|discriminate Hstep].
    destruct (petsc_initialized w) eqn:Hfl; [injection Hstep as <-; exact Hinv|].
    injection Hstep as <-.
    assert (H1 : mpi_controlled (call PetscInitialize w))
      by (apply call_controlled; [exact Hinv | discriminate]).
    assert (H2 : mpi_controlled (call SlepcInitialize (call PetscInitialize w)))
      by (apply call_controlled; [exact H1 | discriminate]).
    destruct cmd_line_args, HAS_SLEPC; cbn;
      match goal with |- context [if ?b then _ else _] => destruct b end;
      first [ exact H1 | exact H2
            | split; [discriminate | apply H1] | split; [discriminate | apply H2]
            | split; [apply H1 | apply H1] | split; [apply H2 | apply H2] ].
  - injection Hstep as <-. unfold finalizeMPI.
    destruct HAS_MPI; [|exact Hinv].
    destruct (Is_initialized (calls w)); cbn; [|exact Hinv].
    destruct (control_mpi w) eqn:Hc; [|exact Hinv].
    apply call_controlled; [exact Hinv|]. intros _. now apply Hinv.
  - injection Hstep as <-. unfold finalizePETSc.
    destruct HAS_PETSC; [|exact Hinv].
    destruct (petsc_initialized w); [|exact Hinv].
    assert (H1 : mpi_controlled (call PetscFinalize w))
      by (apply call_controlled; [exact Hinv | discriminate]).
    destruct HAS_SLEPC; [|exact H1].
    apply call_controlled; [exact H1 | discriminate].
Qed.

(** X25.  Over any run of the static functions, whatever the MPI
    library answers, the manager calls [MPI::Finalize] only after its
    own call of [MPI::Init]: MPI that was initialised elsewhere (by the
    user or by PETSc) is never finalised by the manager. *)
Theorem finalizes_only_own_mpi ops w pre post :
  run ops constructed = Ok w ->
  calls w = pre ++ MPI_Finalize :: post ->
  MPI_Init ∈ pre.
Proof.
  intros Hrun.
  assert (Hinv : mpi_controlled w).
  { apply (run_invariant mpi_controlled step_mpi_controlled ops constructed w);
      [|exact Hrun].
    split; cbn; [discriminate|]. intros pre0 post0 H. now destruct pre0. }
  apply Hinv.
Qed.

Hypothesis initialized_after_init :
  forall calls, MPI_Init ∈ calls -> Is_initialized calls = true.

Lemma step_mpi_once w op w' :
  occurrences MPI_Init (calls w) <= 1 -> step w op = Ok w' ->
  occurrences MPI_Init (calls w') <= 1.
Proof.
  intros H1 Hstep. destruct op; cbn [SubSystemsManager.step] in Hstep.
  - injection Hstep as <-. unfold initMPI.
    destruct HAS_MPI; [|exact H1]. world.
    destruct (Is_initialized (calls w)) eqn:Hi; [exact H1|]. world.
    count. rewrite occurrences_zero; [lia|]. intros Hin.
    apply initialized_after_init in Hin. congruence.
  - unfold initPETSc, initPETSc_args in Hstep.
    destruct HAS_PETSC; [|discriminate Hstep].
    destruct (petsc_initialized w) eqn:Hfl; [injection Hstep as <-; exact H1|].
    world_in Hstep. rewrite Hfl in Hstep. injection Hstep as <-.
    destruct HAS_SLEPC; world;
      match goal with |- context [if ?b then _ else _] => destruct b end; world;
      count; lia.
  - unfold initPETSc_args in Hstep.
    destruct HAS_PETSC; [|discriminate Hstep].
    destruct (petsc_initialized w) eqn:Hfl; [injection Hstep as <-; exact H1|].
    injection Hstep as <-.
    destruct cmd_line_args, HAS_SLEPC; world;
      match goal with |- context [if ?b then _ else _] => destruct b end; world;
      count; lia.
  - injection Hstep as <-. unfold finalizeMPI.
    destruct HAS_MPI; [|exact H1].
    destruct (Is_initialized (calls w) && control_mpi w); world; [|exact H1].
    count. lia.
  - injection Hstep as <-. unfold finalizePETSc.
    destruct HAS_PETSC; [|exact H1].
    destruct (petsc_initialized w); [|exact H1].
    destruct HAS_SLEPC; world; count; lia.
Qed.

(** X26.  When MPI reports itself initialised after a call of
    [MPI::Init], the manager calls [MPI::Init] at most once over any run
    of its static functions. *)
Theorem mpi_initialized_once ops w :
  run ops constructed = Ok w ->
  occurrences MPI_Init (calls w) <= 1.
Proof.
  intros Hrun.
  apply (run_invariant (fun w => occurrences MPI_Init (calls w) <= 1)
           step_mpi_once ops constructed w); [|exact Hrun].
  cbn. lia.
Qed.

End WithEnv.

Section Finalize.

Variable HAS_SLEPC : bool.

(** X27.  [finalizePETSc] leaves [petsc_initialized] set: once PETSc has
    been initialised, every call of it (also the one the destructor
    makes after an explicit call) calls [PetscFinalize] again. *)
Theorem finalizePETSc_repeats n w :
  petsc_initialized w = true ->
  petsc_initialized (Nat.iter n (finalizePETSc true HAS_SLEPC) w) = true /\
  occurrences PetscFinalize (calls (Nat.iter n (finalizePETSc true HAS_SLEPC) w))
  = occurrences PetscFinalize (calls w) + n.
Proof.
  intros Hf. induction n as [|n [IH1 IH2]]; [cbn; auto with arith|].
  rewrite Nat.iter_succ. unfold finalizePETSc at 1 3. rewrite IH1.
  destruct HAS_SLEPC; world; count; rewrite IH2; split; first [exact IH1 | lia].
Qed.

End Finalize.

(** Runs with MPI and PETSc configured, on the example library. *)
Lemma petsc_initialized_once_witness :
  occurrences PetscInitialize
    [MPI_Init; PetscInitialize; PetscFinalize; MPI_Finalize] <= 1.
Proof.
  apply (petsc_initialized_once true true false initialised_by_calls
           [op_initMPI; op_initPETSc; op_initPETSc_args true; op_finalizePETSc;
            op_finalizeMPI]
           {| petsc_initialized := true; control_mpi := true;
              calls := [MPI_Init; PetscInitialize; PetscFinalize; MPI_Finalize];
              output := [cout_status_initMPI false; message_ignoring_arguments;
                         cout_status_initPETSc true] |}).
  reflexivity.
Defined.

Lemma finalizes_only_own_mpi_witness :
  MPI_Init ∈ [MPI_Init; PetscInitialize; PetscFinalize].
Proof.
  apply (finalizes_only_own_mpi true true false initialised_by_calls
           [op_initMPI; op_initPETSc; op_initPETSc_args true; op_finalizePETSc;
            op_finalizeMPI]
           {| petsc_initialized := true; control_mpi := true;
              calls := [MPI_Init; PetscInitialize; PetscFinalize; MPI_Finalize];
              output := [cout_status_initMPI false; message_ignoring_arguments;
                         cout_status_initPETSc true] |}
           [MPI_Init; PetscInitialize; PetscFinalize] []); reflexivity.
Defined.

Lemma initialised_by_calls_after_init calls :
  MPI_Init ∈ calls -> initialised_by_calls calls = true.
Proof.
  intros Hin. unfold initialised_by_calls. apply existsb_exists. exists MPI_Init.
  split; [now apply list_elem_of_In | reflexivity].
Qed.

Lemma mpi_initialized_once_witness :
  occurrences MPI_Init [MPI_Init; PetscInitialize; MPI_Finalize] <= 1.
Proof.
  apply (mpi_initialized_once true true false initialised_by_calls
           initialised_by_calls_after_init
           [op_initMPI; op_initPETSc; op_initMPI; op_finalizeMPI]
           {| petsc_initialized := true; control_mpi := true;
              calls := [MPI_Init; PetscInitialize; MPI_Finalize];
              output := [cout_status_initMPI false; message_ignoring_arguments;
                         cout_status_initPETSc true; cout_status_initMPI true] |}).
  reflexivity.
Defined.

Lemma finalizePETSc_repeats_witness :
  petsc_initialized
    (Nat.iter 2 (finalizePETSc true false)
       {| petsc_initialized := true; control_mpi := false;
          calls := [PetscInitialize]; output := [] |}) = true /\
  occurrences PetscFinalize
    (calls (Nat.iter 2 (finalizePETSc true false)
              {| petsc_initialized := true; control_mpi := false;
                 calls := [PetscInitialize]; output := [] |}))
  = occurrences PetscFinalize [PetscInitialize] + 2.
Proof.
  apply (finalizePETSc_repeats false 2
           {| petsc_initialized := true; control_mpi := false;
              calls := [PetscInitialize]; output := [] |}).
  reflexivity.
Defined.

End SubSystemsManagerProofs.

Module SubSystemsManagerXProofs.
Import Libraries LibrariesProofs SubSystemsManagerX.
Local Open Scope nat_scope.

Ltac world :=
  cbn [calls output call print].

Ltac count :=
  repeat rewrite occurrences_snoc;
  repeat first [ rewrite decide_True by reflexivity
               | rewrite decide_False by discriminate ];
  rewrite ?Nat.add_0_r.

Tactic Notation "world_eq" hyp(H) := cbn [calls output call print] in H.

Lemma fold_invariant {A B} (P : A -> Prop) (f : A -> B -> A) :
  (forall a b, P a -> P (f a b)) ->
  forall l a, P a -> P (fold_left f l a).
Proof.
  intros Hf. induction l as [|b l IH]; intros a Ha; [exact Ha|].
  cbn [fold_left]. apply IH, Hf, Ha.
Qed.

Lemma init_threads_snoc l c :
  length (filter (fun c => is_init_thread c = true) (l ++ [c]))
  = length (filter (fun c => is_init_thread c = true) l)
    + (if is_init_thread c then 1 else 0).
Proof.
  rewrite filter_app, length_app. f_equal.
  destruct (is_init_thread c) eqn:Hc.
  - now rewrite filter_cons_True.
  - rewrite filter_cons_False; [reflexivity|]. congruence.
Qed.

Lemma init_threads_none l :
  existsb is_init_thread l = false ->
  length (filter (fun c => is_init_thread c = true) l) = 0.
Proof.
  induction l as [|c l IH]; [reflexivity|]. cbn [existsb].
  intros H. apply orb_false_iff in H as [Hc Hl].
  rewrite filter_cons_False by congruence. now apply IH.
Qed.

Section WithEnv.

Variable HAS_SLEPC : bool.
Variable MPI_Initialized MPI_Finalized PetscInitialized : list Call -> bool.
Variable provided : list Call -> Z -> Z.
Variable MPI_THREAD_MULTIPLE : Z.

Abbreviation step :=
  (step HAS_SLEPC MPI_Initialized MPI_Finalized PetscInitialized provided
        MPI_THREAD_MULTIPLE).
Abbreviation run :=
  (run HAS_SLEPC MPI_Initialized MPI_Finalized PetscInitialized provided
       MPI_THREAD_MULTIPLE).

Abbreviation all_guarded :=
  (all_guarded MPI_Initialized MPI_Finalized PetscInitialized).
Abbreviation guarded :=
  (guarded MPI_Initialized MPI_Finalized PetscInitialized).

Lemma call_guarded c w :
  all_guarded w -> guarded (calls w) c -> all_guarded (call c w).
Proof.
  intros Hinv Hg pre c' post Heq. world_eq Heq.
  apply snoc_split in Heq as [(_ & -> & ->)|(post' & _ & Heq)];
    [exact Hg | eauto].
Qed.

Lemma step_guarded w op : all_guarded w -> all_guarded (step w op).
Proof.
  intros Hinv. destruct op; cbn [SubSystemsManagerX.step].
  - unfold init_mpi, init_mpi_args.
    destruct (MPI_Initialized (calls w)) eqn:Hi; cbn [fst]; [exact Hinv|].
    apply call_guarded; [exact Hinv | exact Hi].
  - unfold init_mpi_args.
    destruct (MPI_Initialized (calls w)) eqn:Hi; cbn [fst]; [exact Hinv|].
    apply call_guarded; [exact Hinv | exact Hi].
  - unfold init_petsc, init_petsc_args. cbn [Z.ltb Z.compare]. cbv zeta.
    destruct (PetscInitialized (calls w)) eqn:Hp; cbn [negb];
      destruct HAS_SLEPC; try exact Hinv;
      repeat (apply call_guarded; [|first [exact I | exact Hp]]); exact Hinv.
  - unfold init_petsc_args. cbv zeta.
    destruct (1 <? argc)%Z; world;
      destruct (PetscInitialized (calls w)) eqn:Hp; cbn [negb];
      destruct HAS_SLEPC; try exact Hinv;
      repeat (apply call_guarded; [|first [exact I | exact Hp]]); exact Hinv.
  - unfold finalize_mpi.
    destruct (MPI_Initialized (calls w)) eqn:Hi; [|exact Hinv].
    destruct (MPI_Finalized (calls w)) eqn:Hf; cbn [negb]; [exact Hinv|].
    apply call_guarded; [exact Hinv | split; assumption].
  - unfold finalize_petsc. cbv zeta.
    destruct HAS_SLEPC;
      repeat (apply call_guarded; [|exact I]); exact Hinv.
Qed.

Lemma fold_guarded ops pre c post :
  calls (run ops started) = pre ++ c :: post -> guarded pre c.
Proof.
  assert (Hinv : all_guarded (run ops started)).
  { apply (fold_invariant all_guarded step step_guarded).
    intros pre0 c0 post0 H. now destruct pre0. }
  apply Hinv.
Qed.

(** X28.  Over any run of the functions of the namespace, whatever the
    libraries answer, every call is made under its test:
    [MPI_Init_thread] only when MPI reports itself not initialised,
    [MPI_Finalize] only when MPI reports itself initialised and not
    finalised, [PetscInitialize] only when PETSc reports itself not
    initialised. *)
Theorem calls_are_guarded ops pre c post :
  calls (run ops started) = pre ++ c :: post -> guarded pre c.
Proof. apply fold_guarded. Qed.

Hypothesis initialized_after_init :
  forall calls c, c ∈ calls -> is_init_thread c = true ->
                  MPI_Initialized calls = true.
Hypothesis finalized_after_finalize :
  forall calls, MPI_Finalize ∈ calls -> MPI_Finalized calls = true.

(** X29.  When MPI answers as the comments of the source describe it
    (it is initialised once [MPI_Init_thread] has been called, and stays
    so; it is finalised once [MPI_Finalize] has been called), then over
    any run [MPI_Init_thread] and [MPI_Finalize] are each called at most
    once, whatever PETSc answers. *)
Theorem libraries_started_and_stopped_once ops :
  length (filter (fun c => is_init_thread c = true) (calls (run ops started))) <= 1 /\
  occurrences MPI_Finalize (calls (run ops started)) <= 1.
Proof.
  assert (Hg : forall pre c post,
            calls (run ops started) = pre ++ c :: post -> guarded pre c).
  { intros pre c post. apply fold_guarded. }
  unfold occurrences. split; apply at_most_once; intros pre c post Heq Hc;
    apply Hg in Heq; rewrite Forall_forall; intros x Hx Hpx.
  - destruct c; try discriminate Hc. cbn in Heq.
    rewrite (initialized_after_init pre x Hx Hpx) in Heq. discriminate Heq.
  - subst c x. destruct Heq as [_ Heq].
    rewrite (finalized_after_finalize pre Hx) in Heq. discriminate Heq.
Qed.

End WithEnv.

Lemma calls_are_guarded_witness :
  guarded initialised_after finalised_after petsc_initialised_after
    [MPI_Init_thread 3; PetscInitialize; PetscFinalize] MPI_Finalize.
Proof.
  apply (calls_are_guarded false initialised_after finalised_after
           petsc_initialised_after (fun _ level => level) 3
           [op_init_mpi; op_init_mpi_args 0; op_init_petsc; op_init_petsc;
            op_finalize_petsc; op_finalize_mpi; op_finalize_mpi]
           [MPI_Init_thread 3; PetscInitialize; PetscFinalize] MPI_Finalize []).
  reflexivity.
Defined.

Lemma initialised_after_init calls c :
  c ∈ calls -> is_init_thread c = true -> initialised_after calls = true.
Proof.
  intros Hin Hc. apply existsb_exists. exists c.
  split; [now apply list_elem_of_In | exact Hc].
Qed.

Lemma finalised_after_finalize calls :
  MPI_Finalize ∈ calls -> finalised_after calls = true.
Proof.
  intros Hin. apply existsb_exists. exists MPI_Finalize.
  split; [now apply list_elem_of_In | reflexivity].
Qed.

Lemma libraries_started_and_stopped_once_witness :
  length (filter (fun c => is_init_thread c = true)
            [MPI_Init_thread 3; PetscInitialize; PetscFinalize; MPI_Finalize]) <= 1 /\
  occurrences MPI_Finalize
    [MPI_Init_thread 3; PetscInitialize; PetscFinalize; MPI_Finalize] <= 1.
Proof.
  apply (libraries_started_and_stopped_once false initialised_after
           finalised_after petsc_initialised_after (fun _ level => level) 3
           initialised_after_init finalised_after_finalize
           [op_init_mpi; op_init_mpi_args 0; op_init_petsc; op_init_petsc;
            op_finalize_petsc; op_finalize_mpi; op_finalize_mpi]).
Defined.

(** With a PETSc that reports itself not initialised once
    [PetscFinalize] has been called, [PetscInitialize] is called
    again. *)
Example petsc_initialized_again :
  occurrences PetscInitialize
    (calls (run false initialised_after finalised_after petsc_initialised_now
              (fun _ level => level) 3
              [op_init_petsc; op_finalize_petsc; op_init_petsc] started))
  = 2.
Proof. reflexivity. Qed.

End SubSystemsManagerXProofs.
